(** * Font Bakery check bodies: a shallow embedding

    The check bodies and conditions of [Lib/fontbakery/checks] are embedded
    as Rocq functions.  A check body is a Python generator: it is modelled
    in the monad [Gen], which records the [(status, message)] pairs yielded
    so far together with how control left the body (fell through, executed
    [return], or raised).  Font objects that the code copies or changes in
    place live in an explicit store.

    Conventions.
    - Python [int] is [Z]; numbers that Python may hold in a [float]
      (outline coordinates, lengths, angles) are rationals [Q], so the
      rounding of floating-point arithmetic is not part of the model.
    - A [dict] is an association list in insertion order.
    - A table of a font is optional exactly when some check of the source
      tests for its presence (OS/2, hhea, CFF, CFF2).
    - Functions of Font Bakery and of third-party libraries whose code is
      not part of the checked files are fields of [Env]. *)

From Stdlib Require Import ZArith QArith Qabs String Ascii List Lia Bool.
From Stdlib Require Import Permutation DecimalString.
From stdpp Require Import base option list gmap strings.

Import ListNotations.
Local Open Scope Z_scope.

(** ** The Python fragment the checks are written in *)

Module Py.

(** [fontbakery.status] *)
Inductive Status := DEBUG | INFO | PASS | SKIP | WARN | FAIL | ERROR.

(** What a check yields next to the status: a [Message(code, text)], or a
    bare string. *)
Inductive Msg :=
| Message (code : string) (text : string)
| Text (text : string).

Definition Emission : Type := Status * Msg.

Inductive Exn :=
| KeyError (key : string)
| IndexError
| TypeError
| ValueError
| ZeroDivisionError
| UnicodeDecodeError
| RecursionError
| AttributeError
| TTLibError.

(** Fallible code that is not a generator. *)
Inductive Res (A : Type) :=
| Ok (a : A)
| Raised (e : Exn).
Arguments Ok {A} a.
Arguments Raised {A} e.

(** How control leaves a piece of a generator body. *)
Inductive Flow (A : Type) :=
| Next (a : A)
| Return
| Throw (e : Exn).
Arguments Next {A} a.
Arguments Return {A}.
Arguments Throw {A} e.

Record Gen (A : Type) := MkGen { yielded : list Emission; flow : Flow A }.
Arguments MkGen {A} yielded flow.
Arguments yielded {A} g.
Arguments flow {A} g.

#[export] Instance Res_ret : MRet Res := fun A a => Ok a.
#[export] Instance Res_bind : MBind Res := fun A B f m =>
  match m with
  | Ok a => f a
  | Raised e => Raised e
  end.

#[export] Instance Gen_ret : MRet Gen := fun A a => MkGen [] (Next a).
#[export] Instance Gen_bind : MBind Gen := fun A B f m =>
  match flow m with
  | Next a => let r := f a in MkGen (yielded m ++ yielded r) (flow r)
  | Return => MkGen (yielded m) Return
  | Throw e => MkGen (yielded m) (Throw e)
  end.

(** [yield status, message] *)
Definition yield (s : Status) (m : Msg) : Gen unit := MkGen [(s, m)] (Next tt).
(** [return] inside a generator *)
Definition return_ {A} : Gen A := MkGen [] Return.
Definition raise {A} (e : Exn) : Gen A := MkGen [] (Throw e).
(** A fallible expression evaluated inside a generator. *)
Definition lift {A} (r : Res A) : Gen A :=
  match r with
  | Ok a => MkGen [] (Next a)
  | Raised e => MkGen [] (Throw e)
  end.
Definition pass : Gen unit := mret tt.

(** [for x in l: body x], in any of the monads of this file. *)
Fixpoint for_ {M} `{!MRet M, !MBind M} {A} (l : list A) (body : A -> M unit) : M unit :=
  match l with
  | [] => mret tt
  | x :: l' => body x ;; for_ l' body
  end.

(** [for x in l: s = body s x], the loop state [s] standing for the local
    variables that the loop assigns. *)
Fixpoint for_fold {M} `{!MRet M, !MBind M} {S A}
    (l : list A) (s : S) (body : S -> A -> M S) : M S :=
  match l with
  | [] => mret s
  | x :: l' => s' ← body s x; for_fold l' s' body
  end.

(** What the runner observes of one execution of a check body. *)
Record Run := MkRun { emitted : list Emission; raised : option Exn }.

Definition run (g : Gen unit) : Run :=
  MkRun (yielded g)
        (match flow g with
         | Throw e => Some e
         | _ => None
         end).

Definition status_of (e : Emission) : Status := fst e.
Definition code_of (e : Emission) : option string :=
  match snd e with
  | Message c _ => Some c
  | Text _ => None
  end.

(** *** Strings and numbers *)

(** [str(n)] for an [int] *)
Definition str_int (n : Z) : string := NilZero.string_of_int (Z.to_int n).

Definition join (sep : string) (l : list string) : string := String.concat sep l.

Fixpoint rev_string_acc (s acc : string) : string :=
  match s with
  | EmptyString => acc
  | String c s' => rev_string_acc s' (String c acc)
  end.
Definition rev_string (s : string) : string := rev_string_acc s EmptyString.

(** [s.endswith(suffix)] *)
Definition endswith (s suffix : string) : bool :=
  String.prefix (rev_string suffix) (rev_string s).

(** [needle in s] for strings *)
Definition contains (needle s : string) : bool :=
  match String.index 0 needle s with
  | Some _ => true
  | None => false
  end.

(** [os.path.basename]: what follows the last slash. *)
Fixpoint basename_acc (s cur : string) : string :=
  match s with
  | EmptyString => rev_string cur
  | String c s' =>
      if Ascii.eqb c "/"%char then basename_acc s' EmptyString
      else basename_acc s' (String c cur)
  end.
Definition basename (s : string) : string := basename_acc s EmptyString.

(** [c.isupper()] for a character of a glyph name (these are ASCII). *)
Definition isupper (c : ascii) : bool :=
  let n := N_of_ascii c in (65 <=? n)%N && (n <=? 90)%N.

(** [sorted(l)] for a list of strings: by code point, stable. *)
Fixpoint insert_sorted (x : string) (l : list string) : list string :=
  match l with
  | [] => [x]
  | y :: l' => if String.leb x y then x :: l else y :: insert_sorted x l'
  end.
Definition sorted (l : list string) : list string :=
  fold_right insert_sorted [] l.

Definition mem (x : string) (l : list string) : bool :=
  existsb (String.eqb x) l.

(** Elements of a list, each once, in order of first occurrence. *)
Fixpoint uniq (l : list string) : list string :=
  match l with
  | [] => []
  | x :: l' => x :: List.filter (fun y => negb (String.eqb x y)) (uniq l')
  end.

Definition Qltb (a b : Q) : bool := negb (Qle_bool b a).

(** The hexadecimal digits of a code point, as the formats [X] and [x]
    print them, and the zero padding of [04]. *)
Definition hex_digit (upper : bool) (d : N) : ascii :=
  if (d <? 10)%N then ascii_of_N (48 + d)
  else ascii_of_N ((if upper then 55 else 87) + d).

Fixpoint hex_acc (upper : bool) (fuel : nat) (n : N) (acc : string) : string :=
  match fuel with
  | O => acc
  | S fuel' =>
      let acc' := String (hex_digit upper (n mod 16)) acc in
      if (n / 16 =? 0)%N then acc' else hex_acc upper fuel' (n / 16) acc'
  end.

Definition hex (upper : bool) (n : Z) : string :=
  hex_acc upper (S (N.to_nat (N.log2 (Z.to_N n)))) (Z.to_N n) EmptyString.

Definition zfill (w : nat) (s : string) : string :=
  String.concat EmptyString (repeat "0"%string (w - String.length s)) +:+ s.

(** The truth value of a list *)
Definition nonempty {A} (l : list A) : bool :=
  match l with
  | [] => false
  | _ :: _ => true
  end.

(** [s.split(sep)] for a separator of one character *)
Fixpoint split_acc (sep : ascii) (s cur : string) : list string :=
  match s with
  | EmptyString => [rev_string cur]
  | String c s' =>
      if Ascii.eqb c sep then rev_string cur :: split_acc sep s' EmptyString
      else split_acc sep s' (String c cur)
  end.
Definition split (sep : ascii) (s : string) : list string :=
  split_acc sep s EmptyString.

(** [s.replace(old, new)] for a non-empty [old]; [skip] counts the
    characters of a replaced occurrence that are still to be passed over. *)
Fixpoint replace_from (old new : string) (skip : nat) (s : string) : string :=
  match s with
  | EmptyString => EmptyString
  | String c s' =>
      match skip with
      | S k => replace_from old new k s'
      | O =>
          if String.prefix old s
          then new +:+ replace_from old new (String.length old - 1) s'
          else String c (replace_from old new 0 s')
      end
  end.
Definition replace (old new s : string) : string := replace_from old new 0 s.

(** [enumerate(l)] *)
Definition enumerate {A} (l : list A) : list (nat * A) :=
  combine (seq 0 (List.length l)) l.

End Py.
Export Py.

(** ** Font objects, as the checks see them through fontTools *)

Module TT.

Record OS2Table := {
  version : Z;
  sTypoAscender : Z;
  sTypoDescender : Z;
  sTypoLineGap : Z;
  usWinAscent : Z;
  usWinDescent : Z;
  sxHeight : Z;
  sCapHeight : Z
}.

Record HheaTable := { ascent : Z; descent : Z; lineGap : Z }.

Record HeadTable := { unitsPerEm : Z }.

(** [pen.bounds] of a [BoundsPen] after one glyph was drawn:
    [(xMin, yMin, xMax, yMax)]. *)
Record Bounds := { xMin : Q; yMin : Q; xMax : Q; yMax : Q }.

(** An entry of [ttFont.getGlyphSet()]. *)
Record Glyph := { width : Z; glyph_bounds : Bounds }.

(** An element of a Type 2 charstring program, as the decompiler lists it:
    an integer or real operand, or the name of an operator. *)
Inductive Token :=
| TInt (n : Z)
| TReal (q : Q)
| TOp (name : string).

(** A [T2CharString] of [CharStrings]: [decompiles_to] is the program that
    [decompile()] produces, [recursion_error] whether [decompile()] raises
    [RecursionError], and [program] is the attribute [decompile()] sets. *)
Record CharString := {
  decompiles_to : list Token;
  recursion_error : bool;
  program : option (list Token)
}.

Record PrivateDict := { Subrs : option (list (list Token)) }.

Record FontDict := { fd_Private : option PrivateDict }.

Record TopDict := {
  CharStrings : list (string * (CharString * option Z));
  GlobalSubrs : list (list Token);
  rawDict : option (list (string * string));
  FDArray : option (list FontDict);
  Private : option PrivateDict
}.

(** [ttFont[tag].cff] for the tag [CFF ] or [CFF2]; reading it decodes the
    table, which raises [UnicodeDecodeError] on an [Undecodable] one. *)
Inductive CFFTable :=
| Undecodable
| Decoded (topDictIndex : list TopDict).

Record TTFont := {
  file_name : string;                 (* ttFont.reader.file.name *)
  OS2 : option OS2Table;
  hhea : option HheaTable;
  head : HeadTable;
  bestFullName : string;              (* ttFont["name"].getBestFullName() *)
  CFF : option CFFTable;
  CFF2 : option CFFTable;
  glyphSet : list (string * Glyph);   (* getGlyphSet(), in key order *)
  bestCmap : list (Z * string);       (* getBestCmap().items() *)
  glyphOrder : list string;           (* getGlyphOrder() *)
  bounding_box : Z * Z;               (* fontbakery.utils.get_bounding_box *)
  drawn : list string                 (* glyphs that [.draw(pen)] was called
                                         on: the change in place that the
                                         comment of
                                         check_typoascender_exceeds_Agrave
                                         speaks of *)
}.

(** [ttFont.keys()], restricted to the tables of the model. *)
Definition tag_if {A} (table : option A) (tag : string) : list string :=
  match table with
  | Some _ => [tag]
  | None => []
  end.

Definition keys (f : TTFont) : list string :=
  tag_if (OS2 f) "OS/2" ++ tag_if (hhea f) "hhea" ++
  ["head"%string; "name"%string] ++
  tag_if (CFF f) "CFF " ++ tag_if (CFF2 f) "CFF2".

(** [tag in ttFont] *)
Definition has_table (tag : string) (f : TTFont) : bool := Py.mem tag (keys f).

(** [ttFont["OS/2"]] and [ttFont["hhea"]] *)
Definition get_OS2 (f : TTFont) : Res OS2Table :=
  match OS2 f with
  | Some t => Ok t
  | None => Raised (KeyError "OS/2")
  end.

Definition get_hhea (f : TTFont) : Res HheaTable :=
  match hhea f with
  | Some t => Ok t
  | None => Raised (KeyError "hhea")
  end.

(** [name in glyphset] and [glyphset[name]] *)
Fixpoint lookup_glyph (name : string) (gs : list (string * Glyph)) : option Glyph :=
  match gs with
  | [] => None
  | (n, g) :: gs' => if String.eqb name n then Some g else lookup_glyph name gs'
  end.

Definition in_glyphset (name : string) (gs : list (string * Glyph)) : bool :=
  match lookup_glyph name gs with
  | Some _ => true
  | None => false
  end.

(** *** The store of font objects

    A [TTFont] variable of the source is a reference into the store. *)

Abbreviation loc := positive.
Abbreviation store := (gmap positive TTFont).

Definition fresh_loc (h : store) : loc := fresh (dom h).

(** [copy.deepcopy(ttFont)] *)
Definition deepcopy (l : loc) (h : store) : option (loc * store) :=
  match h !! l with
  | Some f => let l' := fresh_loc h in Some (l', <[l' := f]> h)
  | None => None
  end.

Definition set_drawn (d : list string) (f : TTFont) : TTFont :=
  {| file_name := file_name f; OS2 := OS2 f; hhea := hhea f; head := head f;
     bestFullName := bestFullName f; CFF := CFF f; CFF2 := CFF2 f;
     glyphSet := glyphSet f; bestCmap := bestCmap f;
     glyphOrder := glyphOrder f;
     bounding_box := bounding_box f; drawn := d |}.

Definition set_CFF (c c2 : option CFFTable) (f : TTFont) : TTFont :=
  {| file_name := file_name f; OS2 := OS2 f; hhea := hhea f; head := head f;
     bestFullName := bestFullName f; CFF := c; CFF2 := c2;
     glyphSet := glyphSet f; bestCmap := bestCmap f;
     glyphOrder := glyphOrder f;
     bounding_box := bounding_box f; drawn := drawn f |}.

(** [glyphset[name].draw(pen)] for the glyph set of the font object at [l]:
    the pen receives the bounds, the font object records the drawing. *)
Definition draw (l : loc) (name : string) (h : store) : Res (Bounds * store) :=
  match h !! l with
  | Some f =>
      match lookup_glyph name (glyphSet f) with
      | Some g => Ok (glyph_bounds g, <[l := set_drawn (name :: drawn f) f]> h)
      | None => Raised (KeyError name)
      end
  | None => Raised TypeError
  end.

(** What a font file holds: one font, or the members of a collection. *)
Inductive FileContent :=
| SingleFont (f : TTFont)
| Collection (members : list TTFont).

(** [fontbakery.testable.Font] and its subclass [TTCFont]: the file, the
    index in the collection for a [TTCFont], and the shared [font.ttFont]. *)
Record Font := {
  file : string;
  index : option nat;
  ttFont : loc
}.

End TT.
Export TT.

(** ** Outlines, as the checks see them through the beziers library *)

Module Bz.

Definition Point : Type := Q * Q.

(** An element of [path.asNodelist()]. *)
Record Node := { node_type : string; node_x : Q; node_y : Q }.

(** An element of [path.asSegments()]: [points] is [len(seg)], two for a
    line; [seg_repr] is the text that formatting the segment gives. *)
Record Segment := {
  points : nat;
  seg_length : Q;
  seg_repr : string;
  seg_start : Point;
  seg_end : Point;
  tangent0 : Point;                   (* seg.tangentAtTime(0) *)
  tangent1 : Point                    (* seg.tangentAtTime(1) *)
}.

(** [path.bounds()] when its corner [bl] is not [None]. *)
Record Box := { left : Q; right : Q; top : Q; bottom : Q }.

Record BezierPath := {
  nodes : list Node;                  (* asNodelist() *)
  path_length : Q;                    (* length *)
  segments : list Segment;            (* asSegments() *)
  path_bounds : option Box;           (* bounds(), [None] when [bl] is *)
  direction : Z
}.

(** The value of the condition [outlines_dict]:
    [(glyphname, display_name)] to the paths of the glyph. *)
Definition OutlinesDict : Type := list ((string * string) * list BezierPath).

End Bz.
Export Bz.

(** ** Dictionaries, sets and the store monad *)

Module Rt.

(** *** Insertion-ordered dictionaries *)
Section Dict.
Context {K V : Type} (eqb : K -> K -> bool).

(** [d[k]], [d.get(k)] *)
Fixpoint dict_get (k : K) (d : list (K * V)) : option V :=
  match d with
  | [] => None
  | (k', v) :: d' => if eqb k k' then Some v else dict_get k d'
  end.

(** [d[k] = v]: a present key keeps its place. *)
Fixpoint dict_set (k : K) (v : V) (d : list (K * V)) : list (K * V) :=
  match d with
  | [] => [(k, v)]
  | (k', v') :: d' =>
      if eqb k k' then (k', v) :: d' else (k', v') :: dict_set k v d'
  end.

(** [del d[k]]; [None] stands for the [KeyError] of an absent key. *)
Fixpoint dict_del (k : K) (d : list (K * V)) : option (list (K * V)) :=
  match d with
  | [] => None
  | (k', v') :: d' =>
      if eqb k k' then Some d'
      else match dict_del k d' with
           | Some r => Some ((k', v') :: r)
           | None => None
           end
  end.
End Dict.

Definition newline : string := String (ascii_of_nat 10) EmptyString.
Definition tab : string := String (ascii_of_nat 9) EmptyString.
Definition dquote : string := String (ascii_of_nat 34) EmptyString.

(** The check configuration, opaque to the check bodies. *)
Definition Config : Type := list (string * string).

(** Code that the checks call and that is not part of the checked files. *)
Record Env := {
  (** the order in which the interpreter iterates over a [set] of [str];
      it depends on the hash seed of the process *)
  set_iter : list string -> list string;
  (** the order in which it iterates over a [set] of [int] *)
  int_set_iter : list Z -> list Z;
  (** [fontbakery.utils.bullet_list(config, items, bullet=...)] *)
  bullet_list : Config -> list string -> string -> string;
  (** [fontbakery.utils.pretty_print_list(config, items)] *)
  pretty_print_list : Config -> list string -> string;
  (** [fontbakery.checks.googlefonts.conditions.canonical_stylename] *)
  canonical_stylename : string -> string;
  (** [str(x)] for a number that may be a [float] *)
  str_num : Q -> string;
  (** [math.acos] and [math.degrees] *)
  math_acos : Q -> Q;
  math_degrees : Q -> Q;
  (** [Point.magnitude] and [Point.angle] of the beziers library *)
  magnitude : Point -> Q;
  angle : Point -> Q;
  (** [BezierPath.fromFonttoolsGlyph(ttFont, glyphname)] *)
  fromFonttoolsGlyph : TTFont -> string -> list BezierPath;
  (** the font object after the call [BezierPath.fromFonttoolsGlyph(ttFont,
      glyphname)], and after the call [get_bounding_box(ttFont)]: the two
      functions are handed the font object itself, and what they do with it
      is not written in the checked files *)
  fromFonttoolsGlyph_leaves : TTFont -> string -> TTFont;
  get_bounding_box_leaves : TTFont -> TTFont;
  (** the font files on disk, by path *)
  read_file : string -> option FileContent
}.

(** An interpreter iterates over exactly the elements of a set. *)
Definition env_ok (env : Env) : Prop :=
  (forall l, Permutation (set_iter env l) l) /\
  (forall l, Permutation (int_set_iter env l) l).


(** [a - b] for sets of [str], as lists without repetition. *)
Definition set_diff (a b : list string) : list string :=
  List.filter (fun x => negb (Py.mem x b)) a.

(** *** Generators over the store *)

Definition SGen (A : Type) : Type := store -> store * Gen A.

#[export] Instance SGen_ret : MRet SGen := fun A a h => (h, mret a).
#[export] Instance SGen_bind : MBind SGen := fun A B f m h =>
  let (h1, g) := m h in
  match flow g with
  | Next a =>
      let (h2, r) := f a h1 in
      (h2, MkGen (yielded g ++ yielded r) (flow r))
  | Return => (h1, MkGen (yielded g) Return)
  | Throw e => (h1, MkGen (yielded g) (Throw e))
  end.

(** A store-free generator step. *)
Definition gen {A} (g : Gen A) : SGen A := fun h => (h, g).

(** Reading the font object behind a reference. *)
Definition deref (l : loc) : SGen TTFont := fun h =>
  match h !! l with
  | Some f => (h, mret f)
  | None => (h, raise TypeError)
  end.

Definition sdeepcopy (l : loc) : SGen loc := fun h =>
  match deepcopy l h with
  | Some (l', h') => (h', mret l')
  | None => (h, raise TypeError)
  end.

Definition sdraw (l : loc) (name : string) : SGen Bounds := fun h =>
  match draw l name h with
  | Ok (b, h') => (h', mret b)
  | Raised e => (h, raise e)
  end.

(** [try: body except KeyError: handler] *)
Definition try_except_KeyError {A} (body handler : SGen A) : SGen A := fun h =>
  let (h1, g) := body h in
  match flow g with
  | Throw (KeyError _) =>
      let (h2, r) := handler h1 in
      (h2, MkGen (yielded g ++ yielded r) (flow r))
  | _ => (h1, g)
  end.

End Rt.
Export Rt.

(** ** checks/metrics.py *)

Module Metrics.

(** The dictionary with the keys [ymin] and [ymax]. *)
Record VMetrics := { ymin : Z; ymax : Z }.

(** The value of the condition [vmetrics(collection)], over the font
    objects of [collection.ttFonts]. *)
Definition vmetrics (ttFonts : list TTFont) : VMetrics :=
  fold_left
    (fun v_metrics ttFont =>
       let '(font_ymin, font_ymax) := bounding_box ttFont in
       {| ymin := Z.min font_ymin (ymin v_metrics);
          ymax := Z.max font_ymax (ymax v_metrics) |})
    ttFonts
    {| ymin := 0; ymax := 0 |}.

(** The condition [vmetrics(collection)] on the store: [collection.ttFonts]
    are references to the shared font objects, and [get_bounding_box] is
    handed each object in turn. *)
Definition vmetrics_on (env : Env) (ttFonts : list loc) (h : store)
    : store * Res VMetrics :=
  fold_left
    (fun '(h, v_metrics) ttFont =>
       match v_metrics with
       | Raised e => (h, Raised e)
       | Ok v_metrics =>
           match h !! ttFont with
           | None => (h, Raised TypeError)
           | Some f =>
               let '(font_ymin, font_ymax) := bounding_box f in
               (<[ttFont := get_bounding_box_leaves env f]> h,
                Ok {| ymin := Z.min font_ymin (ymin v_metrics);
                      ymax := Z.max font_ymax (ymax v_metrics) |})
           end
       end)
    ttFonts
    (h, Ok {| ymin := 0; ymax := 0 |}).

Definition check_family_win_ascent_and_descent
    (ttFont : TTFont) (vmetrics : VMetrics) : Gen unit :=
  (if negb (has_table "OS/2" ttFont) then
     yield FAIL (Message "lacks-OS/2" "Font file lacks OS/2 table");;
     return_
   else pass);;
  let failed := false in
  os2_table ← lift (get_OS2 ttFont);
  let win_ascent := usWinAscent os2_table in
  let win_descent := usWinDescent os2_table in
  let y_max := ymax vmetrics in
  let y_min := ymin vmetrics in
  failed ← (if win_ascent <? y_max then
              yield FAIL (Message "ascent"
                ("OS/2.usWinAscent value should be equal or greater than "
                 +:+ str_int y_max +:+ ", but got " +:+ str_int win_ascent
                 +:+ " instead"));;
              mret true
            else mret failed);
  failed ← (if win_ascent >? y_max * 2 then
              yield FAIL (Message "ascent"
                ("OS/2.usWinAscent value " +:+ str_int win_ascent
                 +:+ " is too large."
                 +:+ " It should be less than double the yMax."
                 +:+ " Current yMax value is " +:+ str_int y_max));;
              mret true
            else mret failed);
  failed ← (if win_descent <? Z.abs y_min then
              yield FAIL (Message "descent"
                ("OS/2.usWinDescent value should be equal or greater than "
                 +:+ str_int (Z.abs y_min) +:+ ", but got "
                 +:+ str_int win_descent +:+ " instead"));;
              mret true
            else mret failed);
  failed ← (if win_descent >? Z.abs y_min * 2 then
              yield FAIL (Message "descent"
                ("OS/2.usWinDescent value " +:+ str_int win_descent
                 +:+ " is too large."
                 +:+ " It should be less than double the yMin."
                 +:+ " Current absolute yMin value is "
                 +:+ str_int (Z.abs y_min)));;
              mret true
            else mret failed);
  if negb failed then
    yield PASS (Text "OS/2 usWinAscent & usWinDescent values look good!")
  else pass.

Definition check_os2_metrics_match_hhea (ttFont : TTFont) : Gen unit :=
  let filename := basename (file_name ttFont) in
  let missing_tables := false in
  let required := ["OS/2"; "hhea"]%string in
  missing_tables ←
    for_fold required missing_tables (fun missing_tables key =>
      if negb (has_table key ttFont) then
        yield FAIL (Message ("lacks-" +:+ key)
                      (filename +:+ " lacks a '" +:+ key +:+ "' table."));;
        mret true
      else mret missing_tables);
  (if missing_tables : bool then return_ else pass);;
  os2 ← lift (get_OS2 ttFont);
  hh ← lift (get_hhea ttFont);
  if negb (sTypoAscender os2 =? ascent hh) then
    yield FAIL (Message "ascender"
      ("OS/2 sTypoAscender (" +:+ str_int (sTypoAscender os2)
       +:+ ") and hhea ascent (" +:+ str_int (ascent hh)
       +:+ ") must be equal."))
  else if negb (sTypoDescender os2 =? descent hh) then
    yield FAIL (Message "descender"
      ("OS/2 sTypoDescender (" +:+ str_int (sTypoDescender os2)
       +:+ ") and hhea descent (" +:+ str_int (descent hh)
       +:+ ") must be equal."))
  else if negb (sTypoLineGap os2 =? lineGap hh) then
    yield FAIL (Message "lineGap"
      ("OS/2 sTypoLineGap (" +:+ str_int (sTypoLineGap os2)
       +:+ ") and hhea lineGap (" +:+ str_int (lineGap hh)
       +:+ ") must be equal."))
  else
    yield PASS
      (Text "OS/2.sTypoAscender/Descender values match hhea.ascent/descent.").

(** The dictionary of dictionaries of check_family_vertical_metrics: metric
    name to (full font name to value). *)
Definition VTable : Type := list (string * list (string * Z)).

Definition vmetrics_init : VTable :=
  [("sTypoAscender", []); ("sTypoDescender", []); ("sTypoLineGap", []);
   ("usWinAscent", []); ("usWinDescent", []);
   ("ascent", []); ("descent", []); ("lineGap", [])]%string.

(** [vmetrics[k]] for one of the eight keys *)
Definition metric_row (k : string) (vmetrics : VTable) : list (string * Z) :=
  match dict_get String.eqb k vmetrics with
  | Some row => row
  | None => []
  end.

(** [vmetrics[k][name] = value] *)
Definition set_metric (k name : string) (value : Z) (vmetrics : VTable) : VTable :=
  dict_set String.eqb k
    (dict_set String.eqb name value (metric_row k vmetrics)) vmetrics.

(** [len(set(row.values()))] *)
Definition distinct_values (row : list (string * Z)) : nat :=
  List.length (nodup Z.eq_dec (map snd row)).

(** The body of the loop over the fonts in check_family_vertical_metrics;
    its state is [(missing_tables, vmetrics)]. *)
Definition collect_vertical_metrics (state : bool * VTable) (ttFont : TTFont)
    : Gen (bool * VTable) :=
  let '(missing_tables, vmetrics) := state in
  let filename := basename (file_name ttFont) in
  if negb (has_table "OS/2" ttFont) then
    yield FAIL (Message "lacks-OS/2"
                  (filename +:+ " lacks an 'OS/2' table."));;
    mret (true, vmetrics)
  else if negb (has_table "hhea" ttFont) then
    yield FAIL (Message "lacks-hhea"
                  (filename +:+ " lacks a 'hhea' table."));;
    mret (true, vmetrics)
  else
    let full_font_name := bestFullName ttFont in
    os2 ← lift (get_OS2 ttFont);
    let vmetrics := set_metric "sTypoAscender" full_font_name (sTypoAscender os2) vmetrics in
    let vmetrics := set_metric "sTypoDescender" full_font_name (sTypoDescender os2) vmetrics in
    let vmetrics := set_metric "sTypoLineGap" full_font_name (sTypoLineGap os2) vmetrics in
    let vmetrics := set_metric "usWinAscent" full_font_name (usWinAscent os2) vmetrics in
    let vmetrics := set_metric "usWinDescent" full_font_name (usWinDescent os2) vmetrics in
    hh ← lift (get_hhea ttFont);
    let vmetrics := set_metric "ascent" full_font_name (ascent hh) vmetrics in
    let vmetrics := set_metric "descent" full_font_name (descent hh) vmetrics in
    let vmetrics := set_metric "lineGap" full_font_name (lineGap hh) vmetrics in
    mret (missing_tables, vmetrics).

(** What follows the loop. *)
Definition report_vertical_metrics (state : bool * VTable) : Gen unit :=
  let '(missing_tables, vmetrics) := state in
  if negb missing_tables then
    let failed :=
      map fst
        (List.filter
           (fun '(k, _) =>
              negb (Nat.eqb (distinct_values (metric_row k vmetrics)) 1))
           vmetrics) in
    match failed with
    | _ :: _ =>
        for_ failed (fun k =>
          let s := map (fun '(k, v) => k +:+ ": " +:+ str_int v)
                       (metric_row k vmetrics) in
          let s := join newline s in
          yield FAIL (Message (k +:+ "-mismatch")
                        (k +:+ " is not the same across the family:"
                         +:+ newline +:+ s)))
    | [] => yield PASS (Text "Vertical metrics are the same across the family.")
    end
  else pass.

Definition check_family_vertical_metrics (ttFonts : list TTFont) : Gen unit :=
  let missing_tables := false in
  state ← for_fold ttFonts (missing_tables, vmetrics_init)
            collect_vertical_metrics;
  report_vertical_metrics state.

Definition check_linegaps (env : Env) (ttFont : TTFont) : Gen unit :=
  let required_tables := ["hhea"; "OS/2"]%string in
  let missing_tables :=
    sorted (set_iter env (set_diff required_tables (keys ttFont))) in
  match missing_tables with
  | _ :: _ =>
      for_ missing_tables (fun table_tag =>
        yield FAIL (Message "lacks-table"
                      ("Font lacks '" +:+ table_tag +:+ "' table.")));;
      return_
  | [] => pass
  end;;
  hh ← lift (get_hhea ttFont);
  if negb (lineGap hh =? 0) then
    yield WARN (Message "hhea" "hhea lineGap is not equal to 0.")
  else
    os2 ← lift (get_OS2 ttFont);
    if negb (sTypoLineGap os2 =? 0) then
      yield WARN (Message "OS/2" "OS/2 sTypoLineGap is not equal to 0.")
    else
      yield PASS (Text "OS/2 sTypoLineGap and hhea lineGap are both 0.").

(** [a / b] for a number [a] and a length [b] *)
Definition py_div (a : Q) (b : nat) : Res Q :=
  match b with
  | O => Raised ZeroDivisionError
  | S _ => Ok (a / inject_Z (Z.of_nat b))%Q
  end.

Definition sum (l : list Q) : Q := fold_left Qplus l 0%Q.

(** The comparison that ends check_typoascender_exceeds_Agrave, on the
    copy of the font and the bounds that the pen holds. *)
Definition typoascender_verdict (env : Env) (font_copy : TTFont)
    (bounds : Bounds) : Gen unit :=
  let yMax := yMax bounds in
  os2 ← lift (get_OS2 font_copy);
  let typoAscender := sTypoAscender os2 in
  if Qltb (inject_Z typoAscender) yMax then
    yield WARN (Message "typoAscender"
      ("OS/2.sTypoAscender value should be greater than "
       +:+ str_num env yMax +:+ ", but got "
       +:+ str_int typoAscender +:+ " instead"))
  else
    yield PASS
      (Text "OS/2.sTypoAscender value is greater than the yMax of /Agrave.").

Definition check_typoascender_exceeds_Agrave (env : Env) (ttFont : loc) : SGen unit :=
  ttFont_copy ← sdeepcopy ttFont;
  font_copy ← deref ttFont_copy;
  gen (if negb (has_table "OS/2" font_copy) then
         yield FAIL (Message "lacks-OS/2" "Font file lacks OS/2 table");;
         return_
       else pass);;
  let glyphset := glyphSet font_copy in
  gen (if negb (in_glyphset "Agrave" glyphset)
          && negb (in_glyphset "uni00C0" glyphset) then
         yield SKIP (Message "lacks-Agrave"
           "Font file lacks the /Agrave, so it can’t be compared with typoAscender");;
         return_
       else pass);;
  bounds ← try_except_KeyError
              (sdraw ttFont_copy "Agrave")
              (sdraw ttFont_copy "uni00C0");
  font_copy ← deref ttFont_copy;
  gen (typoascender_verdict env font_copy bounds).

Definition SOME_UPPERCASE_GLYPHS : list string :=
  ["A"; "B"; "C"; "D"; "E"; "H"; "I"; "M"; "O"; "S"; "T"; "X"]%string.

(** The first loop of check_caps_vertically_centered. *)
Definition require_sample_glyphs (glyphSet : list (string * Glyph)) : Gen unit :=
  for_ SOME_UPPERCASE_GLYPHS (fun glyphname =>
    if negb (in_glyphset glyphname glyphSet) then
      yield SKIP (Message "lacks-ascii"
        ("The implementation of this check relies on a few samples"
         +:+ " of uppercase latin characters that are not available in this font."));;
      return_
    else pass).

(** One turn of its second loop, on the state
    [(highest_point_list, lowest_point_list)]. *)
Definition draw_sample_glyph (ttFont_copy : loc) (lists : list Q * list Q)
    (glyphName : string) : SGen (list Q * list Q) :=
  let '(highest_point_list, lowest_point_list) := lists in
  bounds ← sdraw ttFont_copy glyphName;
  let lowest_point := yMin bounds in
  let highest_point := yMax bounds in
  mret (highest_point_list ++ [highest_point],
        lowest_point_list ++ [lowest_point]).

(** What follows the loops: [font_copy] is the object behind [ttFont_copy],
    [font] the one behind [ttFont]. *)
Definition caps_verdict (font_copy font : TTFont)
    (highest_point_list lowest_point_list : list Q) : Gen unit :=
  let upm := unitsPerEm (head font_copy) in
  let line_spacing_factor := (120 # 100)%Q in
  let error_margin := ((line_spacing_factor * inject_Z upm) * (18 # 100))%Q in
  average_cap_height ←
    lift (py_div (sum highest_point_list) (List.length highest_point_list));
  average_descender ←
    lift (py_div (sum lowest_point_list) (List.length lowest_point_list));
  hh ← lift (get_hhea font);
  let top_margin := (inject_Z (ascent hh) - average_cap_height)%Q in
  hh ← lift (get_hhea font);
  let bottom_margin := (inject_Z (Z.abs (descent hh)) + average_descender)%Q in
  let difference := Qabs (top_margin - bottom_margin) in
  if Qltb error_margin difference then
    yield WARN (Message "vertical-metrics-not-centered"
      "Uppercase glyphs are not vertically centered in the em box.")
  else
    yield PASS (Text "Uppercase glyphs are vertically centered in the em box.").

Definition check_caps_vertically_centered (ttFont : loc) : SGen unit :=
  ttFont_copy ← sdeepcopy ttFont;
  font_copy ← deref ttFont_copy;
  let glyphSet := glyphSet font_copy in
  gen (require_sample_glyphs glyphSet);;
  '(highest_point_list, lowest_point_list) ←
    for_fold SOME_UPPERCASE_GLYPHS ([], []) (draw_sample_glyph ttFont_copy);
  font_copy ← deref ttFont_copy;
  font ← deref ttFont;
  gen (caps_verdict font_copy font highest_point_list lowest_point_list).

End Metrics.

(** ** checks/opentype/cff.py *)

Module Cff.

Record CFFAnalysis := {
  glyphs_dotsection : list string;
  glyphs_endchar_seac : list string;
  glyphs_exceed_max : list string;
  glyphs_recursion_errors : list string;
  string_not_ascii : option (list (string * string))  (* [None] is Python's *)
}.

Definition CFFAnalysis_init : CFFAnalysis :=
  {| glyphs_dotsection := []; glyphs_endchar_seac := [];
     glyphs_exceed_max := []; glyphs_recursion_errors := [];
     string_not_ascii := Some [] |}.

Definition _get_subr_bias (count : Z) : Z :=
  if count <? 1240 then 107
  else if count <? 33900 then 1131
  else 32768.

(** The dictionary [info] of _traverse_subr_call_tree.  The keys
    [saw_endchar_seac] and [saw_dotsection] are absent until set, which
    [info.get] reads as false. *)
Record Info := {
  subrs : option (list (list Token));
  global_subrs : list (list Token);
  gsubr_bias : Z;
  subr_bias : option Z;
  max_depth : Z;
  saw_endchar_seac : bool;
  saw_dotsection : bool
}.

Definition enter (depth : Z) (i : Info) : Info :=
  {| subrs := subrs i; global_subrs := global_subrs i;
     gsubr_bias := gsubr_bias i; subr_bias := subr_bias i;
     max_depth := if depth >? max_depth i then depth else max_depth i;
     saw_endchar_seac := saw_endchar_seac i;
     saw_dotsection := saw_dotsection i |}.

Definition note_seac (b : bool) (i : Info) : Info :=
  {| subrs := subrs i; global_subrs := global_subrs i;
     gsubr_bias := gsubr_bias i; subr_bias := subr_bias i;
     max_depth := max_depth i;
     saw_endchar_seac := if b then true else saw_endchar_seac i;
     saw_dotsection := saw_dotsection i |}.

Definition note_dotsection (b : bool) (i : Info) : Info :=
  {| subrs := subrs i; global_subrs := global_subrs i;
     gsubr_bias := gsubr_bias i; subr_bias := subr_bias i;
     max_depth := max_depth i;
     saw_endchar_seac := saw_endchar_seac i;
     saw_dotsection := if b then true else saw_dotsection i |}.

(** [x == name] for a program element [x] and an operator name *)
Definition is_op (name : string) (x : Token) : bool :=
  match x with
  | TOp n => String.eqb n name
  | _ => false
  end.

(** [isinstance(a, int)] *)
Definition is_int (x : Token) : bool :=
  match x with
  | TInt _ => true
  | _ => false
  end.

(** [int(x)]: an integer as it is, a real truncated, an operator name is no
    number. *)
Definition py_int (x : Token) : Res Z :=
  match x with
  | TInt n => Ok n
  | TReal q => Ok (Z.quot (Qnum q) (Z.pos (Qden q)))
  | TOp _ => Raised ValueError
  end.

(** [l[i]] for a list and an [int], negative indices counting from the end *)
Definition py_index {A} (l : list A) (i : Z) : Res A :=
  let n := Z.of_nat (List.length l) in
  let j := if i <? 0 then i + n else i in
  if (j <? 0) || (n <=? j) then Raised IndexError
  else match nth_error l (Z.to_nat j) with
       | Some x => Ok x
       | None => Raised IndexError
       end.

(** [len(program) >= 5 and program[-1] == "endchar" and all(isinstance(a, int)
    for a in program[-5:-1])], on the program read from its end. *)
Definition ends_in_seac (stack : list Token) : bool :=
  match stack with
  | x :: a :: b :: c :: d :: _ =>
      is_op "endchar" x && (is_int d && is_int c && is_int b && is_int a)
  | _ => false
  end.

(** [subrs[int(operand) + bias].program.copy()] *)
Definition called_program (table : option (list (list Token)))
    (bias : option Z) (operand : Token) : Res (list Token) :=
  n ← py_int operand;
  match bias with
  | None => Raised TypeError
  | Some b =>
      let y := n + b in
      match table with
      | None => Raised TypeError
      | Some t => py_index t y
      end
  end.

(** The loop [while program] of _traverse_subr_call_tree.  It pops from the
    end of the list, so [stack] is the program reversed; [descend] is the
    recursive call at [depth + 1], and [None] means that it ran out of
    fuel. *)
Fixpoint while_program (descend : Info -> list Token -> option (Res Info))
    (stack : list Token) (info : Info) {struct stack} : option (Res Info) :=
  match stack with
  | [] => Some (Ok info)
  | x :: stack1 =>
      if is_op "callgsubr" x then
        match stack1 with
        | [] => Some (Raised IndexError)
        | operand :: stack2 =>
            match called_program (Some (global_subrs info))
                    (Some (gsubr_bias info)) operand with
            | Raised e => Some (Raised e)
            | Ok sub_program =>
                match descend info sub_program with
                | Some (Ok info') => while_program descend stack2 info'
                | stop => stop
                end
            end
        end
      else if is_op "callsubr" x then
        match stack1 with
        | [] => Some (Raised IndexError)
        | operand :: stack2 =>
            match called_program (subrs info) (subr_bias info) operand with
            | Raised e => Some (Raised e)
            | Ok sub_program =>
                match descend info sub_program with
                | Some (Ok info') => while_program descend stack2 info'
                | stop => stop
                end
            end
        end
      else while_program descend stack1 info
  end.

(** The recursion of the source is on [depth]; [fuel] bounds its nesting
    and [None] means that the bound was hit. *)
Fixpoint _traverse_subr_call_tree (fuel : nat) (info : Info)
    (program : list Token) (depth : Z) : option (Res Info) :=
  match fuel with
  | O => None
  | S fuel' =>
      let info := enter depth info in
      if depth >? 10 then Some (Ok info)
      else
        let info := note_seac (ends_in_seac (rev program)) info in
        let info := note_dotsection (existsb (is_op "ignore") program) info in
        while_program
          (fun info sub_program =>
             _traverse_subr_call_tree fuel' info sub_program (depth + 1))
          (rev program) info
  end.

(** The nesting never exceeds twelve calls (depths 0 to 11). *)
Definition traverse_fuel : nat := 12.

(** [t2_char_string.decompile()] *)
Definition decompile (cs : CharString) : Res CharString :=
  if recursion_error cs then Raised RecursionError
  else Ok {| decompiles_to := decompiles_to cs;
             recursion_error := recursion_error cs;
             program := Some (decompiles_to cs) |}.

Definition is_non_ascii (c : ascii) : bool := (127 <? N_of_ascii c)%N.

Definition has_non_ascii (s : string) : bool :=
  existsb is_non_ascii (list_ascii_of_string s).

Definition append_not_ascii (item : string * string) (a : CFFAnalysis)
    : Res CFFAnalysis :=
  match string_not_ascii a with
  | Some l =>
      Ok {| glyphs_dotsection := glyphs_dotsection a;
            glyphs_endchar_seac := glyphs_endchar_seac a;
            glyphs_exceed_max := glyphs_exceed_max a;
            glyphs_recursion_errors := glyphs_recursion_errors a;
            string_not_ascii := Some (l ++ [item]) |}
  | None => Raised AttributeError
  end.

Definition append_recursion_error (gn : string) (a : CFFAnalysis) : CFFAnalysis :=
  {| glyphs_dotsection := glyphs_dotsection a;
     glyphs_endchar_seac := glyphs_endchar_seac a;
     glyphs_exceed_max := glyphs_exceed_max a;
     glyphs_recursion_errors := glyphs_recursion_errors a ++ [gn];
     string_not_ascii := string_not_ascii a |}.

(** The three appends that end the loop body of _analyze_cff. *)
Definition append_findings (gn : string) (info : Info) (a : CFFAnalysis)
    : CFFAnalysis :=
  {| glyphs_dotsection :=
       glyphs_dotsection a ++ (if saw_dotsection info then [gn] else []);
     glyphs_endchar_seac :=
       glyphs_endchar_seac a ++ (if saw_endchar_seac info then [gn] else []);
     glyphs_exceed_max :=
       glyphs_exceed_max a ++ (if max_depth info >? 10 then [gn] else []);
     glyphs_recursion_errors := glyphs_recursion_errors a;
     string_not_ascii := string_not_ascii a |}.

Definition info_init (subrs : option (list (list Token)))
    (global_subrs : list (list Token)) (gsubr_bias : Z) (subr_bias : option Z)
    : Info :=
  {| subrs := subrs; global_subrs := global_subrs;
     gsubr_bias := gsubr_bias; subr_bias := subr_bias;
     max_depth := 0; saw_endchar_seac := false; saw_dotsection := false |}.

(** One turn of the loop over the glyphs in _analyze_cff.  It returns the
    analysis, the charstring as [decompile()] left it, and the [info] of the
    traversal when one took place. *)
Definition analyze_glyph (subrs : option (list (list Token)))
    (global_subrs : list (list Token)) (gsubr_bias : Z) (subr_bias : option Z)
    (fd_index : Z) (analysis : CFFAnalysis)
    (glyph_name : string) (item : CharString * option Z)
    : Res (CFFAnalysis * CharString * option Info) :=
  let '(t2_char_string, fd_select_index) := item in
  let skip := match fd_select_index with
              | Some i => negb (i =? fd_index)
              | None => false
              end in
  if skip then Ok (analysis, t2_char_string, None)
  else
    match decompile t2_char_string with
    | Raised RecursionError =>
        Ok (append_recursion_error glyph_name analysis, t2_char_string, None)
    | Raised e => Raised e
    | Ok t2_char_string =>
        let info := info_init subrs global_subrs gsubr_bias subr_bias in
        let depth := 0 in
        match program t2_char_string with
        | None => Raised AttributeError
        | Some program =>
            match _traverse_subr_call_tree traverse_fuel info program depth with
            | None => Raised RecursionError
            | Some (Raised e) => Raised e
            | Some (Ok info) =>
                Ok (append_findings glyph_name info analysis,
                    t2_char_string, Some info)
            end
        end
    end.

Definition raw_dict_keys : list string :=
  ["Notice"; "Copyright"; "FontName"; "FullName"; "FamilyName"]%string.

(** [_analyze_cff(analysis, top_dict, private_dict, fd_index)]; the top
    dictionary is returned with its charstrings as [decompile()] left
    them. *)
Definition _analyze_cff (analysis : CFFAnalysis) (top_dict : TopDict)
    (private_dict : option PrivateDict) (fd_index : Z)
    : Res (CFFAnalysis * TopDict) :=
  let char_strings := CharStrings top_dict in
  let global_subrs := GlobalSubrs top_dict in
  let gsubr_bias := _get_subr_bias (Z.of_nat (List.length global_subrs)) in
  analysis ←
    match rawDict top_dict with
    | Some raw_dict =>
        for_fold raw_dict_keys analysis (fun analysis key =>
          match dict_get String.eqb key raw_dict with
          | Some value =>
              if has_non_ascii value
              then append_not_ascii (key, value) analysis
              else Ok analysis
          | None => Ok analysis
          end)
    | None => Ok analysis
    end;
  let '(subrs, subr_bias) :=
    match private_dict with
    | Some pd =>
        match Subrs pd with
        | Some subrs =>
            (Some subrs, Some (_get_subr_bias (Z.of_nat (List.length subrs))))
        | None => (None, None)
        end
    | None => (None, None)
    end in
  '(analysis, char_strings') ←
    for_fold char_strings (analysis, [])
      (fun '(analysis, done) '(glyph_name, item) =>
         '(analysis, cs, _) ←
           analyze_glyph subrs global_subrs gsubr_bias subr_bias fd_index
             analysis glyph_name item;
         Ok (analysis, done ++ [(glyph_name, (cs, snd item))]));
  Ok (analysis,
      {| CharStrings := char_strings'; GlobalSubrs := GlobalSubrs top_dict;
         rawDict := rawDict top_dict; FDArray := FDArray top_dict;
         Private := Private top_dict |}).

(** [TTFont(file)] and [TTFont(file, fontNumber=i)]: a new font object read
    from disk. *)
Definition TTFont_open (env : Env) (file : string) (fontNumber : option nat)
    (h : store) : Res (loc * store) :=
  match read_file env file with
  | None => Raised TTLibError
  | Some (SingleFont f) => let l := fresh_loc h in Ok (l, <[l := f]> h)
  | Some (Collection members) =>
      match fontNumber with
      | None => Raised TTLibError
      | Some i =>
          match nth_error members i with
          | Some f => let l := fresh_loc h in Ok (l, <[l := f]> h)
          | None => Raised TTLibError
          end
      end
  end.

(** [for fd_index, font_dict in enumerate(top_dict.FDArray): ...] *)
Fixpoint analyze_font_dicts (analysis : CFFAnalysis) (top_dict : TopDict)
    (fd_array : list FontDict) (fd_index : Z) : Res (CFFAnalysis * TopDict) :=
  match fd_array with
  | [] => Ok (analysis, top_dict)
  | font_dict :: rest =>
      let private_dict := fd_Private font_dict in
      '(analysis, top_dict) ← _analyze_cff analysis top_dict private_dict fd_index;
      analyze_font_dicts analysis top_dict rest (fd_index + 1)
  end.

(** The body of the loop over [cff.topDictIndex], for the table [CFF ]. *)
Definition analyze_top_dict_cff (analysis : CFFAnalysis) (top_dict : TopDict)
    : Res (CFFAnalysis * TopDict) :=
  match FDArray top_dict with
  | Some fd_array => analyze_font_dicts analysis top_dict fd_array 0
  | None =>
      let private_dict := Private top_dict in
      _analyze_cff analysis top_dict private_dict 0
  end.

(** The body of the loop over [cff.topDictIndex], for the table [CFF2]. *)
Definition analyze_top_dict_cff2 (analysis : CFFAnalysis) (top_dict : TopDict)
    : Res (CFFAnalysis * TopDict) :=
  match FDArray top_dict with
  | Some fd_array => analyze_font_dicts analysis top_dict fd_array 0
  | None => Raised AttributeError
  end.

Definition analyze_top_dicts
    (body : CFFAnalysis -> TopDict -> Res (CFFAnalysis * TopDict))
    (analysis : CFFAnalysis) (top_dicts : list TopDict)
    : Res (CFFAnalysis * list TopDict) :=
  for_fold top_dicts (analysis, []) (fun '(analysis, done) top_dict =>
    '(analysis, top_dict) ← body analysis top_dict;
    Ok (analysis, done ++ [top_dict])).

Definition set_string_not_ascii_None (a : CFFAnalysis) : CFFAnalysis :=
  {| glyphs_dotsection := glyphs_dotsection a;
     glyphs_endchar_seac := glyphs_endchar_seac a;
     glyphs_exceed_max := glyphs_exceed_max a;
     glyphs_recursion_errors := glyphs_recursion_errors a;
     string_not_ascii := None |}.

(** The condition [cff_analysis(font)].  The font object it opens is its
    own; the charstrings it decompiles are written to that object.  When the
    analysis raises, no reference to that object is left and the store keeps
    it as it was opened. *)
Definition cff_analysis (env : Env) (font : Font) (h : store)
    : store * Res CFFAnalysis :=
  let analysis := CFFAnalysis_init in
  match TTFont_open env (file font) (index font) h with
  | Raised e => (h, Raised e)
  | Ok (ttFont, h) =>
      match h !! ttFont with
      | None => (h, Raised TypeError)
      | Some f =>
          match CFF f with
          | Some Undecodable => (h, Ok (set_string_not_ascii_None analysis))
          | Some (Decoded topDictIndex) =>
              match analyze_top_dicts analyze_top_dict_cff analysis topDictIndex with
              | Raised e => (h, Raised e)
              | Ok (analysis, topDictIndex) =>
                  (<[ttFont := set_CFF (Some (Decoded topDictIndex)) (CFF2 f) f]> h,
                   Ok analysis)
              end
          | None =>
              match CFF2 f with
              | Some Undecodable => (h, Raised UnicodeDecodeError)
              | Some (Decoded topDictIndex) =>
                  match analyze_top_dicts analyze_top_dict_cff2 analysis topDictIndex with
                  | Raised e => (h, Raised e)
                  | Ok (analysis, topDictIndex) =>
                      (<[ttFont := set_CFF (CFF f) (Some (Decoded topDictIndex)) f]> h,
                       Ok analysis)
                  end
              | None => (h, Ok analysis)
              end
          end
      end
  end.

(** [analysis = font.cff_analysis] reads the cached outcome of the
    condition, a value or the error it raised. *)
Definition check_cff_call_depth (font_cff_analysis : Res CFFAnalysis) : Gen unit :=
  analysis ← lift font_cff_analysis;
  if nonempty (glyphs_exceed_max analysis)
     || nonempty (glyphs_recursion_errors analysis) then
    for_ (glyphs_exceed_max analysis) (fun gn =>
      yield FAIL (Message "max-depth"
        ("Subroutine call depth exceeded maximum of 10 for glyph "
         +:+ dquote +:+ gn +:+ dquote +:+ ".")));;
    for_ (glyphs_recursion_errors analysis) (fun gn =>
      yield FAIL (Message "recursion-error"
        ("Recursion error while decompiling glyph "
         +:+ dquote +:+ gn +:+ dquote +:+ ".")))
  else pass.

Definition check_cff2_call_depth (font_cff_analysis : Res CFFAnalysis) : Gen unit :=
  analysis ← lift font_cff_analysis;
  if nonempty (glyphs_exceed_max analysis)
     || nonempty (glyphs_recursion_errors analysis) then
    for_ (glyphs_exceed_max analysis) (fun gn =>
      yield FAIL (Message "max-depth"
        ("Subroutine call depth exceeded maximum of 10 for glyph "
         +:+ dquote +:+ gn +:+ dquote +:+ ".")));;
    for_ (glyphs_recursion_errors analysis) (fun gn =>
      yield FAIL (Message "recursion-error"
        ("Recursion error while decompiling glyph "
         +:+ dquote +:+ gn +:+ dquote +:+ ".")))
  else pass.

Definition check_cff_deprecated_operators (cff_analysis : CFFAnalysis) : Gen unit :=
  if nonempty (glyphs_dotsection cff_analysis)
     || nonempty (glyphs_endchar_seac cff_analysis) then
    for_ (glyphs_dotsection cff_analysis) (fun gn =>
      yield WARN (Message "deprecated-operator-dotsection"
        ("Glyph " +:+ dquote +:+ gn +:+ dquote +:+ " uses deprecated "
         +:+ dquote +:+ "dotsection" +:+ dquote +:+ " operator.")));;
    for_ (glyphs_endchar_seac cff_analysis) (fun gn =>
      yield FAIL (Message "deprecated-operation-endchar-seac"
        ("Glyph " +:+ dquote +:+ gn +:+ dquote +:+ " has deprecated use of "
         +:+ dquote +:+ "endchar" +:+ dquote
         +:+ " operator to build accented characters (seac).")))
  else pass.

(** Whether a sequence of bytes is well-formed UTF-8. *)
Fixpoint utf8_valid (fuel : nat) (bs : list N) : bool :=
  let cont b := ((128 <=? b) && (b <=? 191))%N in
  match fuel with
  | O => false
  | S fuel' =>
      match bs with
      | [] => true
      | b0 :: r0 =>
          if (b0 <=? 127)%N then utf8_valid fuel' r0
          else if ((194 <=? b0) && (b0 <=? 223))%N then
            match r0 with
            | b1 :: r1 => cont b1 && utf8_valid fuel' r1
            | _ => false
            end
          else if ((224 <=? b0) && (b0 <=? 239))%N then
            match r0 with
            | b1 :: b2 :: r2 =>
                cont b1 && cont b2
                && (if (b0 =? 224)%N then (160 <=? b1)%N else true)
                && (if (b0 =? 237)%N then (b1 <=? 159)%N else true)
                && utf8_valid fuel' r2
            | _ => false
            end
          else if ((240 <=? b0) && (b0 <=? 244))%N then
            match r0 with
            | b1 :: b2 :: b3 :: r3 =>
                cont b1 && cont b2 && cont b3
                && (if (b0 =? 240)%N then (144 <=? b1)%N else true)
                && (if (b0 =? 244)%N then (b1 <=? 143)%N else true)
                && utf8_valid fuel' r3
            | _ => false
            end
          else false
      end
  end.

(** [string.encode('latin-1').decode('utf-8')]: the bytes of the string,
    read as UTF-8. *)
Definition latin1_as_utf8 (s : string) : Res string :=
  let bs := map N_of_ascii (list_ascii_of_string s) in
  if utf8_valid (S (List.length bs)) bs then Ok s else Raised UnicodeDecodeError.

Definition check_cff_ascii_strings (cff_analysis : CFFAnalysis) : Gen unit :=
  match string_not_ascii cff_analysis with
  | None =>
      yield FAIL (Message "cff-unable-to-decode"
        ("Unable to decode CFF table, possibly due to out"
         +:+ " of ASCII range strings. Please check table strings."))
  | Some ((_ :: _) as not_ascii) =>
      let detailed_info := ""%string in
      detailed_info ←
        for_fold not_ascii detailed_info (fun detailed_info '(key, string) =>
          decoded ← lift (latin1_as_utf8 string);
          mret (detailed_info +:+ newline +:+ newline +:+ tab +:+ " - "
                +:+ key +:+ ": " +:+ decoded));
      yield FAIL (Message "cff-string-not-in-ascii-range"
        ("The following CFF TopDict strings"
         +:+ " are not in the ASCII range: " +:+ detailed_info))
  | Some [] => pass
  end.

End Cff.

(** ** checks/outline.py *)

Module Outline.

Definition ALIGNMENT_MISS_EPSILON : Q := 2.
Definition SHORT_PATH_EPSILON : Q := 6 # 1000.
Definition SHORT_PATH_ABSOLUTE_EPSILON : Q := 3.
Definition COLINEAR_EPSILON : Q := 1 # 10.
Definition JAG_AREA_EPSILON : Q := 5 # 100.
Definition JAG_ANGLE : Q := 25 # 100.
Definition FALSE_POSITIVE_CUTOFF : nat := 100.

Definition pair_eqb (a b : string * string) : bool :=
  String.eqb (fst a) (fst b) && String.eqb (snd a) (snd b).

(** The value of the condition [outlines_dict(font)], over a font object
    [font.ttFont] that the calls of [BezierPath.fromFonttoolsGlyph] leave as
    it is. *)
Definition outlines_dict (env : Env) (ttFont : TTFont) : OutlinesDict :=
  let reversed_cmap :=
    fold_left (fun d '(k, v) => dict_set String.eqb v k d) (bestCmap ttFont) [] in
  let display_name (glyphname : string) : string :=
    match dict_get String.eqb glyphname reversed_cmap with
    | Some cp => glyphname +:+ " (U+" +:+ zfill 4 (hex true cp) +:+ ")"
    | None => glyphname
    end in
  fold_left
    (fun d glyphname =>
       dict_set pair_eqb (glyphname, display_name glyphname)
         (fromFonttoolsGlyph env ttFont glyphname) d)
    (glyphOrder ttFont) [].


Definition close_but_not_on (yExpected yTrue tolerance : Q) : bool :=
  if Qeq_bool yExpected yTrue then false
  else if Qle_bool (Qabs (yExpected - yTrue)) tolerance then true
  else false.

(** [len(glyphname) > 1 or glyphname[0].isupper()] *)
Definition is_caps_name (glyphname : string) : Res bool :=
  if (1 <? String.length glyphname)%nat then Ok true
  else match glyphname with
       | String c _ => Ok (isupper c)
       | EmptyString => Raised IndexError
       end.

(** The loops of check_outline_alignment_miss over the paths, nodes and
    alignment lines of one glyph. *)
Definition glyph_alignment_misses (env : Env) (alignments : list (string * Z))
    (glyph : string * string) (outlines : list BezierPath)
    (warnings : list string) : Res (list string) :=
  let '(glyphname, display_name) := glyph in
  for_fold outlines warnings (fun warnings p =>
    for_fold (nodes p) warnings (fun warnings node =>
      if String.eqb (node_type node) "offcurve" then Ok warnings
      else
        for_fold alignments warnings (fun warnings '(line, yExpected) =>
          skip ← (if String.eqb line "x-height"
                   then is_caps_name glyphname else Ok false);
          if skip : bool then Ok warnings
          else if close_but_not_on (inject_Z yExpected) (node_y node)
                    ALIGNMENT_MISS_EPSILON then
            Ok (warnings ++
                [display_name +:+ ": X=" +:+ str_num env (node_x node)
                 +:+ ",Y=" +:+ str_num env (node_y node)
                 +:+ " (should be at " +:+ line +:+ " "
                 +:+ str_int yExpected +:+ "?)"])
          else Ok warnings))).

(** One turn of the loop over the glyphs in check_outline_alignment_miss,
    with the test of the cutoff that ends it. *)
Definition alignment_miss_turn (env : Env) (alignments : list (string * Z))
    (warnings : list string) (item : (string * string) * list BezierPath)
    : Gen (list string) :=
  let '(glyph, outlines) := item in
  warnings ← lift (glyph_alignment_misses env alignments glyph outlines warnings);
  if (FALSE_POSITIVE_CUTOFF <? List.length warnings)%nat then
    yield PASS (Text
      ("So many Y-coordinates of points were close to"
       +:+ " boundaries that this was probably by design."));;
    return_
  else mret warnings.

(** The dictionary [alignments], with the WARN of an OS/2 table older than
    version 2. *)
Definition alignment_lines (os2 : OS2Table) : Gen (list (string * Z)) :=
  let alignments :=
    [("baseline", 0); ("ascender", sTypoAscender os2);
     ("descender", sTypoDescender os2)]%string in
  let os2version := version os2 in
  if 2 <=? os2version then
    mret (alignments ++
          [("x-height", sxHeight os2); ("cap-height", sCapHeight os2)]%string)
  else
    yield WARN (Message "skip-cap-x-height-alignment"
      ("x-height and cap-height checks are skipped"
       +:+ " because OS/2 table version is only " +:+ str_int os2version
       +:+ " and version >= 2 is required for those checks."));;
    mret alignments.

Definition check_outline_alignment_miss (env : Env) (ttFont : TTFont)
    (outlines_dict : OutlinesDict) (config : Config) : Gen unit :=
  let warnings := [] in
  os2 ← lift (get_OS2 ttFont);
  alignments ← alignment_lines os2;
  warnings ← for_fold outlines_dict warnings (alignment_miss_turn env alignments);
  match warnings with
  | _ :: _ =>
      let formatted_list := bullet_list env config warnings "*" in
      yield WARN (Message "found-misalignments"
        ("The following glyphs have on-curve points which"
         +:+ " have potentially incorrect y coordinates:"
         +:+ newline +:+ newline +:+ formatted_list))
  | [] => yield PASS (Text "Y-coordinates of points fell on appropriate boundaries.")
  end.

(** [math.isclose(x, 0)] with the default tolerances holds of zero only. *)
Definition isclose_0 (x : Q) : bool := Qeq_bool x 0.

Definition is_line (seg : Segment) : bool := Nat.eqb (points seg) 2.

(** The loops of check_outline_short_segments over the paths and segments of
    one glyph. *)
Definition glyph_short_segments (glyph : string * string)
    (outlines : list BezierPath) (warnings : list string) : list string :=
  let '(glyphname, display_name) := glyph in
  fold_left (fun warnings p =>
    let outline_length := path_length p in
    let segments := segments p in
    match rev segments with
    | [] => warnings
    | last_segment :: _ =>
        let prev_was_line := is_line last_segment in
        fst (fold_left (fun '(warnings, prev_was_line) seg =>
          let warnings :=
            if isclose_0 (seg_length seg) then
              warnings ++ [display_name +:+ " contains a short segment "
                           +:+ seg_repr seg]
            else if (Qltb (seg_length seg) SHORT_PATH_ABSOLUTE_EPSILON
                     || Qltb (seg_length seg)
                          (SHORT_PATH_EPSILON * outline_length)%Q)
                    && (prev_was_line || (2 <? points seg)%nat) then
              warnings ++ [display_name +:+ " contains a short segment "
                           +:+ seg_repr seg]
            else warnings in
          (warnings, is_line seg)) segments (warnings, prev_was_line))
    end) outlines warnings.

Definition short_segments_turn (warnings : list string)
    (item : (string * string) * list BezierPath) : Gen (list string) :=
  let '(glyph, outlines) := item in
  let warnings := glyph_short_segments glyph outlines warnings in
  if (FALSE_POSITIVE_CUTOFF <? List.length warnings)%nat then
    yield PASS (Text
      "So many short segments were found that this was probably by design.");;
    return_
  else mret warnings.

Definition check_outline_short_segments (env : Env) (ttFont : TTFont)
    (outlines_dict : OutlinesDict) (config : Config) : Gen unit :=
  let warnings := [] in
  warnings ← for_fold outlines_dict warnings short_segments_turn;
  match warnings with
  | _ :: _ =>
      let formatted_list := bullet_list env config warnings "*" in
      yield WARN (Message "found-short-segments"
        ("The following glyphs have segments which seem very short:"
         +:+ newline +:+ newline +:+ formatted_list))
  | [] => yield PASS (Text "No short segments were found.")
  end.

(** [(segments[i - 1], segments[i])] for [i] in [range(len(segments))]: the
    first segment is paired with the last one. *)
Definition with_prev {A} (segments : list A) : list (A * A) :=
  match rev segments with
  | [] => []
  | last_segment :: _ => combine (last_segment :: segments) segments
  end.

Definition glyph_colinear_vectors (env : Env) (glyph : string * string)
    (outlines : list BezierPath) (warnings : list string) : list string :=
  let '(glyphname, display_name) := glyph in
  fold_left (fun warnings p =>
    fold_left (fun warnings '(prev, this) =>
      if is_line prev && is_line this then
        if Qltb (Qabs (angle env (tangent0 prev) - angle env (tangent0 this)))
                COLINEAR_EPSILON then
          warnings ++ [display_name +:+ ": " +:+ seg_repr prev
                       +:+ " -> " +:+ seg_repr this]
        else warnings
      else warnings) (with_prev (segments p)) warnings) outlines warnings.

Definition colinear_vectors_turn (env : Env) (warnings : list string)
    (item : (string * string) * list BezierPath) : Gen (list string) :=
  let '(glyph, outlines) := item in
  let warnings := glyph_colinear_vectors env glyph outlines warnings in
  if (FALSE_POSITIVE_CUTOFF <? List.length warnings)%nat then
    yield PASS (Text
      ("So many colinear vectors were found"
       +:+ " that this was probably by design."));;
    return_
  else mret warnings.

Definition check_outline_colinear_vectors (env : Env) (ttFont : TTFont)
    (outlines_dict : OutlinesDict) (config : Config) : Gen unit :=
  let warnings := [] in
  warnings ← for_fold outlines_dict warnings (colinear_vectors_turn env);
  match warnings with
  | _ :: _ =>
      let formatted_list :=
        bullet_list env config (sorted (set_iter env (uniq warnings))) "*" in
      yield WARN (Message "found-colinear-vectors"
        ("The following glyphs have colinear vectors:"
         +:+ newline +:+ newline +:+ formatted_list))
  | [] => yield PASS (Text "No colinear vectors found.")
  end.

Definition scale (k : Q) (p : Point) : Point := (k * fst p, k * snd p)%Q.
Definition dot (a b : Point) : Q := (fst a * fst b + snd a * snd b)%Q.
Definition minus (a b : Point) : Point := (fst a - fst b, snd a - snd b)%Q.

Definition glyph_jaggy_segments (env : Env) (glyph : string * string)
    (outlines : list BezierPath) (warnings : list string) : list string :=
  let '(glyphname, display_name) := glyph in
  fold_left (fun warnings p =>
    fold_left (fun warnings '(prev, this) =>
      let in_vector := scale (-1) (tangent1 prev) in
      let out_vector := tangent0 this in
      if Qeq_bool (magnitude env in_vector * magnitude env out_vector) 0 then
        warnings
      else
        let angle := (dot in_vector out_vector
                      / (magnitude env in_vector * magnitude env out_vector))%Q in
        if negb (Qle_bool (-1) angle && Qle_bool angle 1) then warnings
        else
          let jag_angle := math_acos env angle in
          if Qltb JAG_ANGLE (Qabs jag_angle) || Qeq_bool jag_angle 0 then
            warnings
          else
            warnings ++ [display_name +:+ ": " +:+ seg_repr prev +:+ "/"
                         +:+ seg_repr this +:+ " = "
                         +:+ str_num env (math_degrees env jag_angle)])
      (with_prev (segments p)) warnings) outlines warnings.

Definition check_outline_jaggy_segments (env : Env) (ttFont : TTFont)
    (outlines_dict : OutlinesDict) (config : Config) : Gen unit :=
  let warnings := [] in
  let warnings :=
    fold_left (fun warnings '(glyph, outlines) =>
                 glyph_jaggy_segments env glyph outlines warnings)
              outlines_dict warnings in
  match warnings with
  | _ :: _ =>
      let formatted_list := bullet_list env config (sorted warnings) "*" in
      yield WARN (Message "found-jaggy-segments"
        ("The following glyphs have jaggy segments:"
         +:+ newline +:+ newline +:+ formatted_list))
  | [] => yield PASS (Text "No jaggy segments found.")
  end.

Definition glyph_semi_vertical (env : Env) (glyph : string * string)
    (outlines : list BezierPath) (warnings : list string) : list string :=
  let '(glyphname, display_name) := glyph in
  fold_left (fun warnings p =>
    fold_left (fun warnings s =>
      if negb (is_line s) then warnings
      else
        let angle := math_degrees env (angle env (minus (seg_end s) (seg_start s))) in
        fold_left (fun warnings yExpected =>
          if close_but_not_on angle (inject_Z yExpected) (5 # 10) then
            warnings ++ [display_name +:+ ": " +:+ seg_repr s]
          else warnings) [-180; -90; 0; 90; 180] warnings)
      (segments p) warnings) outlines warnings.

Definition check_outline_semi_vertical (env : Env) (ttFont : TTFont)
    (outlines_dict : OutlinesDict) (config : Config) : Gen unit :=
  let warnings := [] in
  let warnings :=
    fold_left (fun warnings '(glyph, outlines) =>
                 glyph_semi_vertical env glyph outlines warnings)
              outlines_dict warnings in
  match warnings with
  | _ :: _ =>
      let formatted_list := bullet_list env config (sorted warnings) "*" in
      yield WARN (Message "found-semi-vertical"
        ("The following glyphs have"
         +:+ " semi-vertical/semi-horizontal lines:" +:+ newline
         +:+ newline
         +:+ formatted_list))
  | [] => yield PASS (Text "No semi-horizontal/semi-vertical lines found.")
  end.

Definition bounds_contains (bb1 bb2 : Box) : bool :=
  Qle_bool (left bb1) (left bb2)
  && Qle_bool (right bb2) (right bb1)
  && Qle_bool (top bb2) (top bb1)
  && Qle_bool (bottom bb1) (bottom bb2).

(** [is_within[j]] of the [defaultdict(list)] and [is_within[j].append(i)] *)
Definition within_get (j : nat) (is_within : list (nat * list nat)) : list nat :=
  match dict_get Nat.eqb j is_within with
  | Some l => l
  | None => []
  end.

Definition within_append (j i : nat) (is_within : list (nat * list nat))
    : list (nat * list nat) :=
  dict_set Nat.eqb j (within_get j is_within ++ [i]) is_within.

Definition glyph_direction (glyph : string * string)
    (outlines : list BezierPath) (warnings : list string) : list string :=
  let '(glyphname, display_name) := glyph in
  let outline_bounds := map path_bounds outlines in
  let is_within : list (nat * list nat) := [] in
  let '(warnings, is_within) :=
    fold_left (fun '(warnings, is_within) '(i, my_bounds) =>
      match my_bounds with
      | None =>
          (warnings ++ [display_name
             +:+ " has a path with no bounds (probably a single point)"],
           is_within)
      | Some my_bounds =>
          (warnings,
           fold_left (fun is_within '(j, their_bounds) =>
             if Nat.eqb i j then is_within
             else match their_bounds with
                  | None => is_within
                  | Some their_bounds =>
                      if bounds_contains my_bounds their_bounds
                      then within_append j i is_within
                      else is_within
                  end) (enumerate outline_bounds) is_within)
      end) (enumerate outline_bounds) (warnings, is_within) in
  fold_left (fun warnings '(i, path) =>
    if nonempty (within_get i is_within) then warnings
    else if direction path =? 1 then
      warnings ++ [display_name +:+ " has a counter-clockwise outer contour"]
    else warnings) (enumerate outlines) warnings.

Definition check_outline_direction (env : Env) (ttFont : TTFont)
    (outlines_dict : OutlinesDict) (config : Config) : Gen unit :=
  let warnings := [] in
  let warnings :=
    fold_left (fun warnings '(glyph, outlines) =>
                 glyph_direction glyph outlines warnings)
              outlines_dict warnings in
  match warnings with
  | _ :: _ =>
      let formatted_list := bullet_list env config (sorted warnings) "*" in
      yield WARN (Message "ccw-outer-contour"
        ("The following glyphs have a counter-clockwise outer contour:"
         +:+ newline +:+ newline +:+ formatted_list))
  | [] => pass
  end.

Definition point_eqb (a b : Point) : bool :=
  Qeq_bool (fst a) (fst b) && Qeq_bool (snd a) (snd b).

Definition ends_eqb (a b : Point * Point) : bool :=
  point_eqb (fst a) (fst b) && point_eqb (snd a) (snd b).

Definition glyph_overlapping (glyph : string * string)
    (outlines : list BezierPath) (failed : list string) : list string :=
  let seen : list (Point * Point) := [] in
  fst (fold_left (fun '(failed, seen) p =>
    fold_left (fun '(failed, seen) seg =>
      let normal := (seg_start seg, seg_end seg) in
      let flipped := (seg_end seg, seg_start seg) in
      let failed :=
        if existsb (ends_eqb normal) seen || existsb (ends_eqb flipped) seen then
          failed ++ [snd glyph +:+ ": " +:+ seg_repr seg
                     +:+ " has the same coordinates as a previous segment."]
        else failed in
      (failed, if existsb (ends_eqb normal) seen then seen else seen ++ [normal]))
      (segments p) (failed, seen)) outlines (failed, seen)).

Definition check_overlapping_path_segments (env : Env) (ttFont : TTFont)
    (outlines_dict : OutlinesDict) (config : Config) : Gen unit :=
  let failed := [] in
  let failed :=
    fold_left (fun failed '(glyph, outlines) =>
                 glyph_overlapping glyph outlines failed)
              outlines_dict failed in
  match failed with
  | _ :: _ =>
      yield WARN (Message "overlapping-path-segments"
        ("The following glyphs have overlapping path segments:"
         +:+ newline +:+ newline +:+ bullet_list env config failed "*"))
  | [] => yield PASS (Text "No overlapping path segments found.")
  end.

End Outline.

(** ** checks/googlefonts/family.py *)

Module Family.

Definition in_ints (x : Z) (l : list Z) : bool := existsb (Z.eqb x) l.

(** A [set] of code points: a list without repetition. *)
Definition int_set (l : list Z) : list Z := nodup Z.eq_dec l.

Definition com_google_fonts_check_family_equal_codepoint_coverage
    (env : Env) (ttFonts : list TTFont) (config : Config) : Gen unit :=
  let cmaps :=
    fold_left (fun cmaps ttFont =>
      let fontname := file_name ttFont in
      let stylename := canonical_stylename env fontname in
      dict_set String.eqb stylename (int_set (map fst (bestCmap ttFont))) cmaps)
      ttFonts [] in
  let cmap_list := map snd cmaps in
  common_cps ←
    match cmap_list with
    | [] => raise IndexError
    | first :: others =>
        mret (List.filter (fun cp => forallb (in_ints cp) others) first)
    end;
  let problems :=
    fold_left (fun problems '(style, cmap) =>
      let residue := List.filter (fun cp => negb (in_ints cp common_cps)) cmap in
      match residue with
      | _ :: _ =>
          problems ++
          ["* " +:+ style +:+ " contains encoded codepoints not found "
           +:+ "in other related fonts:"
           +:+ bullet_list env config
                 (map (fun cp => "U+" +:+ zfill 4 (hex false cp))
                      (int_set_iter env residue)) "-"]
      | [] => problems
      end) cmaps [] in
  match problems with
  | _ :: _ => yield FAIL (Message "glyphset-diverges" (join newline problems))
  | [] =>
      yield PASS (Text
        "All font files in this family have an equivalent encoded glyphset.")
  end.

Definition last_of (l : list string) : string := List.last l EmptyString.
Definition first_of (l : list string) : string := List.hd EmptyString l.

Definition com_google_fonts_check_family_italics_have_roman_counterparts
    (env : Env) (fonts : list string) (config : Config) : Gen unit :=
  let italics := List.filter (contains "Italic") fonts in
  let missing_roman := [] in
  missing_roman ←
    for_fold italics missing_roman (fun missing_roman italic =>
      (if negb (contains "-" (basename italic))
          || negb (Nat.eqb
                     (List.length
                        (split "." (last_of (split "-" (basename italic))))) 2)
       then
         yield WARN (Message "bad-filename"
           ("Filename seems to be incorrect: '" +:+ italic +:+ "'"))
       else pass);;
      let style_from_filename :=
        first_of (split "." (last_of (split "-" (basename italic)))) in
      let is_varfont := contains "[" style_from_filename in
      let style_from_filename :=
        if is_varfont then first_of (split "[" style_from_filename)
        else style_from_filename in
      let roman_counterpart :=
        if String.eqb style_from_filename "Italic" then
          if is_varfont then replace "-Italic" "" italic
          else replace "Italic" "Regular" italic
        else replace "Italic" "" italic in
      if negb (mem roman_counterpart fonts)
      then mret (missing_roman ++ [italic])
      else mret missing_roman);
  match missing_roman with
  | _ :: _ =>
      let missing_roman := pretty_print_list env config missing_roman in
      yield FAIL (Message "missing-roman"
        ("Italics missing a Roman counterpart: " +:+ missing_roman))
  | [] => yield PASS (Text "OK")
  end.

(** [tnum_widths]: width to the list of glyph names that have it. *)
Definition Widths : Type := list (Z * list string).

(** The body of the inner loop: [tnum_widths[glyph.width] = [glyph_id]] for
    a new width, [.append(glyph_id)] for a known one. *)
Definition add_width (tnum_widths : Widths) (glyph_id : string) (glyph : Glyph)
    : Widths :=
  match dict_get Z.eqb (width glyph) tnum_widths with
  | None => dict_set Z.eqb (width glyph) [glyph_id] tnum_widths
  | Some ids => dict_set Z.eqb (width glyph) (ids ++ [glyph_id]) tnum_widths
  end.

(** The glyphs of one font whose name ends in [.tnum]. *)
Definition tnum_glyphs_of (ttFont : TTFont) : list (string * Glyph) :=
  List.filter (fun '(glyph_id, _) => endswith glyph_id ".tnum") (glyphSet ttFont).

Definition collect_tnum_widths (RIBBI_ttFonts : list TTFont) : Widths :=
  fold_left (fun tnum_widths ttFont =>
    fold_left (fun tnum_widths '(glyph_id, glyph) =>
                 add_width tnum_widths glyph_id glyph)
              (tnum_glyphs_of ttFont) tnum_widths)
    RIBBI_ttFonts [].

(** The loop that finds [most_common_width]; [None] is Python's. *)
Definition most_common (tnum_widths : Widths) : nat * option Z :=
  fold_left (fun '(max_num, most_common_width) '(width, glyphs) =>
    if (max_num <? List.length glyphs)%nat
    then (List.length glyphs, Some width)
    else (max_num, most_common_width))
    tnum_widths (O, None).

(** [repr] of a glyph name and of the dictionary, as the message prints
    them; glyph names hold neither quotes nor backslashes. *)
Definition repr_str (s : string) : string := "'" +:+ s +:+ "'".

Definition repr_widths (tnum_widths : Widths) : string :=
  "{" +:+ join ", "
            (map (fun '(w, ids) =>
                    str_int w +:+ ": [" +:+ join ", " (map repr_str ids) +:+ "]")
                 tnum_widths)
  +:+ "}".

Definition str_opt_int (w : option Z) : string :=
  match w with
  | Some w => str_int w
  | None => "None"
  end.

(** The text of the message with the code [inconsistent-widths]. *)
Definition inconsistent_widths_text (most_common_width : option Z)
    (tnum_widths : Widths) : string :=
  "The most common tabular glyph width is"
  +:+ " " +:+ str_opt_int most_common_width +:+ ". But there are other"
  +:+ " tabular glyphs with different widths"
  +:+ " such as the following ones:" +:+ newline +:+ tab
  +:+ repr_widths tnum_widths +:+ ".".

Definition com_google_fonts_check_family_tnum_horizontal_metrics
    (RIBBI_ttFonts : list TTFont) : Gen unit :=
  let tnum_widths := collect_tnum_widths RIBBI_ttFonts in
  if (1 <? List.length tnum_widths)%nat then
    let '(max_num, most_common_width) := most_common tnum_widths in
    tnum_widths ←
      match most_common_width with
      | Some w =>
          match dict_del Z.eqb w tnum_widths with
          | Some d => mret d
          | None => raise (KeyError (str_int w))
          end
      | None => raise (KeyError "None")
      end;
    yield FAIL (Message "inconsistent-widths"
                  (inconsistent_widths_text most_common_width tnum_widths))
  else yield PASS (Text "OK").

End Family.

(** ** The checks of the four files, by identifier *)

Module Registry.

Inductive CheckId :=
| family_win_ascent_and_descent
| os2_metrics_match_hhea
| family_vertical_metrics
| linegaps
| typoascender_exceeds_Agrave
| caps_vertically_centered
| cff_call_depth
| cff2_call_depth
| cff_deprecated_operators
| cff_ascii_strings
| outline_alignment_miss
| outline_short_segments
| outline_colinear_vectors
| outline_jaggy_segments
| outline_semi_vertical
| outline_direction
| overlapping_path_segments
| family_equal_codepoint_coverage
| family_italics_have_roman_counterparts
| family_tnum_horizontal_metrics.

Definition all_checks : list CheckId :=
  [family_win_ascent_and_descent; os2_metrics_match_hhea;
   family_vertical_metrics; linegaps; typoascender_exceeds_Agrave;
   caps_vertically_centered; cff_call_depth; cff2_call_depth;
   cff_deprecated_operators; cff_ascii_strings; outline_alignment_miss;
   outline_short_segments; outline_colinear_vectors; outline_jaggy_segments;
   outline_semi_vertical; outline_direction; overlapping_path_segments;
   family_equal_codepoint_coverage; family_italics_have_roman_counterparts;
   family_tnum_horizontal_metrics].

(** The resolved inputs that the runner passes to a check body by name:
    references to the shared font objects, and the cached values of the
    conditions. *)
Record Resolved := {
  arg_ttFont : loc;
  arg_ttFonts : list loc;
  arg_RIBBI_ttFonts : list loc;
  arg_fonts : list string;
  arg_config : Config;
  arg_vmetrics : Metrics.VMetrics;
  arg_outlines_dict : OutlinesDict;
  arg_cff_analysis : Cff.CFFAnalysis;
  arg_font_cff_analysis : Res Cff.CFFAnalysis   (* font.cff_analysis *)
}.

(** Reading the font objects behind a list of references. *)
Definition deref_all (ls : list loc) : SGen (list TTFont) :=
  for_fold ls [] (fun fonts l => f ← deref l; mret (fonts ++ [f])).

Definition body (env : Env) (id : CheckId) (args : Resolved) : SGen unit :=
  match id with
  | family_win_ascent_and_descent =>
      ttFont ← deref (arg_ttFont args);
      gen (Metrics.check_family_win_ascent_and_descent ttFont (arg_vmetrics args))
  | os2_metrics_match_hhea =>
      ttFont ← deref (arg_ttFont args);
      gen (Metrics.check_os2_metrics_match_hhea ttFont)
  | family_vertical_metrics =>
      ttFonts ← deref_all (arg_ttFonts args);
      gen (Metrics.check_family_vertical_metrics ttFonts)
  | linegaps =>
      ttFont ← deref (arg_ttFont args);
      gen (Metrics.check_linegaps env ttFont)
  | typoascender_exceeds_Agrave =>
      Metrics.check_typoascender_exceeds_Agrave env (arg_ttFont args)
  | caps_vertically_centered =>
      Metrics.check_caps_vertically_centered (arg_ttFont args)
  | cff_call_depth =>
      gen (Cff.check_cff_call_depth (arg_font_cff_analysis args))
  | cff2_call_depth =>
      gen (Cff.check_cff2_call_depth (arg_font_cff_analysis args))
  | cff_deprecated_operators =>
      gen (Cff.check_cff_deprecated_operators (arg_cff_analysis args))
  | cff_ascii_strings =>
      gen (Cff.check_cff_ascii_strings (arg_cff_analysis args))
  | outline_alignment_miss =>
      ttFont ← deref (arg_ttFont args);
      gen (Outline.check_outline_alignment_miss env ttFont
             (arg_outlines_dict args) (arg_config args))
  | outline_short_segments =>
      ttFont ← deref (arg_ttFont args);
      gen (Outline.check_outline_short_segments env ttFont
             (arg_outlines_dict args) (arg_config args))
  | outline_colinear_vectors =>
      ttFont ← deref (arg_ttFont args);
      gen (Outline.check_outline_colinear_vectors env ttFont
             (arg_outlines_dict args) (arg_config args))
  | outline_jaggy_segments =>
      ttFont ← deref (arg_ttFont args);
      gen (Outline.check_outline_jaggy_segments env ttFont
             (arg_outlines_dict args) (arg_config args))
  | outline_semi_vertical =>
      ttFont ← deref (arg_ttFont args);
      gen (Outline.check_outline_semi_vertical env ttFont
             (arg_outlines_dict args) (arg_config args))
  | outline_direction =>
      ttFont ← deref (arg_ttFont args);
      gen (Outline.check_outline_direction env ttFont
             (arg_outlines_dict args) (arg_config args))
  | overlapping_path_segments =>
      ttFont ← deref (arg_ttFont args);
      gen (Outline.check_overlapping_path_segments env ttFont
             (arg_outlines_dict args) (arg_config args))
  | family_equal_codepoint_coverage =>
      ttFonts ← deref_all (arg_ttFonts args);
      gen (Family.com_google_fonts_check_family_equal_codepoint_coverage
             env ttFonts (arg_config args))
  | family_italics_have_roman_counterparts =>
      gen (Family.com_google_fonts_check_family_italics_have_roman_counterparts
             env (arg_fonts args) (arg_config args))
  | family_tnum_horizontal_metrics =>
      RIBBI_ttFonts ← deref_all (arg_RIBBI_ttFonts args);
      gen (Family.com_google_fonts_check_family_tnum_horizontal_metrics
             RIBBI_ttFonts)
  end.

(** One execution of a check body: the store it leaves and what the runner
    observes. *)
Definition run_check (env : Env) (id : CheckId) (args : Resolved) (h : store)
    : store * Run :=
  let (h', g) := body env id args h in (h', run g).



(** The entities a condition is evaluated on: the collection for
    [vmetrics], the font for the other two. *)
Record Entity := {
  ent_font : Font;
  ent_collection : list loc
}.


(** The environment of another run of the interpreter: only the hash seed,
    which orders the sets of strings, differs. *)
Definition with_set_iter (order : list string -> list string) (env : Env) : Env :=
  {| set_iter := order;
     int_set_iter := int_set_iter env;
     bullet_list := bullet_list env;
     pretty_print_list := pretty_print_list env;
     canonical_stylename := canonical_stylename env;
     str_num := str_num env;
     math_acos := math_acos env;
     math_degrees := math_degrees env;
     magnitude := magnitude env;
     angle := angle env;
     fromFonttoolsGlyph := fromFonttoolsGlyph env;
     fromFonttoolsGlyph_leaves := fromFonttoolsGlyph_leaves env;
     get_bounding_box_leaves := get_bounding_box_leaves env;
     read_file := read_file env |}.

End Registry.

(** ** The verdict of the check runner *)

Module Engine.

(** Modelled from the spec: the check runner is not among the checked
    files.  The order of severities is ERROR > FAIL > WARN > SKIP > PASS >
    INFO/DEBUG. *)
Definition rank (s : Status) : nat :=
  match s with
  | ERROR => 5
  | FAIL => 4
  | WARN => 3
  | SKIP => 2
  | PASS => 1
  | INFO => 0
  | DEBUG => 0
  end%nat.

Definition informational (s : Status) : bool :=
  match s with
  | INFO | DEBUG => true
  | _ => false
  end.

Definition higher (a b : Status) : Status :=
  if (rank a <? rank b)%nat then b else a.

(** Modelled from the spec: the highest-severity emission of a scan over the
    emitted severities. *)
Definition highest (first : Status) (others : list Status) : Status :=
  fold_left higher others first.

(** Modelled from the spec: the overall verdict.  A check that emits nothing
    is an engine-level ERROR, and so is one that emits informational
    outcomes only (no substantive outcome); otherwise the verdict is the
    highest-severity emission. *)
Definition verdict (emissions : list Status) : Status :=
  match emissions with
  | [] => ERROR
  | first :: others =>
      if forallb informational emissions then ERROR
      else highest first others
  end.

(** Modelled from the spec: a failure raised by the body makes the check
    ERRORED. *)
Definition verdict_of_run (r : Run) : Status :=
  match raised r with
  | Some _ => ERROR
  | None => verdict (map status_of (emitted r))
  end.

End Engine.

(** ** Concrete fonts and a concrete environment *)

Module Sample.

(** An interpreter that iterates over sets in the order given, with simple
    stand-ins for the formatting helpers. *)
Definition env : Env :=
  {| set_iter := fun l => l;
     int_set_iter := fun l => l;
     bullet_list := fun _ items bullet =>
       join newline (map (fun i => bullet +:+ " " +:+ i) items);
     pretty_print_list := fun _ items => join ", " items;
     canonical_stylename := basename;
     str_num := fun q => str_int (Qnum q / Z.pos (Qden q));
     math_acos := fun q => q;
     math_degrees := fun q => q;
     magnitude := fun p => (Qabs (fst p) + Qabs (snd p))%Q;
     angle := fun _ => 0%Q;
     fromFonttoolsGlyph := fun _ _ => [];
     fromFonttoolsGlyph_leaves := fun ttFont _ => ttFont;
     get_bounding_box_leaves := fun ttFont => ttFont;
     read_file := fun _ => None |}.

(** The same interpreter with another hash seed: sets are iterated in the
    opposite order. *)
Definition env_reversed : Env := Registry.with_set_iter (@rev string) env.


Definition os2 : OS2Table :=
  {| version := 4; sTypoAscender := 800; sTypoDescender := -200;
     sTypoLineGap := 0; usWinAscent := 1000; usWinDescent := 250;
     sxHeight := 500; sCapHeight := 700 |}.

Definition os2_v1 : OS2Table :=
  {| version := 1; sTypoAscender := 800; sTypoDescender := -200;
     sTypoLineGap := 0; usWinAscent := 1000; usWinDescent := 250;
     sxHeight := 0; sCapHeight := 0 |}.

Definition hhea_table : HheaTable :=
  {| ascent := 800; descent := -200; lineGap := 0 |}.

Definition glyph (w : Z) : Glyph :=
  {| width := w;
     glyph_bounds := {| xMin := 0; yMin := 0; xMax := inject_Z w; yMax := 700 |} |}.

Definition caps : list (string * Glyph) :=
  map (fun n => (n, glyph 600)) Metrics.SOME_UPPERCASE_GLYPHS.

Definition mk_font (name : string) (os2 : option OS2Table)
    (hhea : option HheaTable) (glyphs : list (string * Glyph)) : TTFont :=
  {| file_name := "fonts/" +:+ name +:+ ".ttf";
     OS2 := os2; hhea := hhea; head := {| unitsPerEm := 1000 |};
     bestFullName := name; CFF := None; CFF2 := None;
     glyphSet := glyphs; bestCmap := []; glyphOrder := map fst glyphs;
     bounding_box := (-250, 950); drawn := [] |}.

Definition regular : TTFont :=
  mk_font "Family-Regular" (Some os2) (Some hhea_table)
    (caps ++ [("zero.tnum"%string, glyph 500); ("one.tnum"%string, glyph 500)]).

Definition bold : TTFont :=
  mk_font "Family-Bold" (Some os2) (Some hhea_table)
    (caps ++ [("zero.tnum"%string, glyph 500); ("one.tnum"%string, glyph 560)]).

Definition lacks_OS2 : TTFont :=
  mk_font "Family-Regular" None (Some hhea_table) caps.

Definition lacks_hhea : TTFont :=
  mk_font "Family-Regular" (Some os2) None caps.

(** A font whose OS/2 table is of version 1. *)
Definition old_os2 : TTFont :=
  mk_font "Family-Regular" (Some os2_v1) (Some hhea_table) caps.

(** A glyph with 101 on-curve points one unit above the baseline, 101 line
    segments of length zero, all of the same direction. *)
Definition near_baseline : Node :=
  {| node_type := "line"; node_x := 10; node_y := 1 |}.

Definition tiny_line : Segment :=
  {| points := 2; seg_length := 0; seg_repr := "L<<10.0,1.0>--<10.0,1.0>>";
     seg_start := (10, 1)%Q; seg_end := (10, 1)%Q;
     tangent0 := (0, 0)%Q; tangent1 := (0, 0)%Q |}.

Definition busy_path : BezierPath :=
  {| nodes := repeat near_baseline 101; path_length := 0;
     segments := repeat tiny_line 101; path_bounds := None; direction := -1 |}.

Definition clean_path : BezierPath :=
  {| nodes := []; path_length := 0; segments := [];
     path_bounds := None; direction := -1 |}.

(** A local subroutine that calls itself: with fewer than 1240 subroutines
    the bias is 107, so the operand -107 selects subroutine 0. *)
Definition cyclic_subrs : list (list Token) :=
  [[TInt (-107); TOp "callsubr"]].

Definition calls_cycle : CharString :=
  {| decompiles_to := [TInt (-107); TOp "callsubr"; TOp "endchar"];
     recursion_error := false; program := None |}.

Definition busy_outlines : OutlinesDict :=
  [(("a", "a (U+0061)"), [busy_path]); (("b", "b (U+0062)"), [clean_path])]%string.

(** A font with an /Agrave that rises above sTypoAscender. *)
Definition accented : TTFont :=
  mk_font "Family-Regular" (Some os2) (Some hhea_table)
    (caps ++ [("Agrave"%string,
               {| width := 600;
                  glyph_bounds := {| xMin := 0; yMin := 0; xMax := 600; yMax := 900 |} |})]).

(** A CFF font on disk whose glyph [loop] calls the cyclic subroutine, and
    an interpreter that finds it. *)
Definition cff_top_dict : TopDict :=
  {| CharStrings := [("loop"%string, (calls_cycle, None))];
     GlobalSubrs := [];
     rawDict := Some [("FontName", "Family-Regular")]%string;
     FDArray := None;
     Private := Some {| Subrs := Some cyclic_subrs |} |}.

Definition cff_font : TTFont :=
  set_CFF (Some (Decoded [cff_top_dict])) None regular.

Definition env_disk : Env :=
  {| set_iter := set_iter env;
     int_set_iter := int_set_iter env;
     bullet_list := bullet_list env;
     pretty_print_list := pretty_print_list env;
     canonical_stylename := canonical_stylename env;
     str_num := str_num env;
     math_acos := math_acos env;
     math_degrees := math_degrees env;
     magnitude := magnitude env;
     angle := angle env;
     fromFonttoolsGlyph := fromFonttoolsGlyph env;
     fromFonttoolsGlyph_leaves := fromFonttoolsGlyph_leaves env;
     get_bounding_box_leaves := get_bounding_box_leaves env;
     read_file := fun path =>
       if String.eqb path "fonts/Family-Regular.otf"
       then Some (SingleFont cff_font) else None |}.

Definition entity : Registry.Entity :=
  {| Registry.ent_font :=
       {| file := "fonts/Family-Regular.otf"; index := None;
          ttFont := 1%positive |};
     Registry.ent_collection := [1%positive] |}.

(** A store that holds one font object, and resolved inputs that refer to
    it. *)
Definition store_of (f : TTFont) : store := {[ 1%positive := f ]}.

Definition args : Registry.Resolved :=
  {| Registry.arg_ttFont := 1%positive;
     Registry.arg_ttFonts := [1%positive];
     Registry.arg_RIBBI_ttFonts := [1%positive];
     Registry.arg_fonts := ["fonts/Family-Regular.ttf"%string];
     Registry.arg_config := [];
     Registry.arg_vmetrics := {| Metrics.ymin := -250; Metrics.ymax := 950 |};
     Registry.arg_outlines_dict := [];
     Registry.arg_cff_analysis := Cff.CFFAnalysis_init;
     Registry.arg_font_cff_analysis := Ok Cff.CFFAnalysis_init |}.

(** A font without OS/2 and without hhea. *)
Definition lacks_both : TTFont :=
  mk_font "Family-Regular" None None caps.

(** Another process: the same font object at another place of a store that
    holds other objects too, and resolved inputs that refer to it there. *)
Definition store_elsewhere (f : TTFont) : store :=
  {[ 1%positive := bold; 2%positive := f; 5%positive := regular ]}.

Definition args_elsewhere : Registry.Resolved :=
  {| Registry.arg_ttFont := 2%positive;
     Registry.arg_ttFonts := [2%positive];
     Registry.arg_RIBBI_ttFonts := [2%positive];
     Registry.arg_fonts := ["fonts/Family-Regular.ttf"%string];
     Registry.arg_config := [];
     Registry.arg_vmetrics := {| Metrics.ymin := -250; Metrics.ymax := 950 |};
     Registry.arg_outlines_dict := [];
     Registry.arg_cff_analysis := Cff.CFFAnalysis_init;
     Registry.arg_font_cff_analysis := Ok Cff.CFFAnalysis_init |}.

End Sample.

(** ** Vocabulary of the further properties *)

Module Obs.

(** The values that check_family_vertical_metrics compares across a family,
    in the order of its dictionary; [None] for a font that lacks one of the
    two tables. *)
Definition vertical_metrics_of (f : TTFont) : option (list Z) :=
  match OS2 f, hhea f with
  | Some o, Some h =>
      Some [sTypoAscender o; sTypoDescender o; sTypoLineGap o;
            usWinAscent o; usWinDescent o; ascent h; descent h; lineGap h]
  | _, _ => None
  end.

(** The keys of its dictionary with the field each one holds; a missing
    table reads as 0. *)
Definition metric_getters : list (string * (TTFont -> Z)) :=
  [("sTypoAscender", fun f => from_option sTypoAscender 0 (OS2 f));
   ("sTypoDescender", fun f => from_option sTypoDescender 0 (OS2 f));
   ("sTypoLineGap", fun f => from_option sTypoLineGap 0 (OS2 f));
   ("usWinAscent", fun f => from_option usWinAscent 0 (OS2 f));
   ("usWinDescent", fun f => from_option usWinDescent 0 (OS2 f));
   ("ascent", fun f => from_option ascent 0 (hhea f));
   ("descent", fun f => from_option descent 0 (hhea f));
   ("lineGap", fun f => from_option lineGap 0 (hhea f))]%string.

(** The dictionary after a loop over the fonts [l], when each has both
    tables and no two have the same full name. *)
Definition metrics_table (l : list TTFont) : Metrics.VTable :=
  map (fun '(k, g) => (k, map (fun f => (bestFullName f, g f)) l))
      metric_getters.

(** A charstring program that calls no subroutine. *)
Definition calls_no_subr (program : list Token) : bool :=
  forallb (fun x => negb (Cff.is_op "callgsubr" x || Cff.is_op "callsubr" x))
          program.

(** The strings of a top dictionary that _analyze_cff finds to hold a
    character above 0x7F, with their keys, in the order of its scan. *)
Definition non_ascii_strings (top_dict : TopDict) : list (string * string) :=
  match rawDict top_dict with
  | Some raw_dict =>
      flat_map (fun key =>
                  match dict_get String.eqb key raw_dict with
                  | Some value =>
                      if Cff.has_non_ascii value then [(key, value)] else []
                  | None => []
                  end)
               Cff.raw_dict_keys
  | None => []
  end.

(** One turn of the first loop of check_outline_direction over the paths
    of a glyph, on its dictionary [is_within]. *)
Definition is_within_turn (outline_bounds : list (option Box))
    (is_within : list (nat * list nat)) (item : nat * option Box)
    : list (nat * list nat) :=
  let '(i, my_bounds) := item in
  match my_bounds with
  | None => is_within
  | Some my_bounds =>
      fold_left (fun is_within '(j, their_bounds) =>
        if Nat.eqb i j then is_within
        else match their_bounds with
             | None => is_within
             | Some their_bounds =>
                 if Outline.bounds_contains my_bounds their_bounds
                 then Outline.within_append j i is_within
                 else is_within
             end) (enumerate outline_bounds) is_within
  end.

(** The dictionary after that loop. *)
Definition is_within_of (outlines : list BezierPath) : list (nat * list nat) :=
  let outline_bounds := map path_bounds outlines in
  fold_left (is_within_turn outline_bounds) (enumerate outline_bounds) [].

(** The path at index [k] of a glyph lies within another path of the glyph:
    the bounds of a path at another index contain its bounds. *)
Definition hidden (outlines : list BezierPath) (k : nat) : Prop :=
  exists i p_i p_k b_i b_k,
    i <> k
    /\ nth_error outlines i = Some p_i /\ nth_error outlines k = Some p_k
    /\ path_bounds p_i = Some b_i /\ path_bounds p_k = Some b_k
    /\ Outline.bounds_contains b_i b_k = true.

(** Two segments have the same end points, in the same or in the opposite
    order. *)
Definition same_ends (a b : Segment) : bool :=
  Outline.ends_eqb (seg_start a, seg_end a) (seg_start b, seg_end b)
  || Outline.ends_eqb (seg_end a, seg_start a) (seg_start b, seg_end b).

(** The test of the file name of an italic, in
    [italics_have_roman_counterparts]. *)
Definition bad_filename (italic : string) : bool :=
  negb (contains "-" (basename italic))
  || negb (Nat.eqb
             (List.length
                (split "." (Family.last_of (split "-" (basename italic))))) 2).

(** The file that is looked for as the Roman sibling of an italic. *)
Definition roman_counterpart (italic : string) : string :=
  let style_from_filename :=
    Family.first_of (split "." (Family.last_of (split "-" (basename italic)))) in
  let is_varfont := contains "[" style_from_filename in
  let style_from_filename :=
    if is_varfont then Family.first_of (split "[" style_from_filename)
    else style_from_filename in
  if String.eqb style_from_filename "Italic" then
    if is_varfont then replace "-Italic" "" italic
    else replace "Italic" "Regular" italic
  else replace "Italic" "" italic.

End Obs.

(** ** The words of the claims

    Definitions that follow the wording of a claim, to state it apart from
    the code: the theorems compare them with the definitions taken from the
    source. *)

Module Claimed.

(** [s] ends in [suffix]. *)
Fixpoint has_suffix (suffix s : string) : bool :=
  String.eqb s suffix
  || match s with
     | EmptyString => false
     | String _ s' => has_suffix suffix s'
     end.

(** The .tnum glyphs of a family: the glyphs whose name ends in [.tnum],
    font after font, each font in the order of its glyph set. *)
Definition tnum_glyphs (fonts : list TTFont) : list (string * Glyph) :=
  flat_map (fun f => List.filter (fun p => has_suffix ".tnum" (fst p)) (glyphSet f))
    fonts.

(** The distinct values of a list, in the order in which they first occur. *)
Fixpoint distinct (l : list Z) : list Z :=
  match l with
  | [] => []
  | x :: l' => x :: List.filter (fun y => negb (y =? x)) (distinct l')
  end.

(** How Python prints a mapping from widths to lists of glyph names:
    [{500: ['zero.tnum', 'one.tnum'], 560: ['two.tnum']}].  Glyph names hold
    neither quotes nor backslashes. *)
Fixpoint comma_separated (items : list string) : string :=
  match items with
  | [] => ""
  | [x] => x
  | x :: rest => x +:+ ", " +:+ comma_separated rest
  end.

Definition printed_names (names : list string) : string :=
  "[" +:+ comma_separated (map (fun n => "'" +:+ n +:+ "'") names) +:+ "]".

Definition printed_mapping (d : list (Z * list string)) : string :=
  "{" +:+ comma_separated
            (map (fun e => str_int (fst e) +:+ ": " +:+ printed_names (snd e)) d)
  +:+ "}".


Section CallChains.
Variables (subrs : option (list (list Token)))
          (global_subrs : list (list Token))
          (gsubr_bias : Z) (subr_bias : option Z).


End CallChains.

(** What check_cff_ascii_strings writes in its message after the colon: a
    line for each listed string, with the key it was found under. *)
Fixpoint listed_strings (items : list (string * string)) : string :=
  match items with
  | [] => ""
  | (key, string) :: rest =>
      newline +:+ newline +:+ tab +:+ " - " +:+ key +:+ ": " +:+ string
      +:+ listed_strings rest
  end.

(** The checks of the source that have no branch for the clean case. *)
Definition silent_when_clean : list Registry.CheckId :=
  [Registry.cff_call_depth; Registry.cff2_call_depth;
   Registry.cff_deprecated_operators; Registry.cff_ascii_strings;
   Registry.outline_direction].

(** Equal resolved inputs of two runs of a check body: the font objects
    behind the references are equal, whatever the references and the rest
    of the two stores are, and the configuration, the paths and the values
    of the conditions are equal. *)
Definition equal_inputs (args1 : Registry.Resolved) (h1 : store)
    (args2 : Registry.Resolved) (h2 : store) : Prop :=
  h1 !! Registry.arg_ttFont args1 = h2 !! Registry.arg_ttFont args2
  /\ map (fun l => h1 !! l) (Registry.arg_ttFonts args1)
     = map (fun l => h2 !! l) (Registry.arg_ttFonts args2)
  /\ map (fun l => h1 !! l) (Registry.arg_RIBBI_ttFonts args1)
     = map (fun l => h2 !! l) (Registry.arg_RIBBI_ttFonts args2)
  /\ Registry.arg_fonts args1 = Registry.arg_fonts args2
  /\ Registry.arg_config args1 = Registry.arg_config args2
  /\ Registry.arg_vmetrics args1 = Registry.arg_vmetrics args2
  /\ Registry.arg_outlines_dict args1 = Registry.arg_outlines_dict args2
  /\ Registry.arg_cff_analysis args1 = Registry.arg_cff_analysis args2
  /\ Registry.arg_font_cff_analysis args1 = Registry.arg_font_cff_analysis args2.

End Claimed.

(** * Properties *)

(** ** The condition [vmetrics] *)

Lemma vmetrics_step_fold (ttFonts : list TTFont) (acc : Metrics.VMetrics) :
  let v := fold_left
             (fun v_metrics ttFont =>
                let '(font_ymin, font_ymax) := bounding_box ttFont in
                {| Metrics.ymin := Z.min font_ymin (Metrics.ymin v_metrics);
                   Metrics.ymax := Z.max font_ymax (Metrics.ymax v_metrics) |})
             ttFonts acc in
  (Metrics.ymin v <= Metrics.ymin acc
   /\ (forall f, In f ttFonts -> Metrics.ymin v <= fst (bounding_box f))
   /\ (Metrics.ymin v = Metrics.ymin acc
       \/ exists f, In f ttFonts /\ Metrics.ymin v = fst (bounding_box f)))
  /\ (Metrics.ymax acc <= Metrics.ymax v
      /\ (forall f, In f ttFonts -> snd (bounding_box f) <= Metrics.ymax v)
      /\ (Metrics.ymax v = Metrics.ymax acc
          \/ exists f, In f ttFonts /\ Metrics.ymax v = snd (bounding_box f))).
Proof.
  revert acc. induction ttFonts as [|f fs IH]; intros acc; cbn [fold_left].
  - cbn. repeat split; try lia; try (intros ? []); now left.
  - destruct (bounding_box f) as [lo hi] eqn:Hbb.
    specialize (IH {| Metrics.ymin := Z.min lo (Metrics.ymin acc);
                      Metrics.ymax := Z.max hi (Metrics.ymax acc) |}).
    cbn zeta in IH. cbn [Metrics.ymin Metrics.ymax] in IH.
    destruct IH as [(Hle & Hall & Hatt) (Hge & Hall' & Hatt')].
    split; repeat split.
    + lia.
    + intros g [<- | Hg]; [rewrite Hbb; cbn; lia | now apply Hall].
    + destruct Hatt as [Heq | (g & Hg & Heq)].
      * destruct (Z.min_spec lo (Metrics.ymin acc)) as [[_ Hm] | [_ Hm]].
        -- right. exists f. split; [now left |]. rewrite Hbb. cbn. lia.
        -- left. lia.
      * right. exists g. split; [now right | exact Heq].
    + lia.
    + intros g [<- | Hg]; [rewrite Hbb; cbn; lia | now apply Hall'].
    + destruct Hatt' as [Heq | (g & Hg & Heq)].
      * destruct (Z.max_spec hi (Metrics.ymax acc)) as [[_ Hm] | [_ Hm]].
        -- left. lia.
        -- right. exists f. split; [now left |]. rewrite Hbb. cbn. lia.
      * right. exists g. split; [now right | exact Heq].
Qed.

(** C8: for every collection, [vmetrics] returns [ymin <= 0 <= ymax], with
    [ymin] the least of 0 and the yMin of every font's bounding box and
    [ymax] the greatest of 0 and every yMax; on the empty collection it
    returns [ymin = 0] and [ymax = 0]. *)
Theorem vmetrics_is_the_family_extent (ttFonts : list TTFont) :
  let v := Metrics.vmetrics ttFonts in
  (Metrics.ymin v <= 0 <= Metrics.ymax v)
  /\ (forall f, In f ttFonts ->
        Metrics.ymin v <= fst (bounding_box f)
        /\ snd (bounding_box f) <= Metrics.ymax v)
  /\ (Metrics.ymin v = 0
      \/ exists f, In f ttFonts /\ Metrics.ymin v = fst (bounding_box f))
  /\ (Metrics.ymax v = 0
      \/ exists f, In f ttFonts /\ Metrics.ymax v = snd (bounding_box f))
  /\ Metrics.vmetrics [] = {| Metrics.ymin := 0; Metrics.ymax := 0 |}.
Proof.
  cbn zeta. unfold Metrics.vmetrics.
  pose proof (vmetrics_step_fold ttFonts {| Metrics.ymin := 0; Metrics.ymax := 0 |})
    as H.
  cbn zeta in H. cbn [Metrics.ymin Metrics.ymax] in H.
  destruct H as [(Hle & Hall & Hatt) (Hge & Hall' & Hatt')].
  repeat split; auto; try lia; try (now apply Hall); now apply Hall'.
Qed.

(** ** The verdict *)

Lemma highest_spec (others : list Status) (first : Status) :
  In (Engine.highest first others) (first :: others)
  /\ forall s, In s (first :: others) ->
       (Engine.rank s <= Engine.rank (Engine.highest first others))%nat.
Proof.
  revert first. induction others as [|o os IH]; intros first.
  - cbn. split; [now left |]. intros s [<- | []]. lia.
  - unfold Engine.highest in *. cbn [fold_left].
    destruct (IH (Engine.higher first o)) as [Hin Hmax]. split.
    + destruct Hin as [Heq | Hin].
      * rewrite <- Heq. unfold Engine.higher.
        destruct (Engine.rank first <? Engine.rank o)%nat;
          [right; now left | now left].
      * right. now right.
    + assert (Hh : (Engine.rank first <= Engine.rank (Engine.higher first o)
                    /\ Engine.rank o <= Engine.rank (Engine.higher first o))%nat).
      { unfold Engine.higher.
        destruct (Nat.ltb_spec (Engine.rank first) (Engine.rank o)); lia. }
      pose proof (Hmax (Engine.higher first o) (or_introl eq_refl)) as Htop.
      intros s [<- | [<- | Hs]]; [lia | lia |].
      apply Hmax. now right.
Qed.

Lemma informational_rank (s : Status) :
  Engine.informational s = true <-> Engine.rank s = 0%nat.
Proof. destruct s; cbn; split; intros H; congruence. Qed.

(** The verdict of a scan that holds a substantive outcome. *)
Lemma verdict_of_substantive (l : list Status) :
  existsb (fun s => negb (Engine.informational s)) l = true ->
  In (Engine.verdict l) l
  /\ (forall s, In s l -> (Engine.rank s <= Engine.rank (Engine.verdict l))%nat).
Proof.
  intros Hsub.
  destruct l as [|first others]; [discriminate Hsub |].
  assert (Hv : Engine.verdict (first :: others) = Engine.highest first others).
  { unfold Engine.verdict.
    destruct (forallb Engine.informational (first :: others)) eqn:Hall;
      [| reflexivity].
    apply existsb_exists in Hsub as (s & Hs & Hn).
    rewrite forallb_forall in Hall. rewrite (Hall s Hs) in Hn. discriminate Hn. }
  rewrite Hv. apply highest_spec.
Qed.

Lemma verdict_of_informational (l : list Status) :
  forallb Engine.informational l = true -> Engine.verdict l = ERROR.
Proof.
  intros Hall. destruct l as [|first others]; [reflexivity |].
  unfold Engine.verdict. now rewrite Hall.
Qed.

Lemma substantive_or_informational (l : list Status) :
  existsb (fun s => negb (Engine.informational s)) l
  = negb (forallb Engine.informational l).
Proof.
  induction l as [|s l IH]; [reflexivity |]. cbn [existsb forallb].
  rewrite IH. now destruct (Engine.informational s).
Qed.

(** C6, as the claim states it, fails on two kinds of pairs: a body that
    yields a single INFO has the verdict ERROR, which is not one of its
    emissions, and so has a body that raises after it has yielded a PASS. *)
Lemma verdict_of_info_only_is_no_emission :
  Engine.verdict_of_run (MkRun [(INFO, Text "note")] None) = ERROR
  /\ ~ In (Engine.verdict_of_run (MkRun [(INFO, Text "note")] None)) [INFO]
  /\ Engine.verdict_of_run
       (MkRun [(PASS, Text "OK")] (Some (KeyError "hhea"))) = ERROR
  /\ ~ In (Engine.verdict_of_run
             (MkRun [(PASS, Text "OK")] (Some (KeyError "hhea")))) [PASS].
Proof.
  cbn. repeat split; intros [H | []]; discriminate H.
Qed.

(** C6, amended.  For a run [r] of a check body on an entity, with
    [l] the severities it emitted in order:
    - when the body did not raise and some emission is substantive (not INFO
      or DEBUG), the verdict is one of the emissions and no emission has a
      higher severity under ERROR > FAIL > WARN > SKIP > PASS > INFO/DEBUG;
      with no emission above PASS the verdict is PASS, so informational
      emissions never raise it;
    - the verdict is ERROR exactly when the body raised, or emitted nothing
      or informational outcomes only, or emitted an ERROR;
    - [PASS, WARN, PASS] gives WARN and [WARN, FAIL] gives FAIL, whatever
      the messages are. *)
Theorem verdict_is_highest_substantive_emission (r : Run) :
  let l := map status_of (emitted r) in
  (raised r = None ->
   existsb (fun s => negb (Engine.informational s)) l = true ->
   In (Engine.verdict_of_run r) l
   /\ (forall s, In s l ->
         (Engine.rank s <= Engine.rank (Engine.verdict_of_run r))%nat)
   /\ ((forall s, In s l -> (Engine.rank s <= Engine.rank PASS)%nat) ->
       Engine.verdict_of_run r = PASS))
  /\ (Engine.verdict_of_run r = ERROR
      <-> raised r <> None
          \/ forallb Engine.informational l = true
          \/ In ERROR l)
  /\ (forall m1 m2 m3,
        Engine.verdict_of_run (MkRun [(PASS, m1); (WARN, m2); (PASS, m3)] None)
        = WARN)
  /\ (forall m1 m2,
        Engine.verdict_of_run (MkRun [(WARN, m1); (FAIL, m2)] None) = FAIL).
Proof.
  intros l. split; [| split; [| split; reflexivity]].
  - intros Hnone Hsub. unfold Engine.verdict_of_run. rewrite Hnone. fold l.
    destruct (verdict_of_substantive l Hsub) as [Hin Hmax].
    split; [exact Hin |]. split; [exact Hmax |].
    intros Hlow.
    apply existsb_exists in Hsub as (s & Hs & Hn).
    pose proof (Hmax s Hs) as H1.
    pose proof (Hlow _ Hin) as H2.
    assert (Hr : Engine.rank s <> 0%nat).
    { intros H0. apply informational_rank in H0. rewrite H0 in Hn.
      discriminate Hn. }
    cbn in H2.
    destruct (Engine.verdict l); cbn in *; try lia; reflexivity.
  - unfold Engine.verdict_of_run. fold l.
    destruct (raised r) as [e |]; [split; [intros _; now left | reflexivity] |].
    destruct (forallb Engine.informational l) eqn:Hall.
    + rewrite (verdict_of_informational l Hall).
      split; [intros _; right; now left | reflexivity].
    + assert (Hsub : existsb (fun s => negb (Engine.informational s)) l = true)
        by now rewrite substantive_or_informational, Hall.
      destruct (verdict_of_substantive l Hsub) as [Hin Hmax]. split.
      * intros Herr. right. right. now rewrite <- Herr.
      * intros [Hr | [Hi | He]]; [now contradiction Hr | discriminate Hi |].
        pose proof (Hmax ERROR He) as Hle. cbn in Hle.
        destruct (Engine.verdict l); cbn in Hle; try lia; reflexivity.
Qed.

Lemma verdict_is_highest_substantive_emission_witness :
  raised (MkRun [(INFO, Text "note"); (PASS, Text "OK"); (DEBUG, Text "trace")]
            None) = None
  /\ existsb (fun s => negb (Engine.informational s)) [INFO; PASS; DEBUG] = true
  /\ Engine.verdict_of_run
       (MkRun [(INFO, Text "note"); (PASS, Text "OK"); (DEBUG, Text "trace")]
          None) = PASS.
Proof.
  split; [reflexivity |]. split; [reflexivity |].
  destruct (verdict_is_highest_substantive_emission
              (MkRun [(INFO, Text "note"); (PASS, Text "OK");
                      (DEBUG, Text "trace")] None)) as (Hsub & _).
  destruct (Hsub eq_refl eq_refl) as (_ & _ & Hpass). apply Hpass.
  intros s [<- | [<- | [<- | []]]]; cbn; lia.
Defined.

(** ** Tabular figures *)

Section DictFacts.
Context {K V : Type} (eqb : K -> K -> bool).
Hypothesis eqb_spec : forall a b, eqb a b = true <-> a = b.

Lemma eqb_false_ne (a b : K) : eqb a b = false <-> a <> b.
Proof.
  split.
  - intros H Heq. apply eqb_spec in Heq. congruence.
  - intros H. destruct (eqb a b) eqn:E; [| reflexivity].
    apply eqb_spec in E. contradiction.
Qed.

Lemma dict_get_set_same (k : K) (v : V) (d : list (K * V)) :
  dict_get eqb k (dict_set eqb k v d) = Some v.
Proof.
  induction d as [|[k' v'] d IH]; cbn.
  - assert (H : eqb k k = true) by now apply eqb_spec. now rewrite H.
  - destruct (eqb k k') eqn:E; cbn; rewrite E; [reflexivity | exact IH].
Qed.

Lemma dict_get_set_other (k k0 : K) (v : V) (d : list (K * V)) :
  k0 <> k -> dict_get eqb k0 (dict_set eqb k v d) = dict_get eqb k0 d.
Proof.
  intros Hne. induction d as [|[k' v'] d IH]; cbn.
  - apply eqb_false_ne in Hne. now rewrite Hne.
  - destruct (eqb k k') eqn:E; cbn.
    + apply eqb_spec in E. subst k'.
      apply eqb_false_ne in Hne. now rewrite Hne.
    + now rewrite IH.
Qed.

Lemma dict_set_keys (k : K) (v : V) (d : list (K * V)) :
  map fst (dict_set eqb k v d)
  = match dict_get eqb k d with
    | Some _ => map fst d
    | None => map fst d ++ [k]
    end.
Proof.
  induction d as [|[k' v'] d IH]; cbn; [reflexivity |].
  destruct (eqb k k') eqn:E; cbn; [reflexivity |].
  rewrite IH. now destruct (dict_get eqb k d).
Qed.

Lemma dict_get_None_keys (k : K) (d : list (K * V)) :
  dict_get eqb k d = None <-> ~ In k (map fst d).
Proof.
  induction d as [|[k' v'] d IH]; cbn; [tauto |].
  destruct (eqb k k') eqn:E.
  - apply eqb_spec in E. subst. split; [discriminate | intros H; exfalso; auto].
  - apply eqb_false_ne in E. rewrite IH. split.
    + intros H [H1 | H1]; [congruence | auto].
    + intros H H1. apply H. now right.
Qed.

Lemma dict_get_In (k : K) (v : V) (d : list (K * V)) :
  List.NoDup (map fst d) ->
  (In (k, v) d <-> dict_get eqb k d = Some v).
Proof.
  induction d as [|[k' v'] d IH]; cbn; intros Hnd.
  - split; [intros [] | discriminate].
  - inversion Hnd as [|? ? Hnot Hnd']; subst.
    destruct (eqb k k') eqn:E.
    + apply eqb_spec in E. subst k'. split.
      * intros [H | H]; [congruence |].
        exfalso. apply Hnot. apply (in_map fst) in H. exact H.
      * intros H. left. congruence.
    + apply eqb_false_ne in E. rewrite <- (IH Hnd'). split.
      * intros [H | H]; [congruence | exact H].
      * intros H. now right.
Qed.

End DictFacts.

Lemma Z_eqb_spec' (a b : Z) : (a =? b) = true <-> a = b.
Proof. apply Z.eqb_eq. Qed.

Lemma collect_tnum_widths_flat (RIBBI_ttFonts : list TTFont) :
  Family.collect_tnum_widths RIBBI_ttFonts
  = fold_left (fun d p => Family.add_width d (fst p) (snd p))
      (flat_map Family.tnum_glyphs_of RIBBI_ttFonts) [].
Proof.
  unfold Family.collect_tnum_widths. generalize (@nil (Z * list string)).
  induction RIBBI_ttFonts as [|f fs IH]; intros d; cbn [fold_left flat_map].
  - reflexivity.
  - rewrite fold_left_app, IH. f_equal.
    generalize (Family.tnum_glyphs_of f). intros ps. revert d.
    induction ps as [|[id g] ps IHp]; intros d; cbn; [reflexivity | apply IHp].
Qed.

(** What [tnum_widths] holds after the glyphs [seen]: each width that
    occurs, once, with the names of the glyphs that have it, in order. *)
Lemma add_width_invariant (seen : list (string * Glyph)) :
  let d := fold_left (fun d p => Family.add_width d (fst p) (snd p)) seen [] in
  List.NoDup (map fst d)
  /\ forall w,
       dict_get Z.eqb w d
       = match map fst (List.filter (fun p => width (snd p) =? w) seen) with
         | [] => None
         | ids => Some ids
         end.
Proof.
  induction seen as [|p seen IH] using rev_ind; cbn zeta.
  - cbn. split; [constructor | reflexivity].
  - rewrite fold_left_app. cbn [fold_left].
    cbn zeta in IH. destruct IH as [Hnd Hget].
    set (d := fold_left (fun d p => Family.add_width d (fst p) (snd p)) seen [])
      in *.
    destruct p as [id g]. cbn [fst snd]. unfold Family.add_width.
    assert (Hkeys : List.NoDup
                      (map fst
                         match dict_get Z.eqb (width g) d with
                         | Some ids => dict_set Z.eqb (width g) (ids ++ [id]) d
                         | None => dict_set Z.eqb (width g) [id] d
                         end)).
    { destruct (dict_get Z.eqb (width g) d) eqn:E.
      - rewrite dict_set_keys, E. exact Hnd.
      - rewrite dict_set_keys, E.
        apply (dict_get_None_keys Z.eqb Z_eqb_spec') in E.
        apply NoDup_rev in Hnd. rewrite <- rev_involutive.
        apply NoDup_rev. rewrite rev_app_distr. cbn. constructor; [| exact Hnd].
        now rewrite <- in_rev. }
    split.
    + destruct (dict_get Z.eqb (width g) d); exact Hkeys.
    + intros w. rewrite List.filter_app, map_app. cbn [List.filter snd].
      destruct (Z.eqb_spec (width g) w) as [Heq | Hne].
      * subst w. cbn [map fst]. rewrite Hget.
        destruct (map fst (List.filter (fun p => width (snd p) =? width g) seen))
          as [|i ids]; rewrite (dict_get_set_same Z.eqb Z_eqb_spec'); reflexivity.
      * cbn [map]. rewrite app_nil_r.
        assert (Hother : forall v,
                   dict_get Z.eqb w (dict_set Z.eqb (width g) v d)
                   = dict_get Z.eqb w d).
        { intros v. apply (dict_get_set_other Z.eqb Z_eqb_spec'). congruence. }
        destruct (dict_get Z.eqb (width g) d); rewrite Hother; apply Hget.
Qed.

(** *** Suffixes *)

Lemma rev_string_acc_list (s acc : string) :
  list_ascii_of_string (rev_string_acc s acc)
  = rev (list_ascii_of_string s) ++ list_ascii_of_string acc.
Proof.
  revert acc. induction s as [|c s IH]; intros acc; cbn; [reflexivity |].
  rewrite IH. cbn. now rewrite <- app_assoc.
Qed.

Lemma rev_string_list (s : string) :
  list_ascii_of_string (rev_string s) = rev (list_ascii_of_string s).
Proof. unfold rev_string. rewrite rev_string_acc_list. cbn. apply app_nil_r. Qed.

Lemma prefix_list (p s : string) :
  String.prefix p s = true
  <-> exists r, list_ascii_of_string s = list_ascii_of_string p ++ r.
Proof.
  revert s. induction p as [|c p IH]; intros s.
  - split; [intros _; now eexists | now destruct s].
  - destruct s as [|d s]; cbn.
    + split; [discriminate | intros [r Hr]; discriminate Hr].
    + destruct (Ascii.ascii_dec c d) as [-> | Hne].
      * rewrite IH. split; intros [r Hr]; exists r.
        -- now rewrite Hr.
        -- now inversion Hr.
      * split; [discriminate |]. intros [r Hr]. inversion Hr. congruence.
Qed.

Lemma endswith_list (s suffix : string) :
  endswith s suffix = true
  <-> exists r, list_ascii_of_string s = r ++ list_ascii_of_string suffix.
Proof.
  unfold endswith. rewrite prefix_list, !rev_string_list. split.
  - intros [r Hr]. exists (rev r).
    apply (f_equal (@rev ascii)) in Hr.
    now rewrite rev_involutive, rev_app_distr, rev_involutive in Hr.
  - intros [r Hr]. exists (rev r). now rewrite Hr, rev_app_distr.
Qed.

Lemma list_ascii_inj (a b : string) :
  list_ascii_of_string a = list_ascii_of_string b -> a = b.
Proof.
  intros H. apply (f_equal string_of_list_ascii) in H.
  now rewrite !string_of_list_ascii_of_string in H.
Qed.

Lemma has_suffix_list (suffix s : string) :
  Claimed.has_suffix suffix s = true
  <-> exists r, list_ascii_of_string s = r ++ list_ascii_of_string suffix.
Proof.
  induction s as [|c s IH]; cbn [Claimed.has_suffix].
  - rewrite orb_false_r, String.eqb_eq. split.
    + intros <-. now exists [].
    + intros [r Hr]. cbn in Hr. symmetry in Hr.
      apply app_eq_nil in Hr as [_ Hr]. apply list_ascii_inj. now rewrite Hr.
  - rewrite orb_true_iff, String.eqb_eq, IH. split.
    + intros [<- | [r Hr]]; [now exists [] |].
      exists (c :: r). cbn. now rewrite Hr.
    + intros [[|d r] Hr].
      * left. now apply list_ascii_inj.
      * right. exists r. cbn in Hr. now inversion Hr.
Qed.

(** The test of the source and the suffix of the claim are the same test. *)
Lemma endswith_has_suffix (s suffix : string) :
  endswith s suffix = Claimed.has_suffix suffix s.
Proof.
  apply eq_true_iff_eq. now rewrite endswith_list, has_suffix_list.
Qed.

Lemma tnum_glyphs_of_family (RIBBI_ttFonts : list TTFont) :
  flat_map Family.tnum_glyphs_of RIBBI_ttFonts
  = Claimed.tnum_glyphs RIBBI_ttFonts.
Proof.
  unfold Claimed.tnum_glyphs. induction RIBBI_ttFonts as [|f fs IH];
    cbn [flat_map]; [reflexivity |].
  rewrite IH. f_equal. unfold Family.tnum_glyphs_of.
  apply List.filter_ext. intros [glyph_id glyph]. apply endswith_has_suffix.
Qed.

(** *** The dictionary of widths *)

Lemma distinct_In (x : Z) (l : list Z) : In x (Claimed.distinct l) <-> In x l.
Proof.
  induction l as [|a l IH]; cbn [Claimed.distinct In]; [tauto |].
  rewrite filter_In, IH. destruct (Z.eqb_spec x a) as [-> | Hne]; cbn.
  - split; [intros _; now left | intros _; now left].
  - split.
    + intros [H | [H _]]; [now left | now right].
    + intros [H | H]; [now left | right; now split].
Qed.

Lemma distinct_NoDup (l : list Z) : List.NoDup (Claimed.distinct l).
Proof.
  induction l as [|a l IH]; cbn [Claimed.distinct]; constructor.
  - rewrite filter_In. intros [_ H]. now rewrite Z.eqb_refl in H.
  - now apply List.NoDup_filter.
Qed.

Lemma distinct_snoc (l : list Z) (x : Z) :
  Claimed.distinct (l ++ [x])
  = Claimed.distinct l ++ (if existsb (Z.eqb x) l then [] else [x]).
Proof.
  induction l as [|a l IH]; cbn [app Claimed.distinct existsb]; [reflexivity |].
  rewrite IH, List.filter_app. cbn [app]. f_equal. f_equal.
  destruct (Z.eqb_spec x a) as [-> | Hne]; cbn [orb].
  - destruct (existsb (Z.eqb a) l); cbn; [reflexivity |].
    now rewrite Z.eqb_refl.
  - destruct (existsb (Z.eqb x) l); cbn; [reflexivity |].
    destruct (Z.eqb_spec x a); [contradiction | reflexivity].
Qed.

(** The keys of [tnum_widths] are the distinct widths of the glyphs seen, in
    the order in which they first occur. *)
Lemma add_width_keys (seen : list (string * Glyph)) :
  map fst (fold_left (fun d p => Family.add_width d (fst p) (snd p)) seen [])
  = Claimed.distinct (map (fun p => width (snd p)) seen).
Proof.
  induction seen as [|[id g] seen IH] using rev_ind; [reflexivity |].
  rewrite fold_left_app, map_app. cbn [fold_left map fst snd].
  rewrite distinct_snoc.
  set (d := fold_left (fun d p => Family.add_width d (fst p) (snd p)) seen [])
    in *.
  assert (Hget : dict_get Z.eqb (width g) d = None
                 <-> existsb (Z.eqb (width g))
                       (map (fun p => width (snd p)) seen) = false).
  { rewrite (dict_get_None_keys Z.eqb Z_eqb_spec'), IH, distinct_In.
    split.
    - intros Hout. destruct (existsb _ _) eqn:E; [| reflexivity].
      apply existsb_exists in E as (y & Hy & Heq). apply Z.eqb_eq in Heq.
      subst y. contradiction.
    - intros E Hin.
      assert (Ht : existsb (Z.eqb (width g))
                     (map (fun p => width (snd p)) seen) = true)
        by (apply existsb_exists; exists (width g); split;
            [exact Hin | apply Z.eqb_refl]).
      congruence. }
  unfold Family.add_width.
  destruct (dict_get Z.eqb (width g) d) as [ids |] eqn:E;
    rewrite dict_set_keys, E, IH.
  - destruct (existsb _ _); [now rewrite app_nil_r |].
    discriminate (proj2 Hget eq_refl).
  - now rewrite (proj1 Hget eq_refl).
Qed.

Lemma dict_of_entries {K V} (value : K -> V) (d : list (K * V)) :
  (forall k v, In (k, v) d -> v = value k) ->
  d = map (fun k => (k, value k)) (map fst d).
Proof.
  induction d as [|[k v] d IH]; intros H; cbn [map fst]; [reflexivity |].
  rewrite (H k v (or_introl eq_refl)). f_equal.
  apply IH. intros k' v' Hin. apply H. now right.
Qed.

Lemma dict_del_middle {K V} (eqb : K -> K -> bool) (k : K) (v : V)
    (before after : list (K * V)) :
  (forall a b, eqb a b = true <-> a = b) ->
  ~ In k (map fst before) ->
  dict_del eqb k (before ++ (k, v) :: after) = Some (before ++ after).
Proof.
  intros Hspec. induction before as [|[k' v'] before IH]; intros Hout;
    cbn [app dict_del].
  - now rewrite (proj2 (Hspec k k) eq_refl).
  - destruct (eqb k k') eqn:E.
    + apply Hspec in E. subst k'. exfalso. apply Hout. now left.
    + rewrite IH; [reflexivity |]. intros Hin. apply Hout. now right.
Qed.

(** The loop that finds [most_common_width] stops at the first entry with
    the largest number of glyphs. *)
Lemma most_common_first (d : Family.Widths) (n0 : nat) (m0 : option Z) :
  let r := fold_left
             (fun '(max_num, most_common_width) '(width, glyphs) =>
                if (max_num <? List.length glyphs)%nat
                then (List.length glyphs, Some width)
                else (max_num, most_common_width))
             d (n0, m0) in
  ((forall e, In e d -> (List.length (snd e) <= n0)%nat) /\ r = (n0, m0))
  \/ exists before w ids after,
       d = before ++ (w, ids) :: after
       /\ r = (List.length ids, Some w)
       /\ (n0 < List.length ids)%nat
       /\ (forall e, In e before -> (List.length (snd e) < List.length ids)%nat)
       /\ (forall e, In e after -> (List.length (snd e) <= List.length ids)%nat).
Proof.
  revert n0 m0. induction d as [|[w ids] d IH]; intros n0 m0; cbn zeta.
  - left. split; [intros e [] | reflexivity].
  - cbn [fold_left].
    destruct (Nat.ltb_spec n0 (List.length ids)) as [Hlt | Hge].
    + right.
      destruct (IH (List.length ids) (Some w))
        as [[Hall Hr] | (before & w' & ids' & after & -> & Hr & Hlt' & Hb & Ha)].
      * exists [], w, ids, d. split; [reflexivity |]. split; [exact Hr |].
        split; [exact Hlt |]. split; [intros e [] | exact Hall].
      * exists ((w, ids) :: before), w', ids', after.
        split; [reflexivity |]. split; [exact Hr |]. split; [lia |].
        split; [| exact Ha].
        intros e [<- | He]; [exact Hlt' | now apply Hb].
    + destruct (IH n0 m0)
        as [[Hall Hr] | (before & w' & ids' & after & -> & Hr & Hlt' & Hb & Ha)].
      * left. split; [| exact Hr].
        intros e [<- | He]; [exact Hge | now apply Hall].
      * right. exists ((w, ids) :: before), w', ids', after.
        split; [reflexivity |]. split; [exact Hr |]. split; [exact Hlt' |].
        split; [| exact Ha].
        intros e [<- | He]; [cbn; lia | now apply Hb].
Qed.

Lemma concat_comma_separated (l : list string) :
  join ", " l = Claimed.comma_separated l.
Proof.
  unfold join. induction l as [|x l IH]; [reflexivity |].
  cbn [String.concat Claimed.comma_separated]. destruct l; [reflexivity |].
  now rewrite IH.
Qed.

Lemma repr_widths_printed (d : Family.Widths) :
  Family.repr_widths d = Claimed.printed_mapping d.
Proof.
  unfold Family.repr_widths, Claimed.printed_mapping.
  rewrite concat_comma_separated. do 3 f_equal.
  apply map_ext. intros [w ids]. cbn [fst snd].
  unfold Claimed.printed_names. rewrite concat_comma_separated. reflexivity.
Qed.

(** C3.  The .tnum glyphs of the fonts are the glyphs whose name ends in
    [.tnum]; the distinct advance widths are taken in the order in which
    they first occur.  When there is more than one distinct width, the check
    yields exactly one FAIL with the code [inconsistent-widths]: the most
    common width is a width with the largest number of glyphs (of several
    such, the one that occurs first), and the mapping printed in the message
    holds every other distinct width, each once, with the names of the
    glyphs that have it.  With at most one distinct width the check yields
    exactly one PASS. *)
Theorem tnum_check_reports_the_outlier_widths (RIBBI_ttFonts : list TTFont) :
  let tnum := Claimed.tnum_glyphs RIBBI_ttFonts in
  let widths := Claimed.distinct (map (fun p => width (snd p)) tnum) in
  let glyphs_of w := map fst (List.filter (fun p => width (snd p) =? w) tnum) in
  let count w := List.length (glyphs_of w) in
  let result :=
    run (Family.com_google_fonts_check_family_tnum_horizontal_metrics
           RIBBI_ttFonts) in
  ((1 < List.length widths)%nat ->
   exists before most_common_width after,
     widths = before ++ most_common_width :: after
     /\ (forall w, In w before -> (count w < count most_common_width)%nat)
     /\ (forall w, In w after -> (count w <= count most_common_width)%nat)
     /\ result
        = MkRun
            [(FAIL,
              Message "inconsistent-widths"
                ("The most common tabular glyph width is "
                 +:+ str_int most_common_width
                 +:+ ". But there are other tabular glyphs with different widths"
                 +:+ " such as the following ones:" +:+ newline +:+ tab
                 +:+ Claimed.printed_mapping
                       (map (fun w => (w, glyphs_of w)) (before ++ after))
                 +:+ "."))]
            None)
  /\ ((List.length widths <= 1)%nat ->
      result = MkRun [(PASS, Text "OK")] None).
Proof.
  cbn zeta. rewrite <- tnum_glyphs_of_family.
  pose proof (add_width_invariant (flat_map Family.tnum_glyphs_of RIBBI_ttFonts))
    as Hinv.
  pose proof (add_width_keys (flat_map Family.tnum_glyphs_of RIBBI_ttFonts))
    as Hkeys.
  cbn zeta in Hinv. rewrite <- collect_tnum_widths_flat in Hinv, Hkeys.
  set (tnum := flat_map Family.tnum_glyphs_of RIBBI_ttFonts) in *.
  set (widths := Claimed.distinct (map (fun p => width (snd p)) tnum)) in *.
  set (glyphs_of := fun w =>
         map fst (List.filter (fun p => width (snd p) =? w) tnum)).
  unfold Family.com_google_fonts_check_family_tnum_horizontal_metrics.
  set (all := Family.collect_tnum_widths RIBBI_ttFonts) in *.
  destruct Hinv as [Hnd Hget].
  assert (Hlen : List.length all = List.length widths)
    by now rewrite <- Hkeys, length_map.
  assert (Hentry : forall w ids,
             In (w, ids) all -> ids = glyphs_of w /\ ids <> []).
  { intros w ids Hin.
    apply (dict_get_In Z.eqb Z_eqb_spec' w ids all Hnd) in Hin.
    rewrite Hget in Hin. unfold glyphs_of.
    destruct (map fst (List.filter (fun p => width (snd p) =? w) tnum));
      [discriminate Hin |].
    inversion Hin; subst. split; [reflexivity | discriminate]. }
  assert (Hall : all = map (fun w => (w, glyphs_of w)) widths).
  { rewrite <- Hkeys. apply dict_of_entries.
    intros w ids Hin. now apply Hentry. }
  split.
  - intros Hmany. rewrite <- Hlen in Hmany.
    apply Nat.ltb_lt in Hmany. rewrite Hmany.
    pose proof (most_common_first all 0 None) as Hmc. cbn zeta in Hmc.
    fold (Family.most_common all) in Hmc.
    destruct Hmc as [[Hzero _]
                    | (before & w & ids & after & Hsplit & Hr & _ & Hb & Ha)].
    { exfalso. destruct all as [|[w0 ids0] rest]; [discriminate Hmany |].
      destruct (Hentry w0 ids0 (or_introl eq_refl)) as [_ Hne].
      pose proof (Hzero _ (or_introl eq_refl)) as Hle. cbn in Hle.
      destruct ids0; [now contradiction Hne | cbn in Hle; lia]. }
    rewrite Hr.
    assert (Hout : ~ In w (map fst before)).
    { rewrite Hsplit, map_app in Hnd. cbn [map fst] in Hnd.
      apply NoDup_remove_2 in Hnd. intros Hin. apply Hnd.
      apply in_or_app. now left. }
    rewrite Hsplit, (dict_del_middle Z.eqb w ids before after Z_eqb_spec' Hout).
    rewrite Hsplit in Hall. symmetry in Hall.
    apply map_eq_app in Hall as (kb & krest & Hw & Hkb & Hrest).
    apply map_eq_cons in Hrest as (kw & ka & -> & Hkw & Hka).
    inversion Hkw; subst kw. subst ids.
    exists kb, w, ka. split; [exact Hw |].
    split.
    { intros w' Hin. apply (Hb (w', glyphs_of w')).
      rewrite <- Hkb. apply in_map_iff. now exists w'. }
    split.
    { intros w' Hin. apply (Ha (w', glyphs_of w')).
      rewrite <- Hka. apply in_map_iff. now exists w'. }
    cbn [mbind mret Gen_bind Gen_ret yield flow yielded app run emitted raised].
    rewrite <- Hkb, <- Hka, <- map_app.
    unfold Family.inconsistent_widths_text, Family.str_opt_int.
    rewrite repr_widths_printed. reflexivity.
  - intros Hfew. rewrite <- Hlen in Hfew.
    assert (Hnot : (1 <? List.length all)%nat = false) by (apply Nat.ltb_ge; lia).
    rewrite Hnot. reflexivity.
Qed.

(** ** [sorted] does not depend on the order of its argument *)

Lemma string_compare_le_trans (a b c : string) :
  String.compare a b <> Gt -> String.compare b c <> Gt ->
  String.compare a c <> Gt.
Proof.
  revert b c. induction a as [|x a IH]; intros [|y b] [|z c]; cbn;
    try congruence.
  unfold Ascii.compare.
  destruct (N.compare_spec (N_of_ascii x) (N_of_ascii y)) as [Hxy | Hxy | Hxy];
    destruct (N.compare_spec (N_of_ascii y) (N_of_ascii z)) as [Hyz | Hyz | Hyz];
    destruct (N.compare_spec (N_of_ascii x) (N_of_ascii z)) as [Hxz | Hxz | Hxz];
    try congruence; try lia.
  apply IH.
Qed.

Lemma string_leb_trans (a b c : string) :
  String.leb a b = true -> String.leb b c = true -> String.leb a c = true.
Proof.
  unfold String.leb. intros Hab Hbc.
  pose proof (string_compare_le_trans a b c) as H.
  destruct (String.compare a b); destruct (String.compare b c);
    destruct (String.compare a c); try reflexivity; try discriminate;
    exfalso; apply H; congruence.
Qed.

Lemma string_leb_false (a b : string) :
  String.leb a b = false -> String.leb b a = true.
Proof.
  intros H. destruct (String.leb_total a b) as [H1 | H1]; congruence.
Qed.

Lemma insert_sorted_comm (x y : string) (l : list string) :
  insert_sorted x (insert_sorted y l) = insert_sorted y (insert_sorted x l).
Proof.
  induction l as [|h l IH]; cbn.
  - destruct (String.leb x y) eqn:Exy; destruct (String.leb y x) eqn:Eyx;
      try reflexivity.
    + now rewrite (String.leb_antisym x y Exy Eyx).
    + apply string_leb_false in Exy. congruence.
  - destruct (String.leb y h) eqn:Eyh; destruct (String.leb x h) eqn:Exh; cbn.
    + destruct (String.leb x y) eqn:Exy; destruct (String.leb y x) eqn:Eyx;
        rewrite ?Exh, ?Eyh; try reflexivity.
      * now rewrite (String.leb_antisym x y Exy Eyx).
      * apply string_leb_false in Exy. congruence.
    + rewrite Eyh.
      destruct (String.leb x y) eqn:Exy; [| cbn; now rewrite Exh].
      rewrite (string_leb_trans x y h Exy Eyh) in Exh. discriminate Exh.
    + rewrite Exh.
      destruct (String.leb y x) eqn:Eyx; [| cbn; now rewrite Eyh].
      rewrite (string_leb_trans y x h Eyx Exh) in Eyh. discriminate Eyh.
    + rewrite Exh, Eyh. now rewrite IH.
Qed.

Lemma sorted_Permutation (l l' : list string) :
  Permutation l l' -> sorted l = sorted l'.
Proof.
  unfold sorted. induction 1 as [| x l l' _ IH | x y l | l l' l'' _ IH1 _ IH2];
    cbn.
  - reflexivity.
  - now rewrite IH.
  - apply insert_sorted_comm.
  - now rewrite IH1.
Qed.

Lemma sorted_set_iter (env : Env) (l : list string) :
  env_ok env -> sorted (set_iter env l) = sorted l.
Proof. intros [Hstr _]. apply sorted_Permutation, Hstr. Qed.

Lemma tnum_check_reports_the_outlier_widths_witness :
  (1 < List.length
         (Claimed.distinct
            (map (fun p => width (snd p))
               (Claimed.tnum_glyphs [Sample.regular; Sample.bold]))))%nat
  /\ exists text,
       run (Family.com_google_fonts_check_family_tnum_horizontal_metrics
              [Sample.regular; Sample.bold])
       = MkRun [(FAIL, Message "inconsistent-widths" text)] None.
Proof.
  assert (Hmany : (1 < List.length
                         (Claimed.distinct
                            (map (fun p => width (snd p))
                               (Claimed.tnum_glyphs
                                  [Sample.regular; Sample.bold]))))%nat).
  { vm_compute. lia. }
  split; [exact Hmany |].
  destruct (tnum_check_reports_the_outlier_widths [Sample.regular; Sample.bold])
    as [Hfail _].
  destruct (Hfail Hmany) as (before & w & after & _ & _ & _ & Hrun).
  eexists. exact Hrun.
Defined.

(** The run of the check on the two sample fonts: three .tnum glyphs are 500
    units wide and one, in the bold, is 560 units wide. *)
Example tnum_check_on_the_sample_family :
  run (Family.com_google_fonts_check_family_tnum_horizontal_metrics
         [Sample.regular; Sample.bold])
  = MkRun [(FAIL, Message "inconsistent-widths"
                    ("The most common tabular glyph width is 500."
                     +:+ " But there are other tabular glyphs with different widths"
                     +:+ " such as the following ones:" +:+ newline +:+ tab
                     +:+ "{560: ['one.tnum']}."))] None.
Proof. vm_compute. reflexivity. Qed.

(** ** Generators *)

Lemma gen_eta {A} (g : Gen A) : MkGen (yielded g) (flow g) = g.
Proof. now destruct g. Qed.

Lemma gen_bind_Next {A B} (out : list Emission) (a : A) (k : A -> Gen B) :
  (MkGen out (Next a) ≫= k) = MkGen (out ++ yielded (k a)) (flow (k a)).
Proof. reflexivity. Qed.

Lemma gen_bind_Return {A B} (out : list Emission) (k : A -> Gen B) :
  (MkGen out Return ≫= k) = MkGen out Return.
Proof. reflexivity. Qed.

Lemma gen_bind_Throw {A B} (out : list Emission) (e : Exn) (k : A -> Gen B) :
  (MkGen out (Throw e) ≫= k) = MkGen out (Throw e).
Proof. reflexivity. Qed.

Lemma gen_bind_ret_l {A B} (a : A) (k : A -> Gen B) : (mret a ≫= k) = k a.
Proof. unfold mbind, mret, Gen_bind, Gen_ret. cbn. apply gen_eta. Qed.

Lemma gen_bind_assoc {A B C} (m : Gen A) (f : A -> Gen B) (g : B -> Gen C) :
  ((m ≫= f) ≫= g) = (m ≫= fun a => f a ≫= g).
Proof.
  unfold mbind, Gen_bind. destruct m as [out [a | | e]]; cbn; try reflexivity.
  destruct (f a) as [out1 [b | | e]]; cbn; try reflexivity.
  now rewrite app_assoc.
Qed.

Lemma gen_bind_ext {A B} (m : Gen A) (f g : A -> Gen B) :
  (forall a, f a = g a) -> (m ≫= f) = (m ≫= g).
Proof.
  intros H. unfold mbind, Gen_bind. destruct (flow m); try reflexivity.
  now rewrite H.
Qed.

Lemma for_fold_gen_app {S A} (l1 l2 : list A) (s : S) (body : S -> A -> Gen S) :
  for_fold (l1 ++ l2) s body
  = (for_fold l1 s body ≫= fun s' => for_fold l2 s' body).
Proof.
  revert s. induction l1 as [|x l1 IH]; intros s; cbn [for_fold app].
  - now rewrite gen_bind_ret_l.
  - rewrite gen_bind_assoc. apply gen_bind_ext. intros s'. apply IH.
Qed.

(** ** Fonts that lack a metrics table *)

Lemma has_table_OS2 (f : TTFont) :
  has_table "OS/2" f = match OS2 f with Some _ => true | None => false end.
Proof.
  unfold has_table, keys, tag_if.
  destruct (OS2 f), (hhea f), (CFF f), (CFF2 f); reflexivity.
Qed.

Lemma has_table_hhea (f : TTFont) :
  has_table "hhea" f = match hhea f with Some _ => true | None => false end.
Proof.
  unfold has_table, keys, tag_if.
  destruct (OS2 f), (hhea f), (CFF f), (CFF2 f); reflexivity.
Qed.

Lemma missing_tables_sorted (env : Env) (f : TTFont) :
  env_ok env ->
  sorted (set_iter env (set_diff ["hhea"; "OS/2"]%string (keys f)))
  = match OS2 f with None => ["OS/2"%string] | Some _ => [] end
    ++ match hhea f with None => ["hhea"%string] | Some _ => [] end.
Proof.
  intros Hok. rewrite (sorted_set_iter env _ Hok).
  unfold set_diff, keys, tag_if.
  destruct (OS2 f), (hhea f), (CFF f), (CFF2 f); reflexivity.
Qed.

Lemma collect_vertical_metrics_next (state : bool * Metrics.VTable) (f : TTFont) :
  exists out state',
    Metrics.collect_vertical_metrics state f = MkGen out (Next state').
Proof.
  destruct state as [m v]. unfold Metrics.collect_vertical_metrics.
  rewrite has_table_OS2, has_table_hhea. unfold get_OS2, get_hhea.
  destruct (OS2 f), (hhea f); cbn; eauto.
Qed.

Lemma for_fold_gen_next {S A} (body : S -> A -> Gen S) (l : list A) (s : S) :
  (forall s x, exists out s', body s x = MkGen out (Next s')) ->
  exists out s', for_fold l s body = MkGen out (Next s').
Proof.
  intros Hbody. revert s. induction l as [|x l IH]; intros s; cbn [for_fold].
  - now exists [], s.
  - destruct (Hbody s x) as (out & s1 & ->).
    destruct (IH s1) as (out' & s2 & Hrest).
    rewrite gen_bind_Next, Hrest. now exists (out ++ out'), s2.
Qed.

(** C2, as the claim states it, fails for check_linegaps: the code of its
    FAIL is [lacks-table] whichever table is missing, so the code of a font
    without OS/2 is that of a font without hhea. *)
Lemma linegaps_code_does_not_name_the_table :
  map code_of (emitted (run (Metrics.check_linegaps Sample.env Sample.lacks_OS2)))
  = [Some "lacks-table"%string]
  /\ map code_of (emitted (run (Metrics.check_linegaps Sample.env Sample.lacks_hhea)))
     = [Some "lacks-table"%string]
  /\ ~ In (Some "lacks-OS/2"%string)
       (map code_of
          (emitted (run (Metrics.check_linegaps Sample.env Sample.lacks_OS2)))).
Proof.
  repeat split; try reflexivity.
  vm_compute. intros [H | []]. discriminate H.
Qed.

(** C2, amended: for a font that lacks OS/2, check_family_win_ascent_and_descent
    yields the single FAIL [lacks-OS/2]; check_family_vertical_metrics yields
    for it a FAIL [lacks-OS/2], or [lacks-hhea] when only hhea is missing,
    and its run is the same for any other font of that file name lacking
    the same table, whatever its metrics; check_linegaps yields one FAIL per
    missing table, each with the code [lacks-table] and the table named in
    the text only, and nothing else. *)
Theorem missing_table_fails_without_reading_metrics (env : Env) (f : TTFont) :
  env_ok env ->
  (OS2 f = None ->
   forall vmetrics,
     run (Metrics.check_family_win_ascent_and_descent f vmetrics)
     = MkRun [(FAIL, Message "lacks-OS/2" "Font file lacks OS/2 table")] None)
  /\ (forall before after,
        (OS2 f = None ->
         In (FAIL, Message "lacks-OS/2"
                     (basename (file_name f) +:+ " lacks an 'OS/2' table."))
            (emitted (run (Metrics.check_family_vertical_metrics
                             (before ++ f :: after)))))
        /\ (OS2 f <> None -> hhea f = None ->
            In (FAIL, Message "lacks-hhea"
                        (basename (file_name f) +:+ " lacks a 'hhea' table."))
               (emitted (run (Metrics.check_family_vertical_metrics
                                (before ++ f :: after)))))
        /\ (forall f',
              file_name f' = file_name f ->
              (OS2 f = None /\ OS2 f' = None)
              \/ (OS2 f <> None /\ OS2 f' <> None
                  /\ hhea f = None /\ hhea f' = None) ->
              run (Metrics.check_family_vertical_metrics (before ++ f' :: after))
              = run (Metrics.check_family_vertical_metrics (before ++ f :: after))))
  /\ (OS2 f = None \/ hhea f = None ->
      run (Metrics.check_linegaps env f)
      = MkRun (map (fun table_tag =>
                      (FAIL, Message "lacks-table"
                               ("Font lacks '" +:+ table_tag +:+ "' table.")))
                   (match OS2 f with None => ["OS/2"%string] | Some _ => [] end
                    ++ match hhea f with None => ["hhea"%string] | Some _ => [] end))
              None).
Proof.
  intros Hok. split; [| split].
  - intros Hno vm. unfold Metrics.check_family_win_ascent_and_descent.
    rewrite has_table_OS2, Hno. reflexivity.
  - intros before after.
    assert (Hrun : forall g : TTFont,
               exists out0 s0 out1 s1,
                 for_fold before (false, Metrics.vmetrics_init)
                   Metrics.collect_vertical_metrics = MkGen out0 (Next s0)
                 /\ Metrics.collect_vertical_metrics s0 g = MkGen out1 (Next s1)
                 /\ Metrics.check_family_vertical_metrics (before ++ g :: after)
                    = (MkGen (out0 ++ out1) (Next s1) ≫= fun s =>
                         for_fold after s Metrics.collect_vertical_metrics
                         ≫= Metrics.report_vertical_metrics)).
    { intros g.
      destruct (for_fold_gen_next Metrics.collect_vertical_metrics before
                  (false, Metrics.vmetrics_init) collect_vertical_metrics_next)
        as (out0 & s0 & H0).
      destruct (collect_vertical_metrics_next s0 g) as (out1 & s1 & H1).
      exists out0, s0, out1, s1. split; [exact H0 |]. split; [exact H1 |].
      unfold Metrics.check_family_vertical_metrics.
      rewrite for_fold_gen_app, H0, gen_bind_assoc, gen_bind_Next.
      cbn [for_fold]. rewrite gen_bind_assoc, H1, !gen_bind_Next.
      cbn [yielded flow]. now rewrite app_assoc. }
    assert (Hin : forall g e out1 s1 s0,
               Metrics.collect_vertical_metrics s0 g = MkGen out1 (Next s1) ->
               In e out1 -> forall out0,
               In e (emitted (run (MkGen (out0 ++ out1) (Next s1) ≫= fun s =>
                       for_fold after s Metrics.collect_vertical_metrics
                       ≫= Metrics.report_vertical_metrics)))).
    { intros g e out1 s1 s0 _ He out0. rewrite gen_bind_Next. unfold run.
      cbn [emitted yielded]. apply in_or_app. left. apply in_or_app. now right. }
    split; [| split].
    + intros Hno. destruct (Hrun f) as (out0 & s0 & out1 & s1 & _ & H1 & ->).
      apply (Hin f _ out1 s1 s0 H1).
      destruct s0 as [m v]. unfold Metrics.collect_vertical_metrics in H1.
      rewrite has_table_OS2, Hno in H1. cbn in H1. inversion H1. now left.
    + intros Hos Hno. destruct (Hrun f) as (out0 & s0 & out1 & s1 & _ & H1 & ->).
      apply (Hin f _ out1 s1 s0 H1).
      destruct s0 as [m v]. unfold Metrics.collect_vertical_metrics in H1.
      rewrite has_table_OS2, has_table_hhea, Hno in H1.
      destruct (OS2 f); [| contradiction]. cbn in H1. inversion H1. now left.
    + intros f' Hname Hsame.
      unfold Metrics.check_family_vertical_metrics.
      rewrite !for_fold_gen_app. cbn [for_fold].
      assert (Hstep : forall s, Metrics.collect_vertical_metrics s f'
                                = Metrics.collect_vertical_metrics s f).
      { intros [m v]. unfold Metrics.collect_vertical_metrics.
        rewrite !has_table_OS2, !has_table_hhea, Hname.
        destruct Hsame as [[-> ->] | (Hf & Hf' & -> & ->)]; [reflexivity |].
        destruct (OS2 f); [| contradiction].
        destruct (OS2 f'); [| contradiction]. reflexivity. }
      f_equal. f_equal. apply gen_bind_ext. intros s. now rewrite Hstep.
  - intros Hmiss. unfold Metrics.check_linegaps.
    rewrite (missing_tables_sorted env f Hok).
    destruct (OS2 f), (hhea f); try reflexivity.
    destruct Hmiss; discriminate.
Qed.

Lemma sample_env_ok : env_ok Sample.env.
Proof. split; intros l; reflexivity. Qed.

Lemma missing_table_fails_without_reading_metrics_witness :
  env_ok Sample.env
  /\ OS2 Sample.lacks_OS2 = None
  /\ run (Metrics.check_family_win_ascent_and_descent Sample.lacks_OS2
            (Metrics.vmetrics [Sample.lacks_OS2]))
     = MkRun [(FAIL, Message "lacks-OS/2" "Font file lacks OS/2 table")] None
  /\ run (Metrics.check_linegaps Sample.env Sample.lacks_OS2)
     = MkRun [(FAIL, Message "lacks-table" "Font lacks 'OS/2' table.")] None
  /\ run (Metrics.check_family_vertical_metrics [Sample.regular; Sample.lacks_OS2])
     = run (Metrics.check_family_vertical_metrics
              [Sample.regular;
               Sample.mk_font "Family-Regular" None None []]).
Proof.
  split; [exact sample_env_ok |]. split; [reflexivity |].
  destruct (missing_table_fails_without_reading_metrics Sample.env
              Sample.lacks_OS2 sample_env_ok) as (Hwin & Hvm & Hlg).
  split; [exact (Hwin eq_refl _) |].
  split; [exact (Hlg (or_introl eq_refl)) |].
  destruct (Hvm [Sample.regular] []) as (_ & _ & Hsame).
  apply (Hsame (Sample.mk_font "Family-Regular" None None []) eq_refl).
  left. split; reflexivity.
Defined.

(** ** The cutoff of the outline checks *)

(** A loop whose turn accumulates warnings and returns after a PASS once
    there are more than the cutoff: when the warnings of some prefix of the
    items exceed the cutoff, the loop yields the PASS and returns, whatever
    follows the prefix. *)
Lemma cutoff_loop {X} (collect : list string -> X -> Res (list string))
    (turn : list string -> X -> Gen (list string)) (summary : Msg) :
  (forall ws x,
     turn ws x
     = match collect ws x with
       | Ok ws' =>
           if (Outline.FALSE_POSITIVE_CUTOFF <? List.length ws')%nat
           then MkGen [(PASS, summary)] Return
           else MkGen [] (Next ws')
       | Raised e => MkGen [] (Throw e)
       end) ->
  forall before item after ws0 ws,
    for_fold (before ++ [item]) ws0 collect = Ok ws ->
    (Outline.FALSE_POSITIVE_CUTOFF < List.length ws)%nat ->
    for_fold (before ++ item :: after) ws0 turn = MkGen [(PASS, summary)] Return.
Proof.
  intros Hturn before item after.
  induction before as [|b bs IH]; intros ws0 ws Hacc Hmany;
    cbn [app for_fold] in *.
  - rewrite Hturn.
    destruct (collect ws0 item) as [ws1 | e]; [| discriminate Hacc].
    cbn in Hacc. inversion Hacc; subst ws1.
    apply Nat.ltb_lt in Hmany. rewrite Hmany. reflexivity.
  - rewrite Hturn.
    destruct (collect ws0 b) as [ws1 | e]; [| discriminate Hacc].
    cbn in Hacc.
    destruct (Outline.FALSE_POSITIVE_CUTOFF <? List.length ws1)%nat;
      [reflexivity |].
    rewrite gen_bind_Next. rewrite (IH ws1 ws Hacc Hmany). reflexivity.
Qed.

Lemma alignment_miss_turn_spec (env : Env) (alignments : list (string * Z))
    (ws : list string) (item : (string * string) * list BezierPath) :
  Outline.alignment_miss_turn env alignments ws item
  = match Outline.glyph_alignment_misses env alignments (fst item) (snd item) ws with
    | Ok ws' =>
        if (Outline.FALSE_POSITIVE_CUTOFF <? List.length ws')%nat
        then MkGen [(PASS, Text
               ("So many Y-coordinates of points were close to"
                +:+ " boundaries that this was probably by design."))] Return
        else MkGen [] (Next ws')
    | Raised e => MkGen [] (Throw e)
    end.
Proof.
  destruct item as [glyph outlines]. unfold Outline.alignment_miss_turn.
  cbn [fst snd].
  destruct (Outline.glyph_alignment_misses env alignments glyph outlines ws)
    as [ws' | e]; [| reflexivity].
  cbn [lift]. rewrite gen_bind_Next.
  destruct (Outline.FALSE_POSITIVE_CUTOFF <? List.length ws')%nat; reflexivity.
Qed.

Lemma short_segments_turn_spec (ws : list string)
    (item : (string * string) * list BezierPath) :
  Outline.short_segments_turn ws item
  = match Ok (Outline.glyph_short_segments (fst item) (snd item) ws) with
    | Ok ws' =>
        if (Outline.FALSE_POSITIVE_CUTOFF <? List.length ws')%nat
        then MkGen [(PASS, Text
               "So many short segments were found that this was probably by design.")]
               Return
        else MkGen [] (Next ws')
    | Raised e => MkGen [] (Throw e)
    end.
Proof.
  destruct item as [glyph outlines]. unfold Outline.short_segments_turn.
  cbn [fst snd].
  destruct (Outline.FALSE_POSITIVE_CUTOFF
            <? List.length (Outline.glyph_short_segments glyph outlines ws))%nat;
    reflexivity.
Qed.

Lemma colinear_vectors_turn_spec (env : Env) (ws : list string)
    (item : (string * string) * list BezierPath) :
  Outline.colinear_vectors_turn env ws item
  = match Ok (Outline.glyph_colinear_vectors env (fst item) (snd item) ws) with
    | Ok ws' =>
        if (Outline.FALSE_POSITIVE_CUTOFF <? List.length ws')%nat
        then MkGen [(PASS, Text
               ("So many colinear vectors were found"
                +:+ " that this was probably by design."))] Return
        else MkGen [] (Next ws')
    | Raised e => MkGen [] (Throw e)
    end.
Proof.
  destruct item as [glyph outlines]. unfold Outline.colinear_vectors_turn.
  cbn [fst snd].
  destruct (Outline.FALSE_POSITIVE_CUTOFF
            <? List.length (Outline.glyph_colinear_vectors env glyph outlines ws))%nat;
    reflexivity.
Qed.

Lemma for_fold_res_pure {S A} (f : S -> A -> S) (l : list A) (s : S) :
  for_fold l s (fun s x => Ok (f s x)) = Ok (fold_left f l s).
Proof.
  revert s. induction l as [|x l IH]; intros s; cbn; [reflexivity | apply IH].
Qed.

(** C4, as the claim states it, fails for check_outline_alignment_miss: on a
    font whose OS/2 table is older than version 2 the summary PASS comes
    after a WARN.  The first glyph of the sample has 101 misaligned points. *)
Lemma alignment_miss_warns_before_the_summary_pass :
  Nat.lt Outline.FALSE_POSITIVE_CUTOFF
    (List.length
       (match Outline.glyph_alignment_misses Sample.env
                [("baseline", 0); ("ascender", 800); ("descender", -200)]%string
                ("a", "a (U+0061)")%string [Sample.busy_path] [] with
        | Ok ws => ws
        | Raised _ => []
        end))
  /\ map (fun e => (status_of e, code_of e))
       (emitted (run (Outline.check_outline_alignment_miss Sample.env
                        Sample.old_os2 Sample.busy_outlines [])))
     = [(WARN, Some "skip-cap-x-height-alignment"%string); (PASS, None)].
Proof. split; vm_compute; [unfold Nat.lt; lia | reflexivity]. Qed.

(** C4, amended: once the warnings accumulated over the glyphs up to some
    glyph exceed FALSE_POSITIVE_CUTOFF, check_outline_short_segments and
    check_outline_colinear_vectors yield exactly one summary PASS and
    nothing else, whatever glyphs follow; check_outline_alignment_miss
    yields that one summary PASS and no found-misalignments WARN, preceded
    by the WARN skip-cap-x-height-alignment exactly when the OS/2 table is
    older than version 2. *)
Theorem cutoff_yields_one_summary_pass (env : Env) (ttFont : TTFont)
    (config : Config) (before after : OutlinesDict)
    (item : (string * string) * list BezierPath) :
  (forall os2 pre alignments ws,
     OS2 ttFont = Some os2 ->
     Outline.alignment_lines os2 = MkGen pre (Next alignments) ->
     for_fold (before ++ [item]) []
       (fun ws x =>
          Outline.glyph_alignment_misses env alignments (fst x) (snd x) ws)
     = Ok ws ->
     (Outline.FALSE_POSITIVE_CUTOFF < List.length ws)%nat ->
     run (Outline.check_outline_alignment_miss env ttFont
            (before ++ item :: after) config)
     = MkRun (pre ++ [(PASS, Text
                ("So many Y-coordinates of points were close to"
                 +:+ " boundaries that this was probably by design."))]) None
     /\ (2 <= version os2 -> pre = [])
     /\ (version os2 < 2 ->
         map (fun e => (status_of e, code_of e)) pre
         = [(WARN, Some "skip-cap-x-height-alignment"%string)]))
  /\ ((Outline.FALSE_POSITIVE_CUTOFF
       < List.length
           (fold_left (fun ws x => Outline.glyph_short_segments (fst x) (snd x) ws)
              (before ++ [item]) []))%nat ->
      run (Outline.check_outline_short_segments env ttFont
             (before ++ item :: after) config)
      = MkRun [(PASS, Text
          "So many short segments were found that this was probably by design.")]
          None)
  /\ ((Outline.FALSE_POSITIVE_CUTOFF
       < List.length
           (fold_left
              (fun ws x => Outline.glyph_colinear_vectors env (fst x) (snd x) ws)
              (before ++ [item]) []))%nat ->
      run (Outline.check_outline_colinear_vectors env ttFont
             (before ++ item :: after) config)
      = MkRun [(PASS, Text
          ("So many colinear vectors were found"
           +:+ " that this was probably by design."))] None).
Proof.
  split; [| split].
  - intros os2 pre alignments ws Hos Hlines Hacc Hmany.
    split; [| split].
    + unfold Outline.check_outline_alignment_miss, get_OS2. rewrite Hos.
      cbn [lift]. rewrite gen_bind_Next, Hlines, gen_bind_Next.
      rewrite (cutoff_loop
                 (fun ws x =>
                    Outline.glyph_alignment_misses env alignments (fst x) (snd x) ws)
                 _ _ (alignment_miss_turn_spec env alignments)
                 before item after [] ws Hacc Hmany).
      rewrite gen_bind_Return. reflexivity.
    + intros Hv. unfold Outline.alignment_lines in Hlines.
      apply Z.leb_le in Hv. rewrite Hv in Hlines. now inversion Hlines.
    + intros Hv. unfold Outline.alignment_lines in Hlines.
      apply Z.leb_gt in Hv. rewrite Hv in Hlines.
      inversion Hlines. reflexivity.
  - intros Hmany. unfold Outline.check_outline_short_segments.
    rewrite (cutoff_loop
               (fun ws x => Ok (Outline.glyph_short_segments (fst x) (snd x) ws))
               _ _ short_segments_turn_spec before item after [] _
               (for_fold_res_pure _ _ _) Hmany).
    reflexivity.
  - intros Hmany. unfold Outline.check_outline_colinear_vectors.
    rewrite (cutoff_loop
               (fun ws x =>
                  Ok (Outline.glyph_colinear_vectors env (fst x) (snd x) ws))
               _ _ (colinear_vectors_turn_spec env) before item
               after [] _ (for_fold_res_pure _ _ _) Hmany).
    reflexivity.
Qed.

Lemma cutoff_yields_one_summary_pass_witness :
  map status_of
    (emitted (run (Outline.check_outline_alignment_miss Sample.env
                     Sample.regular Sample.busy_outlines [])))
  = [PASS]
  /\ map status_of
       (emitted (run (Outline.check_outline_short_segments Sample.env
                        Sample.regular Sample.busy_outlines [])))
     = [PASS]
  /\ map status_of
       (emitted (run (Outline.check_outline_colinear_vectors Sample.env
                        Sample.regular Sample.busy_outlines [])))
     = [PASS].
Proof.
  destruct (cutoff_yields_one_summary_pass Sample.env Sample.regular [] []
              [(("b", "b (U+0062)"), [Sample.clean_path])]%string
              (("a", "a (U+0061)"), [Sample.busy_path])%string)
    as (Halign & Hshort & Hcol).
  split; [| split].
  - assert (Hacc : for_fold
                     ([] ++ [(("a", "a (U+0061)"), [Sample.busy_path])]%string) []
                     (fun ws x =>
                        Outline.glyph_alignment_misses Sample.env
                          [("baseline", 0); ("ascender", 800); ("descender", -200);
                           ("x-height", 500); ("cap-height", 700)]%string
                          (fst x) (snd x) ws)
                   = Ok (match Outline.glyph_alignment_misses Sample.env
                                 [("baseline", 0); ("ascender", 800);
                                  ("descender", -200); ("x-height", 500);
                                  ("cap-height", 700)]%string
                                 ("a", "a (U+0061)")%string [Sample.busy_path] [] with
                         | Ok ws => ws
                         | Raised _ => []
                         end)).
    { vm_compute. reflexivity. }
    destruct (Halign Sample.os2 [] _ _ eq_refl eq_refl Hacc) as (Hrun & _).
    + vm_compute. lia.
    + exact (f_equal (fun r => map status_of (emitted r)) Hrun).
  - assert (Hmany : (Outline.FALSE_POSITIVE_CUTOFF
                     < List.length
                         (fold_left
                            (fun ws x =>
                               Outline.glyph_short_segments (fst x) (snd x) ws)
                            ([] ++ [(("a", "a (U+0061)"), [Sample.busy_path])]%string)
                            []))%nat).
    { vm_compute. lia. }
    exact (f_equal (fun r => map status_of (emitted r)) (Hshort Hmany)).
  - assert (Hmany : (Outline.FALSE_POSITIVE_CUTOFF
                     < List.length
                         (fold_left
                            (fun ws x =>
                               Outline.glyph_colinear_vectors Sample.env
                                 (fst x) (snd x) ws)
                            ([] ++ [(("a", "a (U+0061)"), [Sample.busy_path])]%string)
                            []))%nat).
    { vm_compute. lia. }
    exact (f_equal (fun r => map status_of (emitted r)) (Hcol Hmany)).
Defined.

(** ** The traversal of the subroutine call tree *)





(** The subroutine tables and biases that a traversal reads. *)
Local Abbreviation tables i :=
  (Cff.subrs i, Cff.global_subrs i, Cff.gsubr_bias i, Cff.subr_bias i).

(** The subroutine that the loop looks up, on the dictionary [info], for a
    call that it meets. *)
Local Abbreviation looked_up info operator operand sub :=
  ((operator = TOp "callgsubr"
    /\ Cff.called_program (Some (Cff.global_subrs info))
         (Some (Cff.gsubr_bias info)) operand = Ok sub)
   \/ (operator = TOp "callsubr"
       /\ Cff.called_program (Cff.subrs info) (Cff.subr_bias info) operand
          = Ok sub)).







(** The traversal of the sample charstring: it stops at depth 11. *)
Example cyclic_subroutine_reaches_depth_11 :
  option_map
    (fun r => match r with
              | Ok info' => Cff.max_depth info'
              | Raised _ => -1
              end)
    (Cff._traverse_subr_call_tree 12
       (Cff.info_init (Some Sample.cyclic_subrs) [] 107 (Some 107))
       [TInt (-107); TOp "callsubr"; TOp "endchar"] 0)
  = Some 11.
Proof. vm_compute. reflexivity. Qed.

(** A charstring whose calls nest three deep is traversed and not listed. *)
Example shallow_nesting_is_not_listed :
  let subrs := Some [[TInt (-106); TOp "callsubr"];
                     [TInt (-105); TOp "callsubr"];
                     [TOp "return"]] in
  match Cff.analyze_glyph subrs [] 107 (Some 107) 0 Cff.CFFAnalysis_init "a"
          ({| decompiles_to := [TInt (-107); TOp "callsubr"; TOp "endchar"];
              recursion_error := false; program := None |}, None) with
  | Ok (analysis', _, Some info') =>
      Cff.max_depth info' = 3 /\ Cff.glyphs_exceed_max analysis' = []
  | _ => False
  end.
Proof. vm_compute. split; reflexivity. Qed.

(** ** Checks that work on a copy of the font object *)

Lemma fresh_loc_unused (h : store) : h !! fresh_loc h = None.
Proof.
  unfold fresh_loc. apply not_elem_of_dom. apply is_fresh.
Qed.

Lemma sgen_bind_Next {A B} (m : SGen A) (k : A -> SGen B) (h h1 : store)
    (a : A) :
  m h = (h1, MkGen [] (Next a)) -> (m ≫= k) h = k a h1.
Proof.
  intros Hm. unfold mbind, SGen_bind. rewrite Hm. cbn [flow yielded].
  now destruct (k a h1) as [h2 [out fl]].
Qed.

Lemma sgen_bind_unfold {A B} (m : SGen A) (k : A -> SGen B) (h : store) :
  (m ≫= k) h
  = let (h1, g) := m h in
    match flow g with
    | Next a =>
        let (h2, r) := k a h1 in
        (h2, MkGen (yielded g ++ yielded r) (flow r))
    | Return => (h1, MkGen (yielded g) Return)
    | Throw e => (h1, MkGen (yielded g) (Throw e))
    end.
Proof. reflexivity. Qed.

Lemma sgen_bind_Return {A B} (m : SGen A) (k : A -> SGen B) (h h1 : store)
    (out : list Emission) :
  m h = (h1, MkGen out Return) -> (m ≫= k) h = (h1, MkGen out Return).
Proof. intros Hm. unfold mbind, SGen_bind. now rewrite Hm. Qed.

Lemma sgen_bind_Throw {A B} (m : SGen A) (k : A -> SGen B) (h h1 : store)
    (out : list Emission) (e : Exn) :
  m h = (h1, MkGen out (Throw e)) -> (m ≫= k) h = (h1, MkGen out (Throw e)).
Proof. intros Hm. unfold mbind, SGen_bind. now rewrite Hm. Qed.

Lemma sdeepcopy_run (l : loc) (h : store) (f : TTFont) :
  h !! l = Some f ->
  sdeepcopy l h = (<[fresh_loc h := f]> h, MkGen [] (Next (fresh_loc h))).
Proof. intros Hl. unfold sdeepcopy, deepcopy. now rewrite Hl. Qed.

Lemma deref_copy (c : loc) (g : TTFont) (h : store) :
  deref c (<[c := g]> h) = (<[c := g]> h, MkGen [] (Next g)).
Proof. unfold deref. now rewrite lookup_insert_eq. Qed.

Lemma deref_other (l c : loc) (f g : TTFont) (h : store) :
  h !! l = Some f -> h !! c = None ->
  deref l (<[c := g]> h) = (<[c := g]> h, MkGen [] (Next f)).
Proof.
  intros Hl Hc. unfold deref. rewrite lookup_insert_ne; [now rewrite Hl |].
  intros ->. congruence.
Qed.

Lemma sdraw_copy (c : loc) (name : string) (g : TTFont) (h : store) :
  sdraw c name (<[c := g]> h)
  = match lookup_glyph name (glyphSet g) with
    | Some gl =>
        (<[c := set_drawn (name :: drawn g) g]> h,
         MkGen [] (Next (glyph_bounds gl)))
    | None => (<[c := g]> h, MkGen [] (Throw (KeyError name)))
    end.
Proof.
  unfold sdraw, draw. rewrite lookup_insert_eq.
  destruct (lookup_glyph name (glyphSet g)); [| reflexivity].
  now rewrite insert_insert_eq.
Qed.

Lemma require_sample_glyphs_run (gs : list (string * Glyph)) :
  Metrics.require_sample_glyphs gs
  = if forallb (fun n => in_glyphset n gs) Metrics.SOME_UPPERCASE_GLYPHS
    then MkGen [] (Next tt)
    else MkGen [(SKIP, Message "lacks-ascii"
                   ("The implementation of this check relies on a few samples"
                    +:+ " of uppercase latin characters that are not available in this font."))]
           Return.
Proof.
  unfold Metrics.require_sample_glyphs.
  induction Metrics.SOME_UPPERCASE_GLYPHS as [|n names IH]; [reflexivity |].
  cbn [for_ forallb]. destruct (in_glyphset n gs); cbn [negb andb].
  - unfold pass. rewrite gen_bind_ret_l. exact IH.
  - reflexivity.
Qed.

(** The second loop of check_caps_vertically_centered draws every sample
    glyph on the copy and collects the bounds. *)
Lemma draw_sample_glyphs_run (c : loc) (h : store) (names : list string) :
  forall (g : TTFont) (lists : list Q * list Q),
    forallb (fun n => in_glyphset n (glyphSet g)) names = true ->
    for_fold names lists (Metrics.draw_sample_glyph c) (<[c := g]> h)
    = (<[c := set_drawn (rev names ++ drawn g) g]> h,
       MkGen []
         (Next (fst lists
                ++ map (fun n => match lookup_glyph n (glyphSet g) with
                                 | Some gl => yMax (glyph_bounds gl)
                                 | None => 0%Q
                                 end) names,
                snd lists
                ++ map (fun n => match lookup_glyph n (glyphSet g) with
                                 | Some gl => yMin (glyph_bounds gl)
                                 | None => 0%Q
                                 end) names))).
Proof.
  induction names as [|n names IH]; intros g [hs ls] Hall.
  - cbn. rewrite !app_nil_r.
    replace (set_drawn (drawn g) g) with g by now destruct g.
    now rewrite insert_insert_eq || reflexivity.
  - cbn [forallb] in Hall. apply andb_prop in Hall as [Hn Hall].
    unfold in_glyphset in Hn.
    destruct (lookup_glyph n (glyphSet g)) as [gl |] eqn:Hgl; [| discriminate Hn].
    cbn [for_fold].
    assert (Hstep : Metrics.draw_sample_glyph c (hs, ls) n (<[c := g]> h)
                    = (<[c := set_drawn (n :: drawn g) g]> h,
                       MkGen [] (Next (hs ++ [yMax (glyph_bounds gl)],
                                       ls ++ [yMin (glyph_bounds gl)])))).
    { unfold Metrics.draw_sample_glyph.
      erewrite sgen_bind_Next; [| rewrite sdraw_copy, Hgl; reflexivity].
      reflexivity. }
    erewrite sgen_bind_Next; [| exact Hstep].
    rewrite (IH (set_drawn (n :: drawn g) g)); [| exact Hall].
    cbn [fst snd map glyphSet set_drawn drawn rev].
    rewrite Hgl, <- !app_assoc. reflexivity.
Qed.

(** One step of a body in the store: the first action yields nothing and
    goes on. *)
Ltac sgen_step tac :=
  erewrite sgen_bind_Next; [| tac]; cbv beta zeta iota; cbn [fst snd app].

(** What check_caps_vertically_centered does on a store that holds the font
    [f] at [l]: the copy is the only object it writes. *)
Lemma check_caps_vertically_centered_run (l : loc) (h : store) (f : TTFont) :
  h !! l = Some f ->
  Metrics.check_caps_vertically_centered l h
  = if forallb (fun n => in_glyphset n (glyphSet f)) Metrics.SOME_UPPERCASE_GLYPHS
    then
      (<[fresh_loc h := set_drawn (rev Metrics.SOME_UPPERCASE_GLYPHS ++ drawn f) f]> h,
       Metrics.caps_verdict
         (set_drawn (rev Metrics.SOME_UPPERCASE_GLYPHS ++ drawn f) f) f
         (map (fun n => match lookup_glyph n (glyphSet f) with
                        | Some gl => yMax (glyph_bounds gl)
                        | None => 0%Q
                        end) Metrics.SOME_UPPERCASE_GLYPHS)
         (map (fun n => match lookup_glyph n (glyphSet f) with
                        | Some gl => yMin (glyph_bounds gl)
                        | None => 0%Q
                        end) Metrics.SOME_UPPERCASE_GLYPHS))
    else
      (<[fresh_loc h := f]> h,
       MkGen [(SKIP, Message "lacks-ascii"
                 ("The implementation of this check relies on a few samples"
                  +:+ " of uppercase latin characters that are not available in this font."))]
         Return).
Proof.
  intros Hl. unfold Metrics.check_caps_vertically_centered.
  sgen_step ltac:(exact (sdeepcopy_run l h f Hl)).
  sgen_step ltac:(apply deref_copy).
  rewrite require_sample_glyphs_run.
  destruct (forallb (fun n => in_glyphset n (glyphSet f))
              Metrics.SOME_UPPERCASE_GLYPHS) eqn:Hall.
  - sgen_step ltac:(reflexivity).
    sgen_step ltac:(now apply draw_sample_glyphs_run).
    sgen_step ltac:(apply deref_copy).
    sgen_step ltac:(exact (deref_other l _ f _ h Hl (fresh_loc_unused h))).
    reflexivity.
  - erewrite sgen_bind_Return; reflexivity.
Qed.

(** What check_typoascender_exceeds_Agrave does on a store that holds the
    font [f] at [l]. *)
Lemma check_typoascender_exceeds_Agrave_run (env : Env) (l : loc) (h : store)
    (f : TTFont) :
  h !! l = Some f ->
  Metrics.check_typoascender_exceeds_Agrave env l h
  = if negb (has_table "OS/2" f) then
      (<[fresh_loc h := f]> h,
       MkGen [(FAIL, Message "lacks-OS/2" "Font file lacks OS/2 table")] Return)
    else
      match lookup_glyph "Agrave" (glyphSet f),
            lookup_glyph "uni00C0" (glyphSet f) with
      | Some gl, _ =>
          (<[fresh_loc h := set_drawn ("Agrave"%string :: drawn f) f]> h,
           Metrics.typoascender_verdict env
             (set_drawn ("Agrave"%string :: drawn f) f) (glyph_bounds gl))
      | None, Some gl =>
          (<[fresh_loc h := set_drawn ("uni00C0"%string :: drawn f) f]> h,
           Metrics.typoascender_verdict env
             (set_drawn ("uni00C0"%string :: drawn f) f) (glyph_bounds gl))
      | None, None =>
          (<[fresh_loc h := f]> h,
           MkGen [(SKIP, Message "lacks-Agrave"
                     "Font file lacks the /Agrave, so it can’t be compared with typoAscender")]
             Return)
      end.
Proof.
  intros Hl. unfold Metrics.check_typoascender_exceeds_Agrave.
  sgen_step ltac:(exact (sdeepcopy_run l h f Hl)).
  sgen_step ltac:(apply deref_copy).
  destruct (negb (has_table "OS/2" f)).
  { erewrite sgen_bind_Return; reflexivity. }
  sgen_step ltac:(reflexivity).
  unfold in_glyphset.
  destruct (lookup_glyph "Agrave" (glyphSet f)) as [gl |] eqn:HA.
  - cbn [negb andb]. sgen_step ltac:(reflexivity).
    sgen_step ltac:(unfold try_except_KeyError; rewrite sdraw_copy, HA;
                    reflexivity).
    sgen_step ltac:(apply deref_copy).
    reflexivity.
  - destruct (lookup_glyph "uni00C0" (glyphSet f)) as [gl |] eqn:HU.
    + cbn [negb andb]. sgen_step ltac:(reflexivity).
      sgen_step ltac:(unfold try_except_KeyError; rewrite sdraw_copy, HA;
                      cbn [flow]; rewrite sdraw_copy, HU; reflexivity).
      sgen_step ltac:(apply deref_copy).
      reflexivity.
    + cbn [negb andb]. erewrite sgen_bind_Return; reflexivity.
Qed.

Lemma caps_verdict_run (font_copy font : TTFont) (hs ls : list Q) :
  List.length hs = 12%nat -> List.length ls = 12%nat ->
  match hhea font with
  | None => Metrics.caps_verdict font_copy font hs ls
            = MkGen [] (Throw (KeyError "hhea"))
  | Some _ =>
      Metrics.caps_verdict font_copy font hs ls
      = MkGen [(WARN, Message "vertical-metrics-not-centered"
                  "Uppercase glyphs are not vertically centered in the em box.")]
          (Next tt)
      \/ Metrics.caps_verdict font_copy font hs ls
         = MkGen [(PASS, Text
                     "Uppercase glyphs are vertically centered in the em box.")]
             (Next tt)
  end.
Proof.
  intros Hhs Hls. unfold Metrics.caps_verdict, Metrics.py_div, get_hhea.
  rewrite Hhs, Hls. cbn [lift]. rewrite !gen_bind_Next.
  destruct (hhea font) as [hh |]; [| reflexivity].
  cbn [lift]. rewrite !gen_bind_Next.
  match goal with
  | |- context [if ?b then _ else _] => destruct b
  end; [left | right]; reflexivity.
Qed.

(** What of C10 holds: on every store, the lists that
    check_caps_vertically_centered averages have twelve elements, so it
    never raises ZeroDivisionError; it yields at most one outcome, exactly
    one SKIP, WARN or PASS when it does not raise, and when it raises it is
    the KeyError of a font without hhea table. *)
Lemma caps_check_outcomes (l : loc) (h : store) (f : TTFont) :
  h !! l = Some f ->
  let r := run (snd (Metrics.check_caps_vertically_centered l h)) in
  raised r <> Some ZeroDivisionError
  /\ (raised r = None ->
      exists s m, emitted r = [(s, m)] /\ (s = SKIP \/ s = WARN \/ s = PASS))
  /\ (forall e, raised r = Some e ->
        e = KeyError "hhea" /\ hhea f = None /\ emitted r = []).
Proof.
  intros Hl. cbn zeta. rewrite (check_caps_vertically_centered_run l h f Hl).
  destruct (forallb (fun n => in_glyphset n (glyphSet f))
              Metrics.SOME_UPPERCASE_GLYPHS).
  - cbn [snd].
    match goal with
    | |- context [Metrics.caps_verdict ?a ?b ?hs ?ls] =>
        pose proof (caps_verdict_run a b hs ls
                      (length_map _ Metrics.SOME_UPPERCASE_GLYPHS)
                      (length_map _ Metrics.SOME_UPPERCASE_GLYPHS)) as Hv
    end.
    destruct (hhea f) as [hh |].
    + destruct Hv as [-> | ->]; cbn; (split; [discriminate |]);
        (split; [| discriminate]); intros _; eauto 6.
    + rewrite Hv. cbn. split; [discriminate |]. split; [discriminate |].
      intros e He. inversion He. auto.
  - cbn. split; [discriminate |]. split; [| discriminate].
    intros _. eauto 6.
Qed.

(** C10: the claim fails on the code at a font that has the twelve sample
    glyphs but no hhea table: the check raises KeyError before it yields
    anything. *)
Lemma caps_check_raises_on_a_font_without_hhea :
  snd (Registry.run_check Sample.env Registry.caps_vertically_centered
         Sample.args (Sample.store_of Sample.lacks_hhea))
  = MkRun [] (Some (KeyError "hhea")).
Proof. vm_compute. reflexivity. Qed.

(** ** The shared font objects are not written *)

Lemma sgen_bind_keeps_store {A B} (m : SGen A) (k : A -> SGen B) :
  (forall h, fst (m h) = h) -> (forall a h, fst (k a h) = h) ->
  forall h, fst ((m ≫= k) h) = h.
Proof.
  intros Hm Hk h. unfold mbind, SGen_bind.
  specialize (Hm h). destruct (m h) as [h1 g]. cbn in Hm. subst h1.
  destruct (flow g) as [a | | e]; [| reflexivity | reflexivity].
  specialize (Hk a h). destruct (k a h) as [h2 r]. exact Hk.
Qed.

Lemma gen_keeps_store {A} (g : Gen A) (h : store) : fst (gen g h) = h.
Proof. reflexivity. Qed.

Lemma deref_keeps_store (l : loc) (h : store) : fst (deref l h) = h.
Proof. unfold deref. now destruct (h !! l). Qed.

Lemma for_fold_keeps_store {S A} (body : S -> A -> SGen S) :
  (forall s x h, fst (body s x h) = h) ->
  forall (l : list A) (s : S) (h : store), fst (for_fold l s body h) = h.
Proof.
  intros Hbody. induction l as [|x l IH]; intros s h; [reflexivity |].
  cbn [for_fold]. apply sgen_bind_keeps_store.
  - intros h'. apply Hbody.
  - intros s' h'. apply IH.
Qed.

Lemma deref_all_keeps_store (ls : list loc) (h : store) :
  fst (Registry.deref_all ls h) = h.
Proof.
  unfold Registry.deref_all. apply for_fold_keeps_store.
  intros fonts l h'. apply sgen_bind_keeps_store; [apply deref_keeps_store |].
  reflexivity.
Qed.

Lemma insert_fresh_keeps (h : store) (l : loc) (f g : TTFont) :
  h !! l = Some f -> <[fresh_loc h := g]> h !! l = Some f.
Proof.
  intros Hl. rewrite lookup_insert_ne; [exact Hl |].
  intros Heq. pose proof (fresh_loc_unused h) as Hf. congruence.
Qed.

(** The store that check_typoascender_exceeds_Agrave leaves is the one it
    found, with at most the copy added. *)
Lemma check_typoascender_store (env : Env) (l : loc) (h : store) :
  fst (Metrics.check_typoascender_exceeds_Agrave env l h) = h
  \/ exists copy,
       fst (Metrics.check_typoascender_exceeds_Agrave env l h)
       = <[fresh_loc h := copy]> h.
Proof.
  destruct (h !! l) as [f |] eqn:Hl.
  - right. rewrite (check_typoascender_exceeds_Agrave_run env l h f Hl).
    destruct (negb (has_table "OS/2" f)); [now eexists |].
    destruct (lookup_glyph "Agrave" (glyphSet f));
      [| destruct (lookup_glyph "uni00C0" (glyphSet f))]; now eexists.
  - left. unfold Metrics.check_typoascender_exceeds_Agrave.
    erewrite sgen_bind_Throw; [reflexivity |].
    unfold sdeepcopy, deepcopy. rewrite Hl. reflexivity.
Qed.

Lemma check_caps_store (l : loc) (h : store) :
  fst (Metrics.check_caps_vertically_centered l h) = h
  \/ exists copy,
       fst (Metrics.check_caps_vertically_centered l h)
       = <[fresh_loc h := copy]> h.
Proof.
  destruct (h !! l) as [f |] eqn:Hl.
  - right. rewrite (check_caps_vertically_centered_run l h f Hl).
    destruct (forallb _ _); now eexists.
  - left. unfold Metrics.check_caps_vertically_centered.
    erewrite sgen_bind_Throw; [reflexivity |].
    unfold sdeepcopy, deepcopy. rewrite Hl. reflexivity.
Qed.



(** In the model, drawing does write the font object it is called on: a
    check that drew on the shared object would change it. *)
Lemma draw_writes_the_object (l : loc) (name : string) (h : store)
    (f : TTFont) (g : Glyph) :
  h !! l = Some f -> lookup_glyph name (glyphSet f) = Some g ->
  exists h', draw l name h = Ok (glyph_bounds g, h') /\ h' !! l <> Some f.
Proof.
  intros Hl Hg. unfold draw. rewrite Hl, Hg. eexists. split; [reflexivity |].
  rewrite lookup_insert_eq. intros Heq. inversion Heq as [Hd].
  apply (f_equal drawn) in Hd. cbn in Hd.
  apply (f_equal (@List.length string)) in Hd. cbn in Hd. lia.
Qed.


(** With a [get_bounding_box] that only reads, the condition on the store
    yields the value of [vmetrics] on the font objects behind the
    references. *)
Lemma vmetrics_on_value (env : Env) (ttFonts : list loc) (h : store)
    (fonts : list TTFont) :
  (forall f, get_bounding_box_leaves env f = f) ->
  Forall2 (fun l f => h !! l = Some f) ttFonts fonts ->
  Metrics.vmetrics_on env ttFonts h = (h, Ok (Metrics.vmetrics fonts)).
Proof.
  intros Hreads Hfonts. unfold Metrics.vmetrics_on, Metrics.vmetrics.
  generalize {| Metrics.ymin := 0; Metrics.ymax := 0 |}.
  induction Hfonts as [|l f ls fs Hl _ IH]; intros v; cbn [fold_left];
    [reflexivity |].
  rewrite Hl. destruct (bounding_box f) as [font_ymin font_ymax].
  rewrite Hreads, (insert_id h l f Hl). apply IH.
Qed.









(** The run of check_typoascender_exceeds_Agrave on the sample: the WARN,
    the shared object as before, and the copy with the drawing recorded. *)
Example typoascender_check_draws_on_its_copy :
  let after := Registry.run_check Sample.env Registry.typoascender_exceeds_Agrave
                 Sample.args (Sample.store_of Sample.accented) in
  map (fun e => (status_of e, code_of e)) (emitted (snd after))
  = [(WARN, Some "typoAscender"%string)]
  /\ fst after !! 1%positive = Some Sample.accented
  /\ option_map drawn (fst after !! 2%positive) = Some ["Agrave"%string].
Proof. vm_compute. repeat split. Qed.

(** The condition cff_analysis on the sample: the glyph that exceeds the
    depth, the shared object as before, and the decompiled charstring in the
    object opened by the condition. *)
Example cff_analysis_decompiles_its_own_font :
  let after := Cff.cff_analysis Sample.env_disk (Registry.ent_font Sample.entity)
                 (Sample.store_of Sample.accented) in
  match snd after with
  | Ok analysis => Cff.glyphs_exceed_max analysis = ["loop"%string]
  | Raised _ => False
  end
  /\ fst after !! 1%positive = Some Sample.accented
  /\ option_map CFF (fst after !! 2%positive)
     = Some (Some (Decoded
          [{| CharStrings :=
                [("loop"%string,
                  ({| decompiles_to := decompiles_to Sample.calls_cycle;
                      recursion_error := false;
                      program := Some (decompiles_to Sample.calls_cycle) |},
                   None))];
              GlobalSubrs := [];
              rawDict := rawDict Sample.cff_top_dict;
              FDArray := None;
              Private := Private Sample.cff_top_dict |}])).
Proof. vm_compute. repeat split. Qed.

(** ** Which checks yield an outcome *)

(** A generator that does not raise has yielded something. *)
Local Notation "'emits' g" :=
  ((forall e, flow g <> Throw e) -> yielded g <> []) (at level 10, g at level 9).

Lemma emits_bind {A B} (m : Gen A) (k : A -> Gen B) :
  (flow m = Return -> yielded m <> []) ->
  (forall a, flow m = Next a -> emits (k a)) ->
  emits (m ≫= k).
Proof.
  destruct m as [out [a | | e]]; intros Hret Hk.
  - rewrite gen_bind_Next. cbn [flow yielded]. intros Hno Hnil.
    apply app_eq_nil in Hnil as [_ Hnil].
    now apply (Hk a eq_refl Hno).
  - rewrite gen_bind_Return. intros _. now apply Hret.
  - rewrite gen_bind_Throw. intros Hno. now contradiction (Hno e).
Qed.

Lemma for_fold_return_yields {S A} (body : S -> A -> Gen S) :
  (forall s x, flow (body s x) = Return -> yielded (body s x) <> []) ->
  forall l s, flow (for_fold l s body) = Return ->
              yielded (for_fold l s body) <> [].
Proof.
  intros Hbody. induction l as [|x l IH]; intros s; cbn [for_fold].
  - discriminate.
  - specialize (Hbody s x). destruct (body s x) as [out [s' | | e]].
    + rewrite gen_bind_Next. cbn [flow yielded]. intros Hret Hnil.
      apply app_eq_nil in Hnil as [_ Hnil]. now apply (IH s' Hret).
    + rewrite gen_bind_Return. cbn [flow yielded] in *. intros _. now apply Hbody.
    + rewrite gen_bind_Throw. discriminate.
Qed.

Lemma yield_list_emits (warnings : list string) (report : list string -> Emission)
    (nothing : Emission) :
  emits (match warnings with
         | _ :: _ => MkGen [report warnings] (Next tt)
         | [] => MkGen [nothing] (Next tt)
         end).
Proof. destruct warnings; discriminate. Qed.

(** A body that reads its font object and then runs without the store. *)
Lemma lifted_check_emits (l : loc) (k : TTFont -> Gen unit) (h : store) :
  (forall f, emits (k f)) ->
  emits (snd ((deref l ≫= fun f => gen (k f)) h)).
Proof.
  intros Hk. rewrite sgen_bind_unfold. unfold deref.
  destruct (h !! l) as [f |]; cbn.
  - apply Hk.
  - intros Hno. now contradiction (Hno TypeError).
Qed.

Lemma for_fold_quiet {S A} (body : S -> A -> SGen S) :
  (forall s x h, yielded (snd (body s x h)) = []
                 /\ flow (snd (body s x h)) <> Return) ->
  forall (l : list A) (s : S) (h : store),
    yielded (snd (for_fold l s body h)) = []
    /\ flow (snd (for_fold l s body h)) <> Return.
Proof.
  intros Hbody. induction l as [|x l IH]; intros s h;
    [split; [reflexivity | discriminate] |].
  cbn [for_fold]. rewrite sgen_bind_unfold.
  specialize (Hbody s x h).
  destruct (body s x h) as [h1 [out [s' | | e]]]; cbn in Hbody;
    destruct Hbody as [-> Hnr]; cbn [flow yielded].
  - specialize (IH s' h1). destruct (for_fold l s' body h1) as [h2 r].
    exact IH.
  - now contradiction Hnr.
  - split; [reflexivity | discriminate].
Qed.

Lemma lifted_family_check_emits (ls : list loc) (k : list TTFont -> Gen unit)
    (h : store) :
  (forall fs, emits (k fs)) ->
  emits (snd ((Registry.deref_all ls ≫= fun fs => gen (k fs)) h)).
Proof.
  intros Hk. rewrite sgen_bind_unfold.
  assert (Hquiet : yielded (snd (Registry.deref_all ls h)) = []
                   /\ flow (snd (Registry.deref_all ls h)) <> Return).
  { unfold Registry.deref_all. apply for_fold_quiet. intros fonts l h'.
    rewrite sgen_bind_unfold. unfold deref.
    destruct (h' !! l) as [f |]; cbn; split; (reflexivity || discriminate). }
  destruct (Registry.deref_all ls h) as [h1 [out [fs | | e]]];
    cbn in Hquiet; destruct Hquiet as [-> Hnr]; cbn.
  - apply Hk.
  - now contradiction Hnr.
  - intros Hno. now contradiction (Hno e).
Qed.

Ltac gen_norm :=
  repeat (unfold yield, pass, return_, raise;
          cbn [lift flow yielded app negb];
          rewrite ?gen_bind_Next, ?gen_bind_Return, ?gen_bind_Throw,
            ?gen_bind_ret_l).

Ltac gen_branch :=
  match goal with
  | |- context [if ?b then _ else _] => destruct b
  end.

Ltac emits_done :=
  cbn [flow yielded app];
  let Hno := fresh "Hno" in
  intros Hno;
  first [ discriminate
        | exfalso; eapply Hno; reflexivity ].

Lemma check_family_win_ascent_and_descent_emits (f : TTFont)
    (vm : Metrics.VMetrics) :
  emits (Metrics.check_family_win_ascent_and_descent f vm).
Proof.
  unfold Metrics.check_family_win_ascent_and_descent, get_OS2.
  rewrite has_table_OS2. destruct (OS2 f) as [t |]; gen_norm; [| emits_done].
  repeat (gen_branch; gen_norm); emits_done.
Qed.

Lemma check_os2_metrics_match_hhea_emits (f : TTFont) :
  emits (Metrics.check_os2_metrics_match_hhea f).
Proof.
  unfold Metrics.check_os2_metrics_match_hhea, get_OS2, get_hhea.
  cbn [for_fold]. rewrite has_table_OS2, has_table_hhea.
  destruct (OS2 f) as [t |], (hhea f) as [hh |]; gen_norm; try emits_done.
  repeat (gen_branch; gen_norm); emits_done.
Qed.

Lemma collect_vertical_metrics_step (m0 : bool) (v0 : Metrics.VTable)
    (f : TTFont) :
  exists out m v,
    Metrics.collect_vertical_metrics (m0, v0) f = MkGen out (Next (m, v))
    /\ (m = true -> m0 = true \/ out <> []).
Proof.
  unfold Metrics.collect_vertical_metrics, get_OS2, get_hhea.
  rewrite has_table_OS2, has_table_hhea.
  destruct (OS2 f) as [t |], (hhea f) as [hh |]; gen_norm;
    do 3 eexists; (split; [reflexivity |]); intros Hm;
    first [now left | right; discriminate].
Qed.

Lemma collect_vertical_metrics_missing (fonts : list TTFont) :
  forall (m0 : bool) (v0 : Metrics.VTable),
  exists out m v,
    for_fold fonts (m0, v0) Metrics.collect_vertical_metrics
    = MkGen out (Next (m, v))
    /\ (m = true -> m0 = true \/ out <> []).
Proof.
  induction fonts as [|f fonts IH]; intros m0 v0; cbn [for_fold].
  - exists [], m0, v0. split; [reflexivity | now left].
  - destruct (collect_vertical_metrics_step m0 v0 f)
      as (out1 & m1 & v1 & -> & H1).
    destruct (IH m1 v1) as (out2 & m & v & Hrest & H2).
    rewrite gen_bind_Next, Hrest. cbn [flow yielded].
    exists (out1 ++ out2), m, v. split; [reflexivity |].
    intros Hm. destruct (H2 Hm) as [Hm1 | Hout2].
    + destruct (H1 Hm1) as [-> | Hout1]; [now left | right].
      intros Hnil. apply app_eq_nil in Hnil as [Hnil _]. now apply Hout1.
    + right. intros Hnil. apply app_eq_nil in Hnil as [_ Hnil]. now apply Hout2.
Qed.

Lemma check_family_vertical_metrics_emits (fonts : list TTFont) :
  emits (Metrics.check_family_vertical_metrics fonts).
Proof.
  unfold Metrics.check_family_vertical_metrics.
  destruct (collect_vertical_metrics_missing fonts false Metrics.vmetrics_init)
    as (out & m & v & -> & Hm).
  rewrite gen_bind_Next. unfold Metrics.report_vertical_metrics.
  destruct m; cbn [negb].
  - destruct (Hm eq_refl) as [Hf | Hout]; [discriminate Hf |].
    gen_norm. rewrite app_nil_r. intros _. exact Hout.
  - match goal with
    | |- context [match ?failed with [] => _ | _ :: _ => _ end] =>
        destruct failed
    end; cbn [for_]; gen_norm; cbn [flow yielded]; intros _ Hnil;
      apply app_eq_nil in Hnil as [_ Hnil]; discriminate Hnil.
Qed.

Lemma bind_keeps_what_was_yielded {A B} (m : Gen A) (k : A -> Gen B) :
  yielded m <> [] -> yielded (m ≫= k) <> [].
Proof.
  destruct m as [out [a | | e]]; cbn [yielded]; intros Hout;
    rewrite ?gen_bind_Next, ?gen_bind_Return, ?gen_bind_Throw;
    cbn [yielded]; [| exact Hout | exact Hout].
  intros Hnil. apply app_eq_nil in Hnil as [Hnil _]. now apply Hout.
Qed.

Lemma check_linegaps_emits (env : Env) (f : TTFont) :
  emits (Metrics.check_linegaps env f).
Proof.
  unfold Metrics.check_linegaps, get_hhea, get_OS2.
  destruct (sorted _) as [|t ts].
  2: { intros _. do 2 apply bind_keeps_what_was_yielded. cbn [for_].
       apply bind_keeps_what_was_yielded. discriminate. }
  gen_norm.
  destruct (hhea f) as [hh |]; gen_norm; [| emits_done].
  gen_branch; gen_norm; [emits_done |].
  destruct (OS2 f) as [t |]; gen_norm; [| emits_done].
  gen_branch; emits_done.
Qed.

Lemma turn_returns_after_a_pass {X} (collect : list string -> X -> Res (list string))
    (turn : list string -> X -> Gen (list string)) (summary : Msg) :
  (forall ws x,
     turn ws x
     = match collect ws x with
       | Ok ws' =>
           if (Outline.FALSE_POSITIVE_CUTOFF <? List.length ws')%nat
           then MkGen [(PASS, summary)] Return
           else MkGen [] (Next ws')
       | Raised e => MkGen [] (Throw e)
       end) ->
  forall ws x, flow (turn ws x) = Return -> yielded (turn ws x) <> [].
Proof.
  intros Hturn ws x. rewrite Hturn.
  destruct (collect ws x) as [ws' | e]; [| discriminate].
  destruct (Outline.FALSE_POSITIVE_CUTOFF <? List.length ws')%nat; discriminate.
Qed.

Lemma check_outline_alignment_miss_emits (env : Env) (f : TTFont)
    (outlines_dict : OutlinesDict) (config : Config) :
  emits (Outline.check_outline_alignment_miss env f outlines_dict config).
Proof.
  unfold Outline.check_outline_alignment_miss, get_OS2, Outline.alignment_lines.
  destruct (OS2 f) as [t |]; gen_norm; [| emits_done].
  destruct (2 <=? version t); gen_norm; [| emits_done].
  apply emits_bind.
  - apply for_fold_return_yields.
    apply (turn_returns_after_a_pass
             (fun ws x => Outline.glyph_alignment_misses env _ (fst x) (snd x) ws)
             _ _ (alignment_miss_turn_spec env _)).
  - intros ws _. destruct ws; emits_done.
Qed.

Lemma check_outline_short_segments_emits (env : Env) (f : TTFont)
    (outlines_dict : OutlinesDict) (config : Config) :
  emits (Outline.check_outline_short_segments env f outlines_dict config).
Proof.
  unfold Outline.check_outline_short_segments. apply emits_bind.
  - apply for_fold_return_yields.
    apply (turn_returns_after_a_pass
             (fun ws x => Ok (Outline.glyph_short_segments (fst x) (snd x) ws))
             _ _ short_segments_turn_spec).
  - intros ws _. destruct ws; emits_done.
Qed.

Lemma check_outline_colinear_vectors_emits (env : Env) (f : TTFont)
    (outlines_dict : OutlinesDict) (config : Config) :
  emits (Outline.check_outline_colinear_vectors env f outlines_dict config).
Proof.
  unfold Outline.check_outline_colinear_vectors. apply emits_bind.
  - apply for_fold_return_yields.
    apply (turn_returns_after_a_pass
             (fun ws x => Ok (Outline.glyph_colinear_vectors env (fst x) (snd x) ws))
             _ _ (colinear_vectors_turn_spec env)).
  - intros ws _. destruct ws; emits_done.
Qed.

Lemma check_outline_jaggy_segments_emits (env : Env) (f : TTFont)
    (outlines_dict : OutlinesDict) (config : Config) :
  emits (Outline.check_outline_jaggy_segments env f outlines_dict config).
Proof.
  unfold Outline.check_outline_jaggy_segments.
  destruct (fold_left _ outlines_dict []); emits_done.
Qed.

Lemma check_outline_semi_vertical_emits (env : Env) (f : TTFont)
    (outlines_dict : OutlinesDict) (config : Config) :
  emits (Outline.check_outline_semi_vertical env f outlines_dict config).
Proof.
  unfold Outline.check_outline_semi_vertical.
  destruct (fold_left _ outlines_dict []); emits_done.
Qed.

Lemma check_overlapping_path_segments_emits (env : Env) (f : TTFont)
    (outlines_dict : OutlinesDict) (config : Config) :
  emits (Outline.check_overlapping_path_segments env f outlines_dict config).
Proof.
  unfold Outline.check_overlapping_path_segments.
  destruct (fold_left _ outlines_dict []); emits_done.
Qed.

Lemma check_family_equal_codepoint_coverage_emits (env : Env)
    (fonts : list TTFont) (config : Config) :
  emits (Family.com_google_fonts_check_family_equal_codepoint_coverage
           env fonts config).
Proof.
  unfold Family.com_google_fonts_check_family_equal_codepoint_coverage.
  destruct (map snd _) as [|first others]; gen_norm; [emits_done |].
  destruct (fold_left _ _ []); emits_done.
Qed.

Lemma for_fold_never_returns {S A} (body : S -> A -> Gen S) :
  (forall s x, flow (body s x) <> Return) ->
  forall l s, flow (for_fold l s body) <> Return.
Proof.
  intros Hbody. induction l as [|x l IH]; intros s; cbn [for_fold].
  - discriminate.
  - specialize (Hbody s x). destruct (body s x) as [out [s' | | e]].
    + rewrite gen_bind_Next. apply IH.
    + now contradiction Hbody.
    + rewrite gen_bind_Throw. discriminate.
Qed.

Lemma check_family_italics_emits (env : Env) (fonts : list string)
    (config : Config) :
  emits (Family.com_google_fonts_check_family_italics_have_roman_counterparts
           env fonts config).
Proof.
  unfold Family.com_google_fonts_check_family_italics_have_roman_counterparts.
  apply emits_bind.
  - intros Hret. exfalso. revert Hret. apply for_fold_never_returns.
    intros missing italic. repeat (gen_branch; gen_norm); discriminate.
  - intros ws _. destruct ws; emits_done.
Qed.

Lemma check_family_tnum_emits (fonts : list TTFont) :
  emits (Family.com_google_fonts_check_family_tnum_horizontal_metrics fonts).
Proof.
  unfold Family.com_google_fonts_check_family_tnum_horizontal_metrics.
  destruct (1 <? _)%nat; [| emits_done].
  destruct (Family.most_common _) as [n [w |]]; gen_norm; [| emits_done].
  destruct (dict_del _ _ _); gen_norm; emits_done.
Qed.

Lemma typoascender_verdict_emits (env : Env) (f : TTFont) (b : Bounds) :
  emits (Metrics.typoascender_verdict env f b).
Proof.
  unfold Metrics.typoascender_verdict, get_OS2.
  destruct (OS2 f) as [t |]; gen_norm; [| emits_done].
  gen_branch; emits_done.
Qed.

Lemma check_typoascender_emits (env : Env) (l : loc) (h : store) :
  emits (snd (Metrics.check_typoascender_exceeds_Agrave env l h)).
Proof.
  destruct (h !! l) as [f |] eqn:Hl.
  - rewrite (check_typoascender_exceeds_Agrave_run env l h f Hl).
    destruct (negb (has_table "OS/2" f)); [emits_done |].
    destruct (lookup_glyph "Agrave" (glyphSet f));
      [| destruct (lookup_glyph "uni00C0" (glyphSet f))];
      cbn [snd]; first [apply typoascender_verdict_emits | emits_done].
  - unfold Metrics.check_typoascender_exceeds_Agrave.
    erewrite sgen_bind_Throw;
      [| unfold sdeepcopy, deepcopy; rewrite Hl; reflexivity].
    emits_done.
Qed.

Lemma check_caps_emits (l : loc) (h : store) :
  emits (snd (Metrics.check_caps_vertically_centered l h)).
Proof.
  destruct (h !! l) as [f |] eqn:Hl.
  - rewrite (check_caps_vertically_centered_run l h f Hl).
    destruct (forallb _ _); [| emits_done]. cbn [snd].
    match goal with
    | |- context [Metrics.caps_verdict ?a ?b ?hs ?ls] =>
        pose proof (caps_verdict_run a b hs ls
                      (length_map _ Metrics.SOME_UPPERCASE_GLYPHS)
                      (length_map _ Metrics.SOME_UPPERCASE_GLYPHS)) as Hv
    end.
    destruct (hhea f); [destruct Hv as [-> | ->] | rewrite Hv]; emits_done.
  - unfold Metrics.check_caps_vertically_centered.
    erewrite sgen_bind_Throw;
      [| unfold sdeepcopy, deepcopy; rewrite Hl; reflexivity].
    emits_done.
Qed.

Lemma for_yield_each {A} (status : Status) (message : A -> Msg) (l : list A) :
  for_ l (fun x => yield status (message x))
  = MkGen (map (fun x => (status, message x)) l) (Next tt).
Proof.
  induction l as [|x l IH]; cbn [for_ map]; [reflexivity |].
  rewrite IH. unfold yield. now rewrite gen_bind_Next.
Qed.

Lemma run_of_emits (g : Gen unit) :
  emits g -> raised (run g) = None -> emitted (run g) <> [].
Proof.
  intros Hg Hnone. apply Hg. intros e He. unfold run in Hnone.
  rewrite He in Hnone. discriminate Hnone.
Qed.

(** ** Two runs of a check *)

Lemma sgen_bind_ext {A B} (m : SGen A) (k1 k2 : A -> SGen B) (h : store) :
  (forall a h', k1 a h' = k2 a h') -> (m ≫= k1) h = (m ≫= k2) h.
Proof.
  intros Hk. rewrite !sgen_bind_unfold. destruct (m h) as [h1 g].
  destruct (flow g); [now rewrite Hk | reflexivity | reflexivity].
Qed.

Lemma check_linegaps_any_order (env : Env)
    (order1 order2 : list string -> list string) (f : TTFont) :
  (forall l, Permutation (order1 l) l) -> (forall l, Permutation (order2 l) l) ->
  Metrics.check_linegaps (Registry.with_set_iter order1 env) f
  = Metrics.check_linegaps (Registry.with_set_iter order2 env) f.
Proof.
  intros H1 H2. unfold Metrics.check_linegaps.
  cbn [set_iter Registry.with_set_iter].
  now rewrite (sorted_Permutation _ _ (H1 _)), (sorted_Permutation _ _ (H2 _)).
Qed.

Lemma check_outline_colinear_vectors_any_order (env : Env)
    (order1 order2 : list string -> list string) (f : TTFont)
    (outlines_dict : OutlinesDict) (config : Config) :
  (forall l, Permutation (order1 l) l) -> (forall l, Permutation (order2 l) l) ->
  Outline.check_outline_colinear_vectors (Registry.with_set_iter order1 env)
    f outlines_dict config
  = Outline.check_outline_colinear_vectors (Registry.with_set_iter order2 env)
      f outlines_dict config.
Proof.
  intros H1 H2. unfold Outline.check_outline_colinear_vectors.
  change (Outline.colinear_vectors_turn (Registry.with_set_iter order2 env))
    with (Outline.colinear_vectors_turn (Registry.with_set_iter order1 env)).
  apply gen_bind_ext. intros [|w ws]; [reflexivity |].
  cbn [set_iter bullet_list Registry.with_set_iter].
  now rewrite (sorted_Permutation _ _ (H1 _)), (sorted_Permutation _ _ (H2 _)).
Qed.

(** A run in an interpreter with another hash seed, on the same store. *)
Lemma body_any_order (env : Env) (order1 order2 : list string -> list string)
    (id : Registry.CheckId) (args : Registry.Resolved) (h : store) :
  (forall l, Permutation (order1 l) l) -> (forall l, Permutation (order2 l) l) ->
  Registry.body (Registry.with_set_iter order1 env) id args h
  = Registry.body (Registry.with_set_iter order2 env) id args h.
Proof.
  intros H1 H2. destruct id; cbn [Registry.body]; try reflexivity.
  - apply sgen_bind_ext. intros f h'.
    now rewrite (check_linegaps_any_order env order1 order2 f H1 H2).
  - apply sgen_bind_ext. intros f h'.
    now rewrite (check_outline_colinear_vectors_any_order env order1 order2 f
                   _ _ H1 H2).
Qed.

(** What a check body that reads its font object yields depends on the
    object only. *)
Lemma deref_gen_snd (l1 l2 : loc) (h1 h2 : store) (k1 k2 : TTFont -> Gen unit) :
  h1 !! l1 = h2 !! l2 -> (forall f, k1 f = k2 f) ->
  snd ((deref l1 ≫= fun f => gen (k1 f)) h1)
  = snd ((deref l2 ≫= fun f => gen (k2 f)) h2).
Proof.
  intros Hsame Hk. rewrite !sgen_bind_unfold. unfold deref.
  rewrite Hsame. destruct (h2 !! l2) as [f |]; cbn; [| reflexivity].
  now rewrite Hk.
Qed.

Lemma deref_all_loop_snd (ls1 : list loc) :
  forall (ls2 : list loc) (h1 h2 : store) (fonts : list TTFont),
    map (fun l => h1 !! l) ls1 = map (fun l => h2 !! l) ls2 ->
    snd (for_fold ls1 fonts
           (fun fonts l => f ← deref l; mret (fonts ++ [f])) h1)
    = snd (for_fold ls2 fonts
             (fun fonts l => f ← deref l; mret (fonts ++ [f])) h2).
Proof.
  induction ls1 as [|l1 ls1 IH]; intros [|l2 ls2] h1 h2 fonts Hsame;
    try discriminate Hsame; [reflexivity |].
  cbn [map] in Hsame. injection Hsame as Hl Hrest.
  cbn [for_fold]. rewrite !sgen_bind_unfold. unfold deref at 1 3.
  rewrite Hl. destruct (h2 !! l2) as [f |]; cbn; [| reflexivity].
  specialize (IH ls2 h1 h2 (fonts ++ [f]) Hrest).
  match type of IH with
  | snd ?x = snd ?y => destruct x as [h1' g1]; destruct y as [h2' g2]
  end.
  cbn [snd] in IH. now subst g2.
Qed.

Lemma deref_all_gen_snd (ls1 ls2 : list loc) (h1 h2 : store)
    (k1 k2 : list TTFont -> Gen unit) :
  map (fun l => h1 !! l) ls1 = map (fun l => h2 !! l) ls2 ->
  (forall fs, k1 fs = k2 fs) ->
  snd ((Registry.deref_all ls1 ≫= fun fs => gen (k1 fs)) h1)
  = snd ((Registry.deref_all ls2 ≫= fun fs => gen (k2 fs)) h2).
Proof.
  intros Hsame Hk. rewrite !sgen_bind_unfold.
  pose proof (deref_all_loop_snd ls1 ls2 h1 h2 [] Hsame) as Hloop.
  fold (Registry.deref_all ls1) in Hloop. fold (Registry.deref_all ls2) in Hloop.
  destruct (Registry.deref_all ls1 h1) as [h1' g1].
  destruct (Registry.deref_all ls2 h2) as [h2' g2].
  cbn [snd] in Hloop. subst g2.
  destruct (flow g1) as [fs | | e]; cbn; [| reflexivity | reflexivity].
  now rewrite Hk.
Qed.

Lemma sdeepcopy_missing (l : loc) (h : store) :
  h !! l = None -> sdeepcopy l h = (h, MkGen [] (Throw TypeError)).
Proof. intros Hl. unfold sdeepcopy, deepcopy. now rewrite Hl. Qed.

(** What the two copying checks yield depends on the font object behind
    their argument only: not on the reference, nor on the place of the
    copy. *)
Lemma check_typoascender_same_font (env : Env) (l1 l2 : loc) (h1 h2 : store) :
  h1 !! l1 = h2 !! l2 ->
  snd (Metrics.check_typoascender_exceeds_Agrave env l1 h1)
  = snd (Metrics.check_typoascender_exceeds_Agrave env l2 h2).
Proof.
  intros Hsame. destruct (h2 !! l2) as [f |] eqn:Hl.
  - rewrite (check_typoascender_exceeds_Agrave_run env l1 h1 f Hsame),
      (check_typoascender_exceeds_Agrave_run env l2 h2 f Hl).
    destruct (negb (has_table "OS/2" f)); [reflexivity |].
    destruct (lookup_glyph "Agrave" (glyphSet f));
      [| destruct (lookup_glyph "uni00C0" (glyphSet f))]; reflexivity.
  - unfold Metrics.check_typoascender_exceeds_Agrave.
    rewrite (sgen_bind_Throw _ _ h1 _ _ _ (sdeepcopy_missing l1 h1 Hsame)),
      (sgen_bind_Throw _ _ h2 _ _ _ (sdeepcopy_missing l2 h2 Hl)).
    reflexivity.
Qed.

Lemma check_caps_same_font (l1 l2 : loc) (h1 h2 : store) :
  h1 !! l1 = h2 !! l2 ->
  snd (Metrics.check_caps_vertically_centered l1 h1)
  = snd (Metrics.check_caps_vertically_centered l2 h2).
Proof.
  intros Hsame. destruct (h2 !! l2) as [f |] eqn:Hl.
  - rewrite (check_caps_vertically_centered_run l1 h1 f Hsame),
      (check_caps_vertically_centered_run l2 h2 f Hl).
    destruct (forallb _ _); reflexivity.
  - unfold Metrics.check_caps_vertically_centered.
    rewrite (sgen_bind_Throw _ _ h1 _ _ _ (sdeepcopy_missing l1 h1 Hsame)),
      (sgen_bind_Throw _ _ h2 _ _ _ (sdeepcopy_missing l2 h2 Hl)).
    reflexivity.
Qed.

(** Two runs in the same interpreter, on equal inputs in two stores. *)
Lemma body_equal_inputs (env : Env) (id : Registry.CheckId)
    (args1 args2 : Registry.Resolved) (h1 h2 : store) :
  Claimed.equal_inputs args1 h1 args2 h2 ->
  snd (Registry.body env id args1 h1) = snd (Registry.body env id args2 h2).
Proof.
  intros (Hfont & Hfonts & Hribbi & Hpaths & Hconfig & Hvm & Hod & Hcff & Hfcff).
  destruct id; cbn [Registry.body];
    rewrite ?Hpaths, ?Hconfig, ?Hvm, ?Hod, ?Hcff, ?Hfcff;
    first [ reflexivity
          | apply deref_gen_snd; [exact Hfont | reflexivity]
          | apply deref_all_gen_snd; [assumption | reflexivity]
          | now apply check_typoascender_same_font
          | now apply check_caps_same_font ].
Qed.

(** The inputs are still equal after a run: a second run may start from the
    store that the first run left. *)
Lemma body_rerun (env : Env) (id : Registry.CheckId) (args : Registry.Resolved)
    (h : store) :
  snd (Registry.body env id args (fst (Registry.body env id args h)))
  = snd (Registry.body env id args h).
Proof.
  destruct id; cbn [Registry.body];
    try (rewrite sgen_bind_keeps_store;
         [ reflexivity
         | intros; first [apply deref_keeps_store | apply deref_all_keeps_store]
         | intros; apply gen_keeps_store ]);
    try reflexivity.
  - apply check_typoascender_same_font.
    destruct (h !! Registry.arg_ttFont args) as [f |] eqn:Hl.
    + destruct (check_typoascender_store env (Registry.arg_ttFont args) h)
        as [-> | [copy ->]]; [exact Hl | now apply insert_fresh_keeps].
    + unfold Metrics.check_typoascender_exceeds_Agrave.
      rewrite (sgen_bind_Throw _ _ h _ _ _ (sdeepcopy_missing _ h Hl)).
      exact Hl.
  - apply check_caps_same_font.
    destruct (h !! Registry.arg_ttFont args) as [f |] eqn:Hl.
    + destruct (check_caps_store (Registry.arg_ttFont args) h)
        as [-> | [copy ->]]; [exact Hl | now apply insert_fresh_keeps].
    + unfold Metrics.check_caps_vertically_centered.
      rewrite (sgen_bind_Throw _ _ h _ _ _ (sdeepcopy_missing _ h Hl)).
      exact Hl.
Qed.

Lemma run_check_fst (env : Env) (id : Registry.CheckId)
    (args : Registry.Resolved) (h : store) :
  fst (Registry.run_check env id args h) = fst (Registry.body env id args h).
Proof. unfold Registry.run_check. now destruct (Registry.body env id args h). Qed.

Lemma run_check_snd (env : Env) (id : Registry.CheckId)
    (args : Registry.Resolved) (h : store) :
  snd (Registry.run_check env id args h)
  = run (snd (Registry.body env id args h)).
Proof. unfold Registry.run_check. now destruct (Registry.body env id args h). Qed.

(** C7 -- every check body is deterministic.  Two runs have equal resolved
    inputs when the font objects behind their references, the paths, the
    configuration and the values of the conditions are equal.  The runs may
    differ in everything else: the order in which the interpreter iterates
    over a set of strings ([order1] and [order2], the hash seed), the
    references themselves, the other objects of the store, and the place
    where a copy is made.  The second run yields the same ordered sequence
    of outcomes, and ends the same way, as the first; and so does a second
    run that starts from the store that the first run left behind. *)
Theorem check_bodies_are_deterministic (env : Env)
    (order1 order2 : list string -> list string)
    (id : Registry.CheckId) (args1 args2 : Registry.Resolved) (h1 h2 : store) :
  (forall l, Permutation (order1 l) l) ->
  (forall l, Permutation (order2 l) l) ->
  Claimed.equal_inputs args1 h1 args2 h2 ->
  let first :=
    Registry.run_check (Registry.with_set_iter order1 env) id args1 h1 in
  snd (Registry.run_check (Registry.with_set_iter order2 env) id args2 h2)
  = snd first
  /\ snd (Registry.run_check (Registry.with_set_iter order2 env) id args1
            (fst first))
     = snd first.
Proof.
  intros H1 H2 Hequal first. subst first.
  rewrite run_check_fst, !run_check_snd.
  rewrite (body_any_order env order1 order2 id args1 h1 H1 H2).
  split.
  - f_equal. symmetry. now apply body_equal_inputs.
  - now rewrite body_rerun.
Qed.

Lemma check_bodies_are_deterministic_witness :
  (forall l : list string, Permutation ((fun l => l) l) l)
  /\ (forall l : list string, Permutation (rev l) l)
  /\ Claimed.equal_inputs Sample.args (Sample.store_of Sample.lacks_both)
       Sample.args_elsewhere (Sample.store_elsewhere Sample.lacks_both)
  /\ snd (Registry.run_check (Registry.with_set_iter (@rev string) Sample.env)
            Registry.linegaps Sample.args_elsewhere
            (Sample.store_elsewhere Sample.lacks_both))
     = snd (Registry.run_check (Registry.with_set_iter (fun l => l) Sample.env)
              Registry.linegaps Sample.args
              (Sample.store_of Sample.lacks_both)).
Proof.
  assert (Hperm1 : forall l : list string, Permutation ((fun l => l) l) l)
    by (intros l; apply Permutation_refl).
  assert (Hperm2 : forall l : list string, Permutation (rev l) l)
    by (intros l; apply Permutation_sym, Permutation_rev).
  assert (Hequal : Claimed.equal_inputs Sample.args
                     (Sample.store_of Sample.lacks_both)
                     Sample.args_elsewhere
                     (Sample.store_elsewhere Sample.lacks_both))
    by (repeat split).
  split; [exact Hperm1 |]. split; [exact Hperm2 |]. split; [exact Hequal |].
  exact (proj1 (check_bodies_are_deterministic Sample.env (fun l => l)
                  (@rev string) Registry.linegaps Sample.args
                  Sample.args_elsewhere (Sample.store_of Sample.lacks_both)
                  (Sample.store_elsewhere Sample.lacks_both)
                  Hperm1 Hperm2 Hequal)).
Defined.

(** check_linegaps on a font that lacks both tables: the set of the missing
    tables has two elements, which the two interpreters iterate in opposite
    orders; both runs yield the FAIL for OS/2 before the FAIL for hhea. *)
Example linegaps_check_in_two_interpreters :
  set_iter (Registry.with_set_iter (fun l => l) Sample.env)
    (set_diff ["hhea"; "OS/2"]%string (keys Sample.lacks_both))
  = ["hhea"; "OS/2"]%string
  /\ set_iter (Registry.with_set_iter (@rev string) Sample.env)
       (set_diff ["hhea"; "OS/2"]%string (keys Sample.lacks_both))
     = ["OS/2"; "hhea"]%string
  /\ snd (Registry.run_check (Registry.with_set_iter (fun l => l) Sample.env)
            Registry.linegaps Sample.args (Sample.store_of Sample.lacks_both))
     = MkRun [(FAIL, Message "lacks-table" "Font lacks 'OS/2' table.");
              (FAIL, Message "lacks-table" "Font lacks 'hhea' table.")] None
  /\ snd (Registry.run_check (Registry.with_set_iter (@rev string) Sample.env)
            Registry.linegaps Sample.args_elsewhere
            (Sample.store_elsewhere Sample.lacks_both))
     = MkRun [(FAIL, Message "lacks-table" "Font lacks 'OS/2' table.");
              (FAIL, Message "lacks-table" "Font lacks 'hhea' table.")] None.
Proof. vm_compute. repeat split. Qed.

(** The two copying checks, run a second time on the store the first run
    left, on the sample fonts. *)
Example typoascender_check_run_twice :
  let first := Registry.run_check Sample.env Registry.typoascender_exceeds_Agrave
                 Sample.args (Sample.store_of Sample.accented) in
  fst first <> Sample.store_of Sample.accented
  /\ snd (Registry.run_check Sample.env_reversed
            Registry.typoascender_exceeds_Agrave Sample.args (fst first))
     = snd first.
Proof.
  cbv zeta. split; [| vm_compute; reflexivity].
  intros Heq.
  assert (Hl : fst (Registry.run_check Sample.env
                      Registry.typoascender_exceeds_Agrave Sample.args
                      (Sample.store_of Sample.accented)) !! 2%positive
               = Sample.store_of Sample.accented !! 2%positive)
    by now rewrite Heq.
  vm_compute in Hl. discriminate Hl.
Qed.

(** * Further properties of the check bodies *)

Ltac gen_cbn :=
  cbn [mbind mret Gen_bind Gen_ret yield pass return_ raise lift
       flow yielded app negb].

(** ** checks/metrics.py *)

Lemma vmetrics_sign (ttFonts : list TTFont) :
  Metrics.ymin (Metrics.vmetrics ttFonts) <= 0
  <= Metrics.ymax (Metrics.vmetrics ttFonts).
Proof.
  unfold Metrics.vmetrics.
  pose proof (vmetrics_step_fold ttFonts {| Metrics.ymin := 0; Metrics.ymax := 0 |})
    as H.
  cbn zeta in H. cbn [Metrics.ymin Metrics.ymax] in H.
  destruct H as [(Hle & _) (Hge & _)]. lia.
Qed.

Lemma gen_bind_pass {B} (k : unit -> Gen B) : (pass ≫= k) = k tt.
Proof. apply gen_bind_ret_l. Qed.

Lemma gen_bind_Next_nil {A B} (a : A) (k : A -> Gen B) :
  (MkGen [] (Next a) ≫= k) = k a.
Proof. apply (gen_bind_ret_l a k). Qed.

(** The four tests of check_family_win_ascent_and_descent and the PASS that
    follows them, whatever the messages are. *)
Lemma flagged_failures (c1 c2 c3 c4 : bool) (m1 m2 m3 m4 mp : Msg) :
  (failed ← (if c1 then yield FAIL m1;; mret true else mret false);
   failed ← (if c2 then yield FAIL m2;; mret true else mret failed);
   failed ← (if c3 then yield FAIL m3;; mret true else mret failed);
   failed ← (if c4 then yield FAIL m4;; mret true else mret failed);
   if negb failed then yield PASS mp else pass)
  = MkGen ((if c1 then [(FAIL, m1)] else [])
           ++ (if c2 then [(FAIL, m2)] else [])
           ++ (if c3 then [(FAIL, m3)] else [])
           ++ (if c4 then [(FAIL, m4)] else [])
           ++ (if c1 || c2 || c3 || c4 then [] else [(PASS, mp)]))
          (Next tt).
Proof. destruct c1, c2, c3, c4; reflexivity. Qed.

(** X1 -- check_family_win_ascent_and_descent on the value of the condition
    [vmetrics]: for a font with an OS/2 table the body does not raise and
    yields one or two outcomes, either the single PASS or FAILs only; it
    yields the PASS exactly when usWinAscent lies between the family's yMax
    and its double and usWinDescent between the absolute yMin and its
    double. *)
Theorem win_metrics_pass_iff_within_the_family_extent
    (ttFonts : list TTFont) (f : TTFont) (os2 : OS2Table) :
  OS2 f = Some os2 ->
  let v := Metrics.vmetrics ttFonts in
  let r := run (Metrics.check_family_win_ascent_and_descent f v) in
  raised r = None
  /\ (1 <= List.length (emitted r) <= 2)%nat
  /\ (map status_of (emitted r) = [PASS]
      \/ Forall (fun e => status_of e = FAIL) (emitted r))
  /\ (map status_of (emitted r) = [PASS]
      <-> Metrics.ymax v <= usWinAscent os2 <= 2 * Metrics.ymax v
          /\ Z.abs (Metrics.ymin v) <= usWinDescent os2
             <= 2 * Z.abs (Metrics.ymin v)).
Proof.
  intros Hos2 v r. subst r.
  pose proof (vmetrics_sign ttFonts) as Hsign. fold v in Hsign.
  clearbody v.
  unfold Metrics.check_family_win_ascent_and_descent.
  rewrite has_table_OS2. unfold get_OS2. rewrite Hos2.
  cbv zeta. cbn [negb lift]. rewrite gen_bind_pass, gen_bind_Next_nil.
  rewrite flagged_failures.
  cbn [run emitted raised flow yielded].
  (destruct (usWinAscent os2 <? Metrics.ymax v) eqn:H1;
  destruct (usWinAscent os2 >? Metrics.ymax v * 2) eqn:H2;
  destruct (usWinDescent os2 <? Z.abs (Metrics.ymin v)) eqn:H3;
  destruct (usWinDescent os2 >? Z.abs (Metrics.ymin v) * 2) eqn:H4;
  cbn [map status_of fst List.length app orb];
  try apply Z.ltb_lt in H1; try apply Z.ltb_ge in H1;
  try (apply Z.gtb_lt in H2); try (rewrite Z.gtb_ltb in H2; apply Z.ltb_ge in H2);
  try apply Z.ltb_lt in H3; try apply Z.ltb_ge in H3;
  try (apply Z.gtb_lt in H4); try (rewrite Z.gtb_ltb in H4; apply Z.ltb_ge in H4);
  try lia;
  (split; [reflexivity |]);
  (split; [lia |]);
  (split; [first [now left | right; repeat constructor] |]);
  (split; [intros H; first [discriminate H | lia]
          | intros; first [reflexivity | lia]])).
Qed.

Lemma win_metrics_pass_iff_within_the_family_extent_witness :
  OS2 Sample.regular = Some Sample.os2
  /\ map status_of
       (emitted (run (Metrics.check_family_win_ascent_and_descent Sample.regular
                        (Metrics.vmetrics [Sample.regular; Sample.bold]))))
     = [PASS].
Proof.
  split; [reflexivity |].
  apply (win_metrics_pass_iff_within_the_family_extent
           [Sample.regular; Sample.bold] Sample.regular Sample.os2 eq_refl).
  vm_compute. repeat split; discriminate.
Defined.

(** X2 -- check_os2_metrics_match_hhea never raises; it yields the single
    PASS exactly when the font has both tables and the three pairs of
    values are equal, and FAILs only otherwise.  With both tables present
    it yields one outcome: of several mismatches only the first is reported,
    in the order ascender, descender, lineGap. *)
Theorem os2_hhea_pass_iff_the_metrics_match (f : TTFont) :
  let r := run (Metrics.check_os2_metrics_match_hhea f) in
  raised r = None
  /\ (map status_of (emitted r) = [PASS]
      <-> exists o hh,
            OS2 f = Some o /\ hhea f = Some hh
            /\ sTypoAscender o = ascent hh
            /\ sTypoDescender o = descent hh
            /\ sTypoLineGap o = lineGap hh)
  /\ (map status_of (emitted r) = [PASS]
      \/ (emitted r <> [] /\ Forall (fun e => status_of e = FAIL) (emitted r)))
  /\ (forall o hh,
        OS2 f = Some o -> hhea f = Some hh ->
        map code_of (emitted r)
        = [if negb (sTypoAscender o =? ascent hh) then Some "ascender"%string
           else if negb (sTypoDescender o =? descent hh) then Some "descender"%string
           else if negb (sTypoLineGap o =? lineGap hh) then Some "lineGap"%string
           else None]).
Proof.
  cbv zeta. unfold Metrics.check_os2_metrics_match_hhea, get_OS2, get_hhea.
  cbn [for_fold]. rewrite has_table_OS2, has_table_hhea.
  destruct (OS2 f) as [o |] eqn:Ho, (hhea f) as [hh |] eqn:Hh; gen_cbn.
  2-4: cbn [run emitted raised flow yielded map status_of fst];
    (split; [reflexivity |]);
    (split; [split; [intros H; discriminate H
                    | intros (? & ? & H1 & H2 & _); discriminate]|]);
    (split; [right; split; [discriminate | repeat constructor]
            | intros ? ? H1 H2; discriminate]).
  destruct (sTypoAscender o =? ascent hh) eqn:H1; gen_cbn;
    [destruct (sTypoDescender o =? descent hh) eqn:H2; gen_cbn;
     [destruct (sTypoLineGap o =? lineGap hh) eqn:H3; gen_cbn | ] | ];
    cbn [run emitted raised flow yielded map status_of code_of fst snd];
    (split; [reflexivity |]);
    (split; [split; [intros H; first [discriminate H
                                     | exists o, hh;
                                       apply Z.eqb_eq in H1, H2, H3; auto]
                    | intros (o' & hh' & Eo & Eh & E1 & E2 & E3);
                      inversion Eo; inversion Eh; subst o' hh';
                      first [reflexivity
                            | apply Z.eqb_neq in H1; congruence
                            | apply Z.eqb_neq in H2; congruence
                            | apply Z.eqb_neq in H3; congruence]] |]);
    (split; [first [now left | right; split; [discriminate | repeat constructor]]
            | intros o' hh' Eo Eh; inversion Eo; inversion Eh; subst o' hh';
              rewrite ?H1, ?H2, ?H3; reflexivity]).
Qed.

Section FreshKeys.
Context {K V : Type} (eqb : K -> K -> bool).
Hypothesis eqb_spec : forall a b, eqb a b = true <-> a = b.

Lemma dict_set_fresh (k : K) (v : V) (d : list (K * V)) :
  ~ In k (map fst d) -> dict_set eqb k v d = d ++ [(k, v)].
Proof.
  induction d as [|[k' v'] d IH]; cbn; intros Hk; [reflexivity |].
  destruct (eqb k k') eqn:E.
  - apply eqb_spec in E. subst k'. exfalso. apply Hk. now left.
  - rewrite IH; [reflexivity |]. intros H. apply Hk. now right.
Qed.
End FreshKeys.

Lemma string_eqb_spec (a b : string) : String.eqb a b = true <-> a = b.
Proof. apply String.eqb_eq. Qed.

Lemma metrics_table_step (m : bool) (l : list TTFont) (f : TTFont) :
  OS2 f <> None -> hhea f <> None ->
  ~ In (bestFullName f) (map bestFullName l) ->
  Metrics.collect_vertical_metrics (m, Obs.metrics_table l) f
  = MkGen [] (Next (m, Obs.metrics_table (l ++ [f]))).
Proof.
  intros Ho Hh Hfresh.
  destruct (OS2 f) as [o |] eqn:Eo; [| contradiction].
  destruct (hhea f) as [h |] eqn:Eh; [| contradiction].
  unfold Metrics.collect_vertical_metrics, get_OS2, get_hhea.
  rewrite has_table_OS2, has_table_hhea, Eo, Eh. gen_cbn.
  transitivity
    (MkGen (@nil Emission)
       (Next (m,
          map (fun '(k, g) =>
                 (k, dict_set String.eqb (bestFullName f) (g f)
                       (map (fun f => (bestFullName f, g f)) l)))
              Obs.metric_getters))).
  { unfold Obs.metric_getters. cbn [map]. rewrite Eo, Eh. reflexivity. }
  do 2 f_equal. f_equal. unfold Obs.metrics_table.
  apply map_ext. intros [k g].
  rewrite (dict_set_fresh String.eqb string_eqb_spec).
  - now rewrite map_app.
  - now rewrite map_map.
Qed.

Lemma metrics_table_loop (m : bool) (fonts l : list TTFont) :
  Forall (fun f => OS2 f <> None /\ hhea f <> None) fonts ->
  List.NoDup (map bestFullName (l ++ fonts)) ->
  for_fold fonts (m, Obs.metrics_table l) Metrics.collect_vertical_metrics
  = MkGen [] (Next (m, Obs.metrics_table (l ++ fonts))).
Proof.
  revert l. induction fonts as [|f fonts IH]; intros l Hall Hnd;
    cbn [for_fold].
  - now rewrite app_nil_r.
  - inversion Hall as [|? ? [Ho Hh] Hall']; subst.
    rewrite metrics_table_step; try assumption.
    + rewrite gen_bind_Next_nil.
      rewrite (IH (l ++ [f])); [now rewrite <- app_assoc | assumption |].
      now rewrite <- app_assoc.
    + rewrite map_app in Hnd. apply List.NoDup_remove_2 in Hnd.
      intros Hin. apply Hnd. apply in_or_app. now left.
Qed.

Lemma metric_row_table (l : list TTFont) (k : string) (g : TTFont -> Z) :
  In (k, g) Obs.metric_getters ->
  Metrics.metric_row k (Obs.metrics_table l)
  = map (fun f => (bestFullName f, g f)) l.
Proof.
  unfold Obs.metric_getters. cbn [In].
  intros [H | [H | [H | [H | [H | [H | [H | [H | []]]]]]]]];
    inversion H; subst; reflexivity.
Qed.

Lemma filter_map_In {A B} (P : B -> bool) (Q : A -> bool) (F : A -> B)
    (l : list A) :
  (forall a, In a l -> P (F a) = Q a) ->
  List.filter P (map F l) = map F (List.filter Q l).
Proof.
  induction l as [|a l IH]; intros H; cbn [map List.filter]; [reflexivity |].
  rewrite (H a (or_introl eq_refl)), IH by (intros b Hb; apply H; now right).
  now destruct (Q a).
Qed.

Lemma filter_nil_In {A} (P : A -> bool) (l : list A) :
  (forall a, In a l -> P a = false) -> List.filter P l = [].
Proof.
  induction l as [|a l IH]; intros H; cbn [List.filter]; [reflexivity |].
  rewrite (H a (or_introl eq_refl)). apply IH. intros b Hb. apply H. now right.
Qed.

(** A list has one distinct value when it is not empty and its elements are
    equal. *)
Lemma one_distinct_value (l : list Z) :
  List.length (nodup Z.eq_dec l) = 1%nat
  <-> l <> [] /\ forall x y, In x l -> In y l -> x = y.
Proof.
  split.
  - intros Hlen.
    destruct (nodup Z.eq_dec l) as [|a [|b r]] eqn:E; try discriminate Hlen.
    split.
    + intros ->. discriminate E.
    + assert (Hin : forall x, In x l -> x = a).
      { intros x Hx. apply (nodup_In Z.eq_dec) in Hx. rewrite E in Hx.
        destruct Hx as [Hx | []]. now symmetry. }
      intros x y Hx Hy. now rewrite (Hin x Hx), (Hin y Hy).
  - intros [Hne Heq]. destruct l as [|a l]; [contradiction |].
    assert (Hnd : nodup Z.eq_dec (a :: l) = [a]).
    { clear Hne. induction l as [|b l IH].
      - reflexivity.
      - assert (b = a) by (symmetry; apply Heq; cbn; auto). subst b.
        cbn [nodup]. destruct (in_dec Z.eq_dec a (a :: l)) as [_ | Hn].
        + apply IH. intros x y Hx Hy. apply Heq.
          * destruct Hx as [-> | Hx]; cbn; auto.
          * destruct Hy as [-> | Hy]; cbn; auto.
        + exfalso. apply Hn. now left. }
    now rewrite Hnd.
Qed.

Lemma vertical_metrics_of_getters (f : TTFont) :
  OS2 f <> None -> hhea f <> None ->
  Obs.vertical_metrics_of f = Some (map (fun kg => snd kg f) Obs.metric_getters).
Proof.
  intros Ho Hh. unfold Obs.vertical_metrics_of, Obs.metric_getters.
  destruct (OS2 f) eqn:Eo; [| contradiction].
  destruct (hhea f) eqn:Eh; [| contradiction].
  cbn [map snd]. now rewrite Eo, Eh.
Qed.

(** The keys that the check reports. *)
Lemma failed_keys (l : list TTFont) :
  map fst
    (List.filter
       (fun '(k, _) =>
          negb (Nat.eqb (Metrics.distinct_values
                           (Metrics.metric_row k (Obs.metrics_table l))) 1))
       (Obs.metrics_table l))
  = map fst
      (List.filter
         (fun kg => negb (Nat.eqb (List.length
                                     (nodup Z.eq_dec (map (snd kg) l))) 1))
         Obs.metric_getters).
Proof.
  unfold Obs.metrics_table at 2.
  rewrite (filter_map_In _
             (fun kg => negb (Nat.eqb (List.length
                                         (nodup Z.eq_dec (map (snd kg) l))) 1))).
  - rewrite map_map. apply map_ext. now intros [k g].
  - intros [k g] Hin. rewrite (metric_row_table l k g Hin).
    unfold Metrics.distinct_values. now rewrite map_map.
Qed.

(** X3 -- check_family_vertical_metrics on a family that is not empty,
    whose fonts all have the tables OS/2 and hhea and have different full
    names: the body does not raise; it yields the single PASS exactly when
    all fonts have the same eight values, and otherwise one to eight
    outcomes, all FAIL. *)
Theorem vertical_metrics_pass_iff_the_family_agrees (fonts : list TTFont) :
  fonts <> [] ->
  Forall (fun f => OS2 f <> None /\ hhea f <> None) fonts ->
  List.NoDup (map bestFullName fonts) ->
  let r := run (Metrics.check_family_vertical_metrics fonts) in
  raised r = None
  /\ (map status_of (emitted r) = [PASS]
      <-> forall f g, In f fonts -> In g fonts ->
            Obs.vertical_metrics_of f = Obs.vertical_metrics_of g)
  /\ (map status_of (emitted r) = [PASS]
      \/ ((1 <= List.length (emitted r) <= 8)%nat
          /\ Forall (fun e => status_of e = FAIL) (emitted r))).
Proof.
  intros Hne Hall Hnd r. subst r.
  unfold Metrics.check_family_vertical_metrics.
  change Metrics.vmetrics_init with (Obs.metrics_table []).
  rewrite (metrics_table_loop false fonts [] Hall Hnd), gen_bind_Next_nil.
  cbn [app]. unfold Metrics.report_vertical_metrics. cbn [negb].
  rewrite failed_keys.
  set (failed := map fst (List.filter _ Obs.metric_getters)).
  assert (Hfailed : failed = [] <->
            forall f g, In f fonts -> In g fonts ->
              Obs.vertical_metrics_of f = Obs.vertical_metrics_of g).
  { subst failed. split.
    - intros Hnil f g Hf Hg.
      rewrite List.Forall_forall in Hall.
      destruct (Hall f Hf) as [Hof Hhf]. destruct (Hall g Hg) as [Hog Hhg].
      rewrite !vertical_metrics_of_getters by assumption. f_equal.
      apply map_ext_in. intros kg Hkg.
      apply map_eq_nil in Hnil.
      assert (Hq : negb (Nat.eqb (List.length
                                    (nodup Z.eq_dec (map (snd kg) fonts))) 1)
                   = false).
      { destruct (negb _) eqn:E; [| reflexivity].
        assert (Hin : In kg (List.filter
                  (fun kg => negb (Nat.eqb (List.length
                     (nodup Z.eq_dec (map (snd kg) fonts))) 1))
                  Obs.metric_getters))
          by (apply filter_In; split; assumption).
        rewrite Hnil in Hin. destruct Hin. }
      apply negb_false_iff, Nat.eqb_eq, one_distinct_value in Hq.
      destruct Hq as [_ Hq]. apply Hq; now apply in_map.
    - intros Hagree. 
      assert (Hnone : List.filter
                (fun kg => negb (Nat.eqb (List.length
                   (nodup Z.eq_dec (map (snd kg) fonts))) 1))
                Obs.metric_getters = []).
      { apply filter_nil_In. intros kg Hkg.
        apply negb_false_iff, Nat.eqb_eq, one_distinct_value.
        split; [now destruct fonts |].
        intros x y Hx Hy.
        apply in_map_iff in Hx as (f & <- & Hf).
        apply in_map_iff in Hy as (g & <- & Hg).
        specialize (Hagree f g Hf Hg).
        rewrite List.Forall_forall in Hall.
        destruct (Hall f Hf) as [Hof Hhf]. destruct (Hall g Hg) as [Hog Hhg].
        rewrite !vertical_metrics_of_getters in Hagree by assumption.
        assert (Hmap : map (fun kg => snd kg f) Obs.metric_getters
                       = map (fun kg => snd kg g) Obs.metric_getters)
          by congruence.
        clear - Hmap Hkg.
        induction Obs.metric_getters as [|kg' gs IH]; [destruct Hkg |].
        cbn [map] in Hmap. injection Hmap as H0 H1.
        destruct Hkg as [-> | Hin]; [assumption | now apply IH]. }
      now rewrite Hnone. }
  destruct failed as [|k failed'] eqn:Efailed.
  - cbn [run emitted raised flow yielded yield map status_of fst].
    split; [reflexivity |]. split; [| now left].
    split; [intros _; now apply Hfailed | reflexivity].
  - rewrite for_yield_each.
    cbn [run emitted raised flow yielded].
    split; [reflexivity |]. split.
    + split.
      * intros H. cbn [map status_of fst] in H. discriminate H.
      * intros Hagree. apply Hfailed in Hagree. discriminate Hagree.
    + right. split.
      * rewrite length_map. split; [cbn; lia |].
        rewrite <- Efailed. subst failed. rewrite length_map.
        etransitivity; [apply List.filter_length_le |]. reflexivity.
      * apply List.Forall_forall. intros e He.
        apply in_map_iff in He as (k' & <- & _). reflexivity.
Qed.

Lemma vertical_metrics_pass_iff_the_family_agrees_witness :
  [Sample.regular; Sample.bold] <> []
  /\ Forall (fun f => OS2 f <> None /\ hhea f <> None)
       [Sample.regular; Sample.bold]
  /\ List.NoDup (map bestFullName [Sample.regular; Sample.bold])
  /\ map status_of
       (emitted (run (Metrics.check_family_vertical_metrics
                        [Sample.regular; Sample.bold])))
     = [PASS].
Proof.
  assert (H1 : [Sample.regular; Sample.bold] <> []) by discriminate.
  assert (H2 : Forall (fun f => OS2 f <> None /\ hhea f <> None)
                 [Sample.regular; Sample.bold])
    by (repeat constructor; discriminate).
  assert (H3 : List.NoDup (map bestFullName [Sample.regular; Sample.bold])).
  { repeat constructor; cbn; [intros [H | []]; discriminate H | tauto]. }
  repeat (split; [assumption |]).
  apply (vertical_metrics_pass_iff_the_family_agrees
           [Sample.regular; Sample.bold] H1 H2 H3).
  intros f g [<- | [<- | []]] [<- | [<- | []]]; reflexivity.
Defined.

(** X4 -- check_linegaps on a font with both tables: the body does not
    raise and yields one outcome, the PASS exactly when hhea.lineGap and
    OS/2.sTypoLineGap are both 0 and a WARN otherwise.  hhea is tested
    first: when its lineGap is not 0 the WARN has the code hhea, whatever
    sTypoLineGap is. *)
Theorem linegaps_pass_iff_both_are_zero (env : Env) (f : TTFont)
    (o : OS2Table) (hh : HheaTable) :
  env_ok env -> OS2 f = Some o -> hhea f = Some hh ->
  let r := run (Metrics.check_linegaps env f) in
  raised r = None
  /\ exists e,
       emitted r = [e]
       /\ (status_of e = PASS <-> lineGap hh = 0 /\ sTypoLineGap o = 0)
       /\ (status_of e = WARN <-> lineGap hh <> 0 \/ sTypoLineGap o <> 0)
       /\ (lineGap hh <> 0 -> code_of e = Some "hhea"%string)
       /\ (lineGap hh = 0 -> sTypoLineGap o <> 0 ->
           code_of e = Some "OS/2"%string).
Proof.
  intros Hok Ho Hh r. subst r. unfold Metrics.check_linegaps.
  rewrite (missing_tables_sorted env f Hok), Ho, Hh. cbn [app].
  unfold get_hhea, get_OS2. rewrite Ho, Hh. gen_cbn.
  destruct (Z.eqb_spec (lineGap hh) 0) as [E1 | E1]; gen_cbn;
    [destruct (Z.eqb_spec (sTypoLineGap o) 0) as [E2 | E2]; gen_cbn |];
    cbn [run emitted raised flow yielded];
    (split; [reflexivity |]); eexists; (split; [reflexivity |]);
    cbn [status_of code_of fst snd];
    repeat split; intros;
    first [reflexivity | tauto | discriminate | congruence
          | now left | now right | exfalso; tauto].
Qed.

Lemma linegaps_pass_iff_both_are_zero_witness :
  env_ok Sample.env
  /\ OS2 Sample.regular = Some Sample.os2
  /\ hhea Sample.regular = Some Sample.hhea_table
  /\ raised (run (Metrics.check_linegaps Sample.env Sample.regular)) = None.
Proof.
  repeat (split; [first [exact sample_env_ok | reflexivity] |]).
  apply (linegaps_pass_iff_both_are_zero Sample.env Sample.regular
           Sample.os2 Sample.hhea_table sample_env_ok eq_refl eq_refl).
Defined.

(** X5 -- check_typoascender_exceeds_Agrave on a font object of the store:
    the body does not raise and yields one outcome.  It is the FAIL
    lacks-OS/2 for a font without OS/2 and the SKIP lacks-Agrave for one
    with neither /Agrave nor /uni00C0; otherwise it is the PASS when
    sTypoAscender is at least the yMax of /Agrave, or of /uni00C0 when
    there is no /Agrave, and the WARN typoAscender when it is below. *)
Theorem typoascender_is_compared_with_Agrave (env : Env) (l : loc)
    (h : store) (f : TTFont) :
  h !! l = Some f ->
  let r := run (snd (Metrics.check_typoascender_exceeds_Agrave env l h)) in
  raised r = None
  /\ exists e,
       emitted r = [e]
       /\ match OS2 f with
          | None => status_of e = FAIL /\ code_of e = Some "lacks-OS/2"%string
          | Some o =>
              match lookup_glyph "Agrave" (glyphSet f),
                    lookup_glyph "uni00C0" (glyphSet f) with
              | None, None =>
                  status_of e = SKIP /\ code_of e = Some "lacks-Agrave"%string
              | Some gl, _ | None, Some gl =>
                  (status_of e = PASS
                   <-> (yMax (glyph_bounds gl) <= inject_Z (sTypoAscender o))%Q)
                  /\ (status_of e = WARN /\ code_of e = Some "typoAscender"%string
                      <-> (inject_Z (sTypoAscender o) < yMax (glyph_bounds gl))%Q)
              end
          end.
Proof.
  intros Hl r. subst r.
  rewrite (check_typoascender_exceeds_Agrave_run env l h f Hl), has_table_OS2.
  assert (Hverdict : forall name gl o, OS2 f = Some o ->
            let g := Metrics.typoascender_verdict env
                       (set_drawn (name :: drawn f) f) (glyph_bounds gl) in
            raised (run g) = None
            /\ exists e, emitted (run g) = [e]
                 /\ (status_of e = PASS
                     <-> (yMax (glyph_bounds gl) <= inject_Z (sTypoAscender o))%Q)
                 /\ (status_of e = WARN /\ code_of e = Some "typoAscender"%string
                     <-> (inject_Z (sTypoAscender o) < yMax (glyph_bounds gl))%Q)).
  { intros name gl o Ho g. subst g. unfold Metrics.typoascender_verdict, get_OS2.
    cbn [OS2 set_drawn]. rewrite Ho. gen_cbn. unfold Qltb.
    destruct (Qle_bool (yMax (glyph_bounds gl)) (inject_Z (sTypoAscender o)))
      eqn:E; cbn [negb]; gen_cbn; cbn [run emitted raised flow yielded];
      (split; [reflexivity |]); eexists; (split; [reflexivity |]);
      cbn [status_of code_of fst snd].
    - apply Qle_bool_iff in E. split; [tauto |]. split.
      + intros [H _]. discriminate H.
      + intros H. exfalso. now apply (Qlt_not_le _ _ H).
    - assert (Hlt : (inject_Z (sTypoAscender o) < yMax (glyph_bounds gl))%Q).
      { apply Qnot_le_lt. intros H. apply Qle_bool_iff in H. congruence. }
      split; [| tauto]. split; [discriminate |].
      intros H. exfalso. now apply (Qlt_not_le _ _ Hlt). }
  destruct (OS2 f) as [o |] eqn:Ho; cbn [negb].
  - destruct (lookup_glyph "Agrave" (glyphSet f)) as [gl |];
      [| destruct (lookup_glyph "uni00C0" (glyphSet f)) as [gl |]];
      cbn [snd]; try (apply (Hverdict _ gl o eq_refl)).
    cbn [run emitted raised flow yielded]. split; [reflexivity |].
    eexists. split; [reflexivity |]. now split.
  - cbn [snd run emitted raised flow yielded]. split; [reflexivity |].
    eexists. split; [reflexivity |]. now split.
Qed.

Lemma typoascender_is_compared_with_Agrave_witness :
  Sample.store_of Sample.accented !! 1%positive = Some Sample.accented
  /\ raised (run (snd (Metrics.check_typoascender_exceeds_Agrave Sample.env
                         1%positive (Sample.store_of Sample.accented))))
     = None.
Proof.
  split; [reflexivity |].
  apply (typoascender_is_compared_with_Agrave Sample.env 1%positive
           (Sample.store_of Sample.accented) Sample.accented eq_refl).
Defined.

(** ** checks/opentype/cff.py *)

Lemma nth_error_nth_Some {A} (l : list A) (k : nat) (d : A) :
  (k < List.length l)%nat -> nth_error l k = Some (nth k l d).
Proof.
  revert k. induction l as [|a l IH]; intros [|k] Hk; cbn in *;
    try lia; [reflexivity |]. apply IH. lia.
Qed.

(** X6 -- _get_subr_bias and the lookup of a called subroutine: in a table
    of at most 65536 subroutines, the subroutine at index [k] is the one
    called by the operand [k - bias]; that operand is a 16-bit integer, and
    with fewer than 1240 subroutines it lies between -107 and 1131. *)
Theorem subr_bias_reaches_every_subroutine (table : list (list Token))
    (k : nat) :
  (k < List.length table)%nat -> Z.of_nat (List.length table) <= 65536 ->
  let count := Z.of_nat (List.length table) in
  let bias := Cff._get_subr_bias count in
  let operand := Z.of_nat k - bias in
  Cff.called_program (Some table) (Some bias) (TInt operand)
  = Ok (nth k table [])
  /\ -32768 <= operand <= 32767
  /\ (count < 1240 -> -107 <= operand <= 1131).
Proof.
  intros Hk Hmax count bias operand. split.
  - unfold Cff.called_program, Cff.py_int, Cff.py_index.
    cbn [mbind Res_bind].
    replace (operand + bias) with (Z.of_nat k) by (unfold operand; lia).
    destruct (Z.of_nat k <? 0) eqn:E1; [apply Z.ltb_lt in E1; lia |].
    destruct (Z.of_nat (List.length table) <=? Z.of_nat k) eqn:E2;
      [apply Z.leb_le in E2; lia |].
    rewrite E1. cbn [orb]. rewrite Nat2Z.id.
    now rewrite (nth_error_nth_Some table k [] Hk).
  - subst operand bias. unfold Cff._get_subr_bias.
    destruct (count <? 1240) eqn:E1;
      [| destruct (count <? 33900) eqn:E2];
      try apply Z.ltb_lt in E1; try apply Z.ltb_ge in E1;
      try apply Z.ltb_lt in E2; try apply Z.ltb_ge in E2;
      subst count; lia.
Qed.

Lemma subr_bias_reaches_every_subroutine_witness :
  (0 < List.length Sample.cyclic_subrs)%nat
  /\ Z.of_nat (List.length Sample.cyclic_subrs) <= 65536
  /\ Cff.called_program (Some Sample.cyclic_subrs) (Some 107) (TInt (-107))
     = Ok [TInt (-107); TOp "callsubr"].
Proof.
  assert (H1 : (0 < List.length Sample.cyclic_subrs)%nat) by (cbn; lia).
  assert (H2 : Z.of_nat (List.length Sample.cyclic_subrs) <= 65536) by (cbn; lia).
  repeat (split; [assumption |]).
  apply (subr_bias_reaches_every_subroutine Sample.cyclic_subrs 0 H1 H2).
Defined.

Lemma while_program_no_call
    (descend : Cff.Info -> list Token -> option (Res Cff.Info))
    (stack : list Token) (info : Cff.Info) :
  Obs.calls_no_subr stack = true ->
  Cff.while_program descend stack info = Some (Ok info).
Proof.
  unfold Obs.calls_no_subr.
  induction stack as [|x stack IH]; cbn [forallb Cff.while_program];
    [reflexivity |].
  intros H. apply andb_prop in H as [Hx Hrest].
  apply negb_true_iff, orb_false_iff in Hx as [-> ->]. now apply IH.
Qed.

Lemma calls_no_subr_rev (program : list Token) :
  Obs.calls_no_subr (rev program) = Obs.calls_no_subr program.
Proof.
  unfold Obs.calls_no_subr.
  apply eq_true_iff_eq. rewrite !forallb_forall.
  split; intros H x Hx; apply H; [now apply in_rev in Hx | now apply in_rev].
Qed.

(** X7 -- _analyze_cff on a glyph whose charstring decompiles and calls no
    subroutine: the turn of the loop does not fail; the glyph is never
    listed for its call depth nor for a recursion error, it is listed in
    glyphs_dotsection exactly when its program holds the operator that the
    decompiler writes for dotsection ("ignore"), and in glyphs_endchar_seac
    exactly when the program ends in endchar after four integers. *)
Theorem glyph_without_calls_is_listed_for_its_operators_only
    (subrs : option (list (list Token))) (global_subrs : list (list Token))
    (gsubr_bias : Z) (subr_bias : option Z) (fd_index : Z)
    (analysis : Cff.CFFAnalysis) (glyph_name : string) (cs : CharString)
    (fd_select_index : option Z) :
  recursion_error cs = false ->
  Obs.calls_no_subr (decompiles_to cs) = true ->
  fd_select_index = None \/ fd_select_index = Some fd_index ->
  exists analysis' cs' info,
    Cff.analyze_glyph subrs global_subrs gsubr_bias subr_bias fd_index
      analysis glyph_name (cs, fd_select_index)
    = Ok (analysis', cs', Some info)
    /\ program cs' = Some (decompiles_to cs)
    /\ Cff.glyphs_exceed_max analysis' = Cff.glyphs_exceed_max analysis
    /\ Cff.glyphs_recursion_errors analysis'
       = Cff.glyphs_recursion_errors analysis
    /\ Cff.string_not_ascii analysis' = Cff.string_not_ascii analysis
    /\ Cff.glyphs_dotsection analysis'
       = Cff.glyphs_dotsection analysis
         ++ (if existsb (Cff.is_op "ignore") (decompiles_to cs)
             then [glyph_name] else [])
    /\ Cff.glyphs_endchar_seac analysis'
       = Cff.glyphs_endchar_seac analysis
         ++ (if Cff.ends_in_seac (rev (decompiles_to cs))
             then [glyph_name] else []).
Proof.
  intros Hrec Hflat Hsel. unfold Cff.analyze_glyph.
  assert (Hskip : match fd_select_index with
                  | Some i => negb (i =? fd_index)
                  | None => false
                  end = false).
  { destruct Hsel as [-> | ->]; [reflexivity |]. now rewrite Z.eqb_refl. }
  rewrite Hskip. unfold Cff.decompile. rewrite Hrec. cbn [program].
  unfold Cff.traverse_fuel. cbn [Cff._traverse_subr_call_tree].
  change (0 >? 10) with false. cbv iota.
  rewrite while_program_no_call by now rewrite calls_no_subr_rev.
  do 3 eexists. split; [reflexivity |].
  cbn [program Cff.append_findings Cff.glyphs_exceed_max
       Cff.glyphs_recursion_errors Cff.string_not_ascii Cff.glyphs_dotsection
       Cff.glyphs_endchar_seac Cff.note_dotsection Cff.note_seac Cff.enter
       Cff.info_init Cff.max_depth Cff.saw_dotsection Cff.saw_endchar_seac].
  change (0 >? 0) with false. cbv iota. change (0 >? 10) with false.
  cbv iota. rewrite app_nil_r.
  repeat split;
    [now destruct (existsb _ _) | now destruct (Cff.ends_in_seac _)].
Qed.

Lemma glyph_without_calls_is_listed_for_its_operators_only_witness :
  recursion_error {| decompiles_to := [TOp "ignore"; TOp "endchar"];
                     recursion_error := false; program := None |} = false
  /\ Obs.calls_no_subr [TOp "ignore"; TOp "endchar"] = true
  /\ exists analysis' cs' info,
       Cff.analyze_glyph None [] 107 None 0 Cff.CFFAnalysis_init "a"
         ({| decompiles_to := [TOp "ignore"; TOp "endchar"];
             recursion_error := false; program := None |}, None)
       = Ok (analysis', cs', Some info)
       /\ Cff.glyphs_dotsection analysis' = ["a"%string].
Proof.
  split; [reflexivity |]. split; [reflexivity |].
  destruct (glyph_without_calls_is_listed_for_its_operators_only
              None [] 107 None 0 Cff.CFFAnalysis_init "a"
              {| decompiles_to := [TOp "ignore"; TOp "endchar"];
                 recursion_error := false; program := None |} None
              eq_refl eq_refl (or_introl eq_refl))
    as (a' & cs' & info & Hrun & _ & _ & _ & _ & Hdot & _).
  exists a', cs', info. split; [exact Hrun | exact Hdot].
Defined.

Lemma for_fold_res_invariant {S A} (P : S -> Prop) (body : S -> A -> Res S)
    (l : list A) :
  (forall s x s', body s x = Ok s' -> P s -> P s') ->
  forall s0 s, for_fold l s0 body = Ok s -> P s0 -> P s.
Proof.
  intros Hstep. induction l as [|x l IH]; intros s0 s; cbn [for_fold].
  - intros H. now inversion H.
  - destruct (body s0 x) as [s1 | e] eqn:E; cbn [mbind Res_bind];
      [| discriminate].
    intros H Hs0. apply (IH s1 s H). now apply (Hstep s0 x s1).
Qed.

Lemma analyze_glyph_keeps_strings
    (subrs : option (list (list Token))) (global_subrs : list (list Token))
    (gsubr_bias : Z) (subr_bias : option Z) (fd_index : Z)
    (analysis : Cff.CFFAnalysis) (glyph_name : string)
    (item : CharString * option Z) analysis' cs oinfo :
  Cff.analyze_glyph subrs global_subrs gsubr_bias subr_bias fd_index
    analysis glyph_name item = Ok (analysis', cs, oinfo) ->
  Cff.string_not_ascii analysis' = Cff.string_not_ascii analysis.
Proof.
  unfold Cff.analyze_glyph. destruct item as [t2 sel].
  destruct (match sel with Some i => negb (i =? fd_index) | None => false end).
  { intros H. now inversion H. }
  destruct (Cff.decompile t2) as [t2' | e].
  - destruct (program t2') as [p |]; [| discriminate].
    destruct (Cff._traverse_subr_call_tree _ _ _ _) as [[info | e] |];
      try discriminate.
    intros H. now inversion H.
  - destruct e; try discriminate. intros H. now inversion H.
Qed.

Lemma scan_raw_dict (raw_dict : list (string * string)) (keys : list string)
    (analysis : Cff.CFFAnalysis) (l0 : list (string * string)) :
  Cff.string_not_ascii analysis = Some l0 ->
  exists analysis',
    for_fold keys analysis (fun analysis key =>
      match dict_get String.eqb key raw_dict with
      | Some value =>
          if Cff.has_non_ascii value
          then Cff.append_not_ascii (key, value) analysis
          else Ok analysis
      | None => Ok analysis
      end) = Ok analysis'
    /\ Cff.string_not_ascii analysis'
       = Some (l0 ++ flat_map (fun key =>
                         match dict_get String.eqb key raw_dict with
                         | Some value =>
                             if Cff.has_non_ascii value
                             then [(key, value)] else []
                         | None => []
                         end) keys).
Proof.
  revert analysis l0.
  induction keys as [|key keys IH]; intros analysis l0 Hl0;
    cbn [for_fold flat_map].
  - exists analysis. now rewrite app_nil_r.
  - destruct (dict_get String.eqb key raw_dict) as [value |].
    + destruct (Cff.has_non_ascii value).
      * assert (Happ : exists a1,
                  Cff.append_not_ascii (key, value) analysis = Ok a1
                  /\ Cff.string_not_ascii a1 = Some (l0 ++ [(key, value)])).
        { unfold Cff.append_not_ascii. rewrite Hl0. eexists.
          split; reflexivity. }
        destruct Happ as (a1 & -> & Ha1). cbn [mbind Res_bind].
        destruct (IH a1 _ Ha1) as (a' & Ha & Hs).
        exists a'. split; [exact Ha |]. now rewrite Hs, <- app_assoc.
      * cbn [mbind Res_bind]. destruct (IH analysis l0 Hl0) as (a' & Ha & Hs).
        exists a'. now split.
    + cbn [mbind Res_bind]. destruct (IH analysis l0 Hl0) as (a' & Ha & Hs).
      exists a'. now split.
Qed.

Lemma _analyze_cff_strings (analysis : Cff.CFFAnalysis) (top_dict : TopDict)
    (private_dict : option PrivateDict) (fd_index : Z)
    (l0 : list (string * string)) analysis' top_dict' :
  Cff.string_not_ascii analysis = Some l0 ->
  Cff._analyze_cff analysis top_dict private_dict fd_index
  = Ok (analysis', top_dict') ->
  Cff.string_not_ascii analysis'
  = Some (l0 ++ Obs.non_ascii_strings top_dict)
  /\ rawDict top_dict' = rawDict top_dict.
Proof.
  intros Hl0. unfold Cff._analyze_cff, Obs.non_ascii_strings.
  assert (Hscan : exists a1,
            match rawDict top_dict with
            | Some raw_dict =>
                for_fold Cff.raw_dict_keys analysis (fun analysis key =>
                  match dict_get String.eqb key raw_dict with
                  | Some value =>
                      if Cff.has_non_ascii value
                      then Cff.append_not_ascii (key, value) analysis
                      else Ok analysis
                  | None => Ok analysis
                  end)
            | None => Ok analysis
            end = Ok a1
            /\ Cff.string_not_ascii a1
               = Some (l0 ++ Obs.non_ascii_strings top_dict)).
  { unfold Obs.non_ascii_strings. destruct (rawDict top_dict) as [raw |].
    - apply scan_raw_dict, Hl0.
    - exists analysis. now rewrite app_nil_r. }
  destruct Hscan as (a1 & -> & Ha1). cbn [mbind Res_bind].
  match goal with
  | |- context [let '(subrs, subr_bias) := ?p in _] => destruct p as [subrs sb]
  end.
  match goal with
  | |- context [for_fold ?l ?s0 ?body] =>
      destruct (for_fold l s0 body) as [[a2 cs'] | e] eqn:Eloop;
        cbn [mbind Res_bind]; [| discriminate];
      pose proof (for_fold_res_invariant
                    (fun s : Cff.CFFAnalysis * list (string * (CharString * option Z))
                       => Cff.string_not_ascii (fst s)
                          = Cff.string_not_ascii a1) body l) as Hinv
  end.
  intros H. inversion H; subst analysis' top_dict'. cbn [rawDict].
  split; [| reflexivity]. unfold Obs.non_ascii_strings in Ha1.
  rewrite <- Ha1.
  apply (Hinv) with (s0 := (a1, [])) (s := (a2, cs')); [| exact Eloop | reflexivity].
  intros [a done] [gname item] [a' done'] Hbody Hinvs. cbn [fst] in *.
  destruct (Cff.analyze_glyph _ _ _ _ _ a gname item) as [[[a3 cs3] oi] | e] eqn:Eg;
    cbn [mbind Res_bind] in Hbody; [| discriminate].
  inversion Hbody; subst.
  rewrite <- Hinvs. eapply analyze_glyph_keeps_strings. exact Eg.
Qed.

(** X8 -- the scan of the top dictionary's strings is part of _analyze_cff,
    which cff_analysis calls once per element of FDArray: when the analysis
    of a top dictionary with [n] font dictionaries succeeds, string_not_ascii
    holds every string with a character above 0x7F [n] times. *)
Theorem strings_are_listed_once_per_font_dict (fd_array : list FontDict)
    (analysis : Cff.CFFAnalysis) (top_dict : TopDict) (fd_index : Z)
    (l0 : list (string * string)) analysis' top_dict' :
  Cff.string_not_ascii analysis = Some l0 ->
  Cff.analyze_font_dicts analysis top_dict fd_array fd_index
  = Ok (analysis', top_dict') ->
  Cff.string_not_ascii analysis'
  = Some (l0 ++ concat (repeat (Obs.non_ascii_strings top_dict)
                               (List.length fd_array))).
Proof.
  revert analysis top_dict fd_index l0.
  induction fd_array as [|fd fds IH]; intros analysis top_dict fd_index l0 Hl0;
    cbn [Cff.analyze_font_dicts List.length repeat concat].
  - intros H. inversion H; subst. now rewrite app_nil_r.
  - destruct (Cff._analyze_cff analysis top_dict (fd_Private fd) fd_index)
      as [[a1 td1] | e] eqn:E1; cbn [mbind Res_bind]; [| discriminate].
    destruct (_analyze_cff_strings _ _ _ _ l0 _ _ Hl0 E1) as [Ha1 Hraw].
    intros Hrest. rewrite (IH a1 td1 (fd_index + 1) _ Ha1 Hrest).
    rewrite <- app_assoc. do 3 f_equal.
    unfold Obs.non_ascii_strings. now rewrite Hraw.
Qed.

Lemma strings_are_listed_once_per_font_dict_witness :
  let notice := String (ascii_of_nat 169) " 2020 The Authors" in
  let top_dict :=
    {| CharStrings := []; GlobalSubrs := [];
       rawDict := Some [("Notice"%string, notice)];
       FDArray := None; Private := None |} in
  let fd_array := [{| fd_Private := None |}; {| fd_Private := None |}] in
  match Cff.analyze_font_dicts Cff.CFFAnalysis_init top_dict fd_array 0 with
  | Ok (analysis', _) =>
      Cff.string_not_ascii analysis'
      = Some [("Notice"%string, notice); ("Notice"%string, notice)]
  | Raised _ => False
  end.
Proof.
  cbv zeta.
  destruct (Cff.analyze_font_dicts _ _ _ _) as [[analysis' top_dict'] | e] eqn:E.
  - match type of E with
    | Cff.analyze_font_dicts ?a ?td ?fds ?i = _ =>
        exact (strings_are_listed_once_per_font_dict fds a td i []
                 analysis' top_dict' eq_refl E)
    end.
  - vm_compute in E. discriminate E.
Defined.

(** ** checks/outline.py *)

(** X9 -- check_outline_alignment_miss reads the table OS/2 without testing
    for it: on a font without that table the body raises KeyError and
    yields nothing, whatever the outlines are. *)
Theorem alignment_miss_raises_without_OS2 (env : Env) (f : TTFont)
    (outlines_dict : OutlinesDict) (config : Config) :
  OS2 f = None ->
  run (Outline.check_outline_alignment_miss env f outlines_dict config)
  = MkRun [] (Some (KeyError "OS/2")).
Proof.
  intros Ho. unfold Outline.check_outline_alignment_miss, get_OS2.
  now rewrite Ho.
Qed.

Lemma alignment_miss_raises_without_OS2_witness :
  OS2 Sample.lacks_OS2 = None
  /\ run (Outline.check_outline_alignment_miss Sample.env Sample.lacks_OS2
            Sample.busy_outlines [])
     = MkRun [] (Some (KeyError "OS/2")).
Proof.
  split; [reflexivity |].
  apply (alignment_miss_raises_without_OS2 Sample.env Sample.lacks_OS2
           Sample.busy_outlines [] eq_refl).
Defined.

Lemma gen_bind_yield {B} (s : Status) (m : Msg) (k : unit -> Gen B) :
  (yield s m ≫= k) = MkGen ((s, m) :: yielded (k tt)) (flow (k tt)).
Proof. reflexivity. Qed.

Lemma for_fold_res_unchanged {S A} (body : S -> A -> Res S) (l : list A)
    (s : S) :
  (forall x, In x l -> body s x = Ok s) -> for_fold l s body = Ok s.
Proof.
  induction l as [|x l IH]; intros H; cbn [for_fold]; [reflexivity |].
  rewrite (H x (or_introl eq_refl)). cbn [mbind Res_bind].
  apply IH. intros y Hy. apply H. now right.
Qed.

Lemma for_fold_gen_unchanged {S A} (body : S -> A -> Gen S) (l : list A)
    (s : S) :
  (forall x, In x l -> body s x = MkGen [] (Next s)) ->
  for_fold l s body = MkGen [] (Next s).
Proof.
  induction l as [|x l IH]; intros H; cbn [for_fold]; [reflexivity |].
  rewrite (H x (or_introl eq_refl)), gen_bind_Next_nil.
  apply IH. intros y Hy. apply H. now right.
Qed.

Lemma close_but_not_on_false (yExpected yTrue tolerance : Q) :
  (yExpected == yTrue \/ tolerance < Qabs (yExpected - yTrue))%Q ->
  Outline.close_but_not_on yExpected yTrue tolerance = false.
Proof.
  unfold Outline.close_but_not_on. intros [Heq | Hfar].
  - apply Qeq_bool_iff in Heq. now rewrite Heq.
  - destruct (Qeq_bool yExpected yTrue); [reflexivity |].
    destruct (Qle_bool (Qabs (yExpected - yTrue)) tolerance) eqn:E;
      [| reflexivity].
    apply Qle_bool_iff in E. exfalso. now apply (Qlt_not_le _ _ Hfar).
Qed.

(** X10 -- check_outline_alignment_miss on a font with an OS/2 table and
    glyphs with names: when every on-curve node lies exactly on, or more
    than two units away from, each of the five alignment lines (baseline,
    ascender, descender, x-height, cap-height), the body does not raise and
    ends in the PASS; the only outcome before it is the WARN of an OS/2
    table older than version 2. *)
Theorem aligned_nodes_pass (env : Env) (f : TTFont) (o : OS2Table)
    (outlines_dict : OutlinesDict) (config : Config) :
  OS2 f = Some o ->
  Forall (fun item => fst (fst item) <> ""%string) outlines_dict ->
  (forall item p node y,
     In item outlines_dict -> In p (snd item) -> In node (nodes p) ->
     node_type node <> "offcurve"%string ->
     In y [0; sTypoAscender o; sTypoDescender o; sxHeight o; sCapHeight o] ->
     (inject_Z y == node_y node
      \/ Outline.ALIGNMENT_MISS_EPSILON < Qabs (inject_Z y - node_y node))%Q) ->
  let r := run (Outline.check_outline_alignment_miss env f outlines_dict
                  config) in
  raised r = None
  /\ map status_of (emitted r)
     = (if 2 <=? version o then [] else [WARN]) ++ [PASS].
Proof.
  intros Ho Hnames Hclean r. subst r.
  unfold Outline.check_outline_alignment_miss, get_OS2. rewrite Ho.
  cbn [lift]. rewrite gen_bind_Next_nil.
  assert (Hloop : forall alignments,
            (forall line y, In (line, y) alignments ->
               In y [0; sTypoAscender o; sTypoDescender o; sxHeight o;
                     sCapHeight o]) ->
            for_fold outlines_dict [] (Outline.alignment_miss_turn env alignments)
            = MkGen [] (Next [])).
  { intros alignments Hal. apply for_fold_gen_unchanged.
    intros [[glyphname display_name] outlines] Hitem.
    unfold Outline.alignment_miss_turn.
    assert (Hglyph : Outline.glyph_alignment_misses env alignments
                       (glyphname, display_name) outlines [] = Ok []).
    { unfold Outline.glyph_alignment_misses.
      apply for_fold_res_unchanged. intros p Hp.
      apply for_fold_res_unchanged. intros node Hnode.
      destruct (String.eqb (node_type node) "offcurve") eqn:Eoff;
        [reflexivity |].
      apply String.eqb_neq in Eoff.
      apply for_fold_res_unchanged. intros [line y] Hline.
      assert (Hskip : exists b,
                (if String.eqb line "x-height"
                 then Outline.is_caps_name glyphname else Ok false) = Ok b).
      { destruct (String.eqb line "x-height"); [| now exists false].
        unfold Outline.is_caps_name.
        destruct (1 <? String.length glyphname)%nat; [now exists true |].
        destruct glyphname as [|c rest]; [| now eexists].
        rewrite List.Forall_forall in Hnames.
        now contradiction (Hnames _ Hitem). }
      destruct Hskip as (b & ->). cbn [mbind Res_bind].
      destruct b; [reflexivity |].
      rewrite close_but_not_on_false; [reflexivity |].
      apply (Hclean _ p node y Hitem Hp Hnode Eoff), (Hal line y Hline). }
    rewrite Hglyph. reflexivity. }
  unfold Outline.alignment_lines. cbv zeta.
  destruct (2 <=? version o).
  - rewrite gen_bind_ret_l, Hloop.
    + rewrite gen_bind_Next_nil. now split.
    + cbn [In app]. intros line y H.
      repeat (destruct H as [H | H]; [inversion H; subst; cbn; tauto |]).
      destruct H.
  - rewrite gen_bind_assoc, gen_bind_yield, gen_bind_ret_l, Hloop.
    + rewrite gen_bind_Next_nil. now split.
    + cbn [In]. intros line y H.
      repeat (destruct H as [H | H]; [inversion H; subst; cbn; tauto |]).
      destruct H.
Qed.

Lemma aligned_nodes_pass_witness :
  let on_baseline := {| node_type := "line"; node_x := 10; node_y := 0 |} in
  let path := {| nodes := [on_baseline]; path_length := 0; segments := [];
                 path_bounds := None; direction := -1 |} in
  let outlines := [(("a", "a (U+0061)"), [path])]%string in
  OS2 Sample.regular = Some Sample.os2
  /\ map status_of
       (emitted (run (Outline.check_outline_alignment_miss Sample.env
                        Sample.regular outlines [])))
     = [PASS].
Proof.
  cbv zeta. split; [reflexivity |].
  refine (proj2 (aligned_nodes_pass Sample.env Sample.regular Sample.os2
                   _ [] eq_refl _ _)).
  - repeat constructor. discriminate.
  - intros item p node y [<- | []] [<- | []] [<- | []] _ Hy.
    cbn [In] in Hy.
    destruct Hy as [<- | [<- | [<- | [<- | [<- | []]]]]];
      first [left; reflexivity | right; reflexivity].
Defined.

(** A loop that gives up above the cutoff either ends in its summary PASS
    or leaves the warnings that the plain loop collects. *)
Lemma cutoff_fold_cases {X} (collect : list string -> X -> list string)
    (turn : list string -> X -> Gen (list string)) (summary : Msg) :
  (forall ws x,
     turn ws x
     = if (Outline.FALSE_POSITIVE_CUTOFF <? List.length (collect ws x))%nat
       then MkGen [(PASS, summary)] Return
       else MkGen [] (Next (collect ws x))) ->
  forall l ws0,
    for_fold l ws0 turn = MkGen [(PASS, summary)] Return
    \/ for_fold l ws0 turn = MkGen [] (Next (fold_left collect l ws0)).
Proof.
  intros Hturn. induction l as [|x l IH]; intros ws0; cbn [for_fold fold_left].
  - now right.
  - rewrite Hturn.
    destruct (Outline.FALSE_POSITIVE_CUTOFF <? List.length (collect ws0 x))%nat.
    + now left.
    + rewrite gen_bind_Next_nil. apply IH.
Qed.

Lemma fold_left_grows {X} (collect : list string -> X -> list string)
    (l : list X) (ws : list string) :
  (forall ws x, (List.length ws <= List.length (collect ws x))%nat) ->
  (List.length ws <= List.length (fold_left collect l ws))%nat.
Proof.
  intros Hgrow. revert ws. induction l as [|x l IH]; intros ws;
    cbn [fold_left]; [lia |].
  etransitivity; [apply (Hgrow ws x) | apply IH].
Qed.

Lemma fold_left_grows_at {X} (collect : list string -> X -> list string)
    (l : list X) (ws : list string) (x : X) :
  (forall ws x, (List.length ws <= List.length (collect ws x))%nat) ->
  In x l ->
  (forall ws, (List.length ws < List.length (collect ws x))%nat) ->
  (List.length ws < List.length (fold_left collect l ws))%nat.
Proof.
  intros Hgrow Hin Hstrict. revert ws.
  induction l as [|y l IH]; intros ws; cbn [fold_left]; [destruct Hin |].
  destruct Hin as [-> | Hin].
  - eapply Nat.lt_le_trans; [apply Hstrict | now apply fold_left_grows].
  - eapply Nat.le_lt_trans; [apply (Hgrow ws y) | now apply IH].
Qed.

(** The loop over the segments of one path in check_outline_short_segments. *)
Lemma short_segments_of_path (display_name : string) (outline_length : Q)
    (segs : list Segment) (ws : list string) (prev : bool) :
  let step := fun '(warnings, prev_was_line) seg =>
    let warnings :=
      if Outline.isclose_0 (seg_length seg) then
        warnings ++ [display_name +:+ " contains a short segment "
                     +:+ seg_repr seg]
      else if (Qltb (seg_length seg) Outline.SHORT_PATH_ABSOLUTE_EPSILON
               || Qltb (seg_length seg)
                    (Outline.SHORT_PATH_EPSILON * outline_length)%Q)
              && (prev_was_line || (2 <? points seg)%nat) then
        warnings ++ [display_name +:+ " contains a short segment "
                     +:+ seg_repr seg]
      else warnings in
    (warnings, Outline.is_line seg) in
  (List.length ws <= List.length (fst (fold_left step segs (ws, prev))))%nat
  /\ (Exists (fun seg => (seg_length seg == 0)%Q) segs ->
      (List.length ws < List.length (fst (fold_left step segs (ws, prev))))%nat).
Proof.
  intros step. revert ws prev.
  induction segs as [|seg segs IH]; intros ws prev; cbn [fold_left].
  - split; [cbn; lia | intros H; inversion H].
  - assert (Hone : exists ws1,
              step (ws, prev) seg = (ws1, Outline.is_line seg)
              /\ (List.length ws <= List.length ws1)%nat
              /\ ((seg_length seg == 0)%Q ->
                  (List.length ws < List.length ws1)%nat)).
    { unfold step. cbv beta iota zeta. unfold Outline.isclose_0.
      destruct (Qeq_bool (seg_length seg) 0) eqn:E.
      - eexists. split; [reflexivity |]. rewrite length_app. cbn. lia.
      - match goal with
        | |- context [if ?c then _ else _] => destruct c
        end; eexists; (split; [reflexivity |]); rewrite ?length_app;
          (split; [cbn; lia |]); intros H; apply Qeq_bool_iff in H;
          congruence. }
    destruct Hone as (ws1 & -> & Hle & Hlt).
    destruct (IH ws1 (Outline.is_line seg)) as [IHle IHlt]. split; [lia |].
    intros Hex. inversion Hex as [? ? Hz | ? ? Hrest]; subst.
    + specialize (Hlt Hz). lia.
    + specialize (IHlt Hrest). lia.
Qed.

Lemma glyph_short_segments_grows (glyph : string * string)
    (outlines : list BezierPath) (ws : list string) :
  (List.length ws
   <= List.length (Outline.glyph_short_segments glyph outlines ws))%nat
  /\ (Exists (fun p => Exists (fun seg => (seg_length seg == 0)%Q) (segments p))
        outlines ->
      (List.length ws
       < List.length (Outline.glyph_short_segments glyph outlines ws))%nat).
Proof.
  unfold Outline.glyph_short_segments. destruct glyph as [glyphname display_name].
  revert ws. induction outlines as [|p outlines IH]; intros ws;
    cbn [fold_left].
  - split; [lia | intros H; inversion H].
  - match goal with
    | |- context [fold_left ?f outlines ?w1] => set (ws1 := w1)
    end.
    assert (Hp : (List.length ws <= List.length ws1)%nat
                 /\ (Exists (fun seg => (seg_length seg == 0)%Q) (segments p) ->
                     (List.length ws < List.length ws1)%nat)).
    { subst ws1. destruct (rev (segments p)) as [|last rest] eqn:Erev.
      - split; [lia |]. intros Hex.
        apply (f_equal (@rev Segment)) in Erev. rewrite rev_involutive in Erev.
        rewrite Erev in Hex. inversion Hex.
      - apply short_segments_of_path. }
    destruct Hp as [Hle Hlt]. destruct (IH ws1) as [IHle IHlt].
    split; [lia |]. intros Hex.
    inversion Hex as [? ? Hz | ? ? Hrest]; subst.
    + specialize (Hlt Hz). lia.
    + specialize (IHlt Hrest). lia.
Qed.

(** X11 -- check_outline_short_segments always reports a segment of length
    zero: when some path of some glyph has one, the body does not raise and
    yields one outcome, the WARN found-short-segments or the summary PASS of
    the cutoff, never the PASS that says that no short segment was found. *)
Theorem zero_length_segment_is_reported (env : Env) (f : TTFont)
    (outlines_dict : OutlinesDict) (config : Config)
    (item : (string * string) * list BezierPath) (p : BezierPath)
    (seg : Segment) :
  In item outlines_dict -> In p (snd item) -> In seg (segments p) ->
  (seg_length seg == 0)%Q ->
  let r := run (Outline.check_outline_short_segments env f outlines_dict
                  config) in
  raised r = None
  /\ (map (fun e => (status_of e, code_of e)) (emitted r)
      = [(WARN, Some "found-short-segments"%string)]
      \/ emitted r
         = [(PASS, Text
              "So many short segments were found that this was probably by design.")]).
Proof.
  intros Hitem Hp Hseg Hzero r. subst r.
  unfold Outline.check_outline_short_segments.
  destruct (cutoff_fold_cases
              (fun ws (item : (string * string) * list BezierPath) =>
                 Outline.glyph_short_segments (fst item) (snd item) ws)
              Outline.short_segments_turn _
              (fun ws x => short_segments_turn_spec ws x) outlines_dict [])
    as [-> | ->].
  - rewrite gen_bind_Return. split; [reflexivity | now right].
  - rewrite gen_bind_Next_nil.
    match goal with
    | |- context [match ?ws with [] => _ | _ :: _ => _ end] =>
        assert (Hlen : (0 < List.length ws)%nat)
    end.
    { apply (fold_left_grows_at _ outlines_dict [] item).
      - intros ws x. apply glyph_short_segments_grows.
      - exact Hitem.
      - intros ws. apply glyph_short_segments_grows.
        apply List.Exists_exists. exists p. split; [exact Hp |].
        apply List.Exists_exists. now exists seg. }
    match goal with
    | |- context [match ?ws with [] => _ | _ :: _ => _ end] =>
        destruct ws; [cbn in Hlen; lia |]
    end.
    split; [reflexivity | now left].
Qed.

Lemma zero_length_segment_is_reported_witness :
  let path := {| nodes := []; path_length := 100; segments := [Sample.tiny_line];
                 path_bounds := None; direction := -1 |} in
  let item := (("a", "a (U+0061)"), [path])%string in
  map (fun e => (status_of e, code_of e))
    (emitted (run (Outline.check_outline_short_segments Sample.env
                     Sample.regular [item] [])))
  = [(WARN, Some "found-short-segments"%string)].
Proof.
  cbv zeta.
  destruct (zero_length_segment_is_reported Sample.env Sample.regular
              [(("a", "a (U+0061)"),
                [{| nodes := []; path_length := 100;
                    segments := [Sample.tiny_line];
                    path_bounds := None; direction := -1 |}])]%string []
              _ _ Sample.tiny_line
              (or_introl eq_refl) (or_introl eq_refl) (or_introl eq_refl)
              (Qeq_refl 0)) as [_ [H | H]].
  - exact H.
  - vm_compute in H. discriminate H.
Defined.

Lemma with_prev_first {A} (first : A) (rest : list A) :
  exists pairs,
    Outline.with_prev (first :: rest)
    = (List.last (first :: rest) first, first) :: pairs.
Proof.
  unfold Outline.with_prev.
  destruct (rev (first :: rest)) as [|l r] eqn:Erev.
  - apply (f_equal (@rev A)) in Erev. rewrite rev_involutive in Erev.
    discriminate Erev.
  - assert (Hl : l = List.last (first :: rest) first).
    { apply (f_equal (@rev A)) in Erev. rewrite rev_involutive in Erev.
      rewrite Erev. cbn [rev]. now rewrite List.last_last. }
    rewrite Hl. cbn [combine]. now eexists.
Qed.

Lemma glyph_colinear_vectors_grows (env : Env) (glyph : string * string)
    (outlines : list BezierPath) (ws : list string) :
  (List.length ws
   <= List.length (Outline.glyph_colinear_vectors env glyph outlines ws))%nat
  /\ (Exists (fun p =>
                match segments p with
                | [] => False
                | first :: rest =>
                    let last := List.last (first :: rest) first in
                    Outline.is_line last = true
                    /\ Outline.is_line first = true
                    /\ (Qabs (angle env (tangent0 last)
                              - angle env (tangent0 first))
                        < Outline.COLINEAR_EPSILON)%Q
                end) outlines ->
      (List.length ws
       < List.length (Outline.glyph_colinear_vectors env glyph outlines ws))%nat).
Proof.
  unfold Outline.glyph_colinear_vectors. destruct glyph as [glyphname display_name].
  set (step := fun (warnings : list string) '(prev, this) =>
         if Outline.is_line prev && Outline.is_line this then
           if Qltb (Qabs (angle env (tangent0 prev) - angle env (tangent0 this)))
                Outline.COLINEAR_EPSILON then
             warnings ++ [display_name +:+ ": " +:+ seg_repr prev
                          +:+ " -> " +:+ seg_repr this]
           else warnings
         else warnings).
  assert (Hstep : forall ws (x : Segment * Segment),
            (List.length ws <= List.length (step ws x))%nat).
  { intros ws0 [prev this]. unfold step.
    destruct (Outline.is_line prev && Outline.is_line this); [| lia].
    destruct (Qltb _ _); [| lia]. rewrite length_app. lia. }
  revert ws. induction outlines as [|p outlines IH]; intros ws;
    cbn [fold_left].
  - split; [lia | intros H; inversion H].
  - match goal with
    | |- context [fold_left _ outlines ?w1] => set (ws1 := w1)
    end.
    assert (Hp : (List.length ws <= List.length ws1)%nat
                 /\ (match segments p with
                     | [] => False
                     | first :: rest =>
                         let last := List.last (first :: rest) first in
                         Outline.is_line last = true
                         /\ Outline.is_line first = true
                         /\ (Qabs (angle env (tangent0 last)
                                   - angle env (tangent0 first))
                             < Outline.COLINEAR_EPSILON)%Q
                     end ->
                     (List.length ws < List.length ws1)%nat)).
    { subst ws1. split; [now apply fold_left_grows |].
      destruct (segments p) as [|first rest]; [intros [] |].
      cbv zeta. intros (Hlast & Hfirst & Hangle).
      destruct (with_prev_first first rest) as (pairs & ->).
      cbn [fold_left].
      eapply Nat.lt_le_trans; [| now apply fold_left_grows].
      unfold step at 1. rewrite Hlast, Hfirst. cbn [andb].
      unfold Qltb.
      destruct (Qle_bool Outline.COLINEAR_EPSILON _) eqn:E.
      - apply Qle_bool_iff in E. exfalso. now apply (Qlt_not_le _ _ Hangle).
      - cbn [negb]. rewrite length_app. cbn. lia. }
    destruct Hp as [Hle Hlt]. destruct (IH ws1) as [IHle IHlt].
    split; [lia |]. intros Hex.
    inversion Hex as [? ? Hz | ? ? Hrest]; subst.
    + specialize (Hlt Hz). lia.
    + specialize (IHlt Hrest). lia.
Qed.

(** X12 -- check_outline_colinear_vectors pairs the first segment of a path
    with its last one ([segments[i - 1]] at [i = 0]): when both are lines
    whose directions differ by less than COLINEAR_EPSILON, the body yields
    the WARN found-colinear-vectors or the summary PASS of the cutoff, never
    the PASS that says that no colinear vectors were found.  A path that
    consists of one line segment is such a path: the segment is paired with
    itself. *)
Theorem first_segment_is_paired_with_the_last (env : Env) (f : TTFont)
    (outlines_dict : OutlinesDict) (config : Config)
    (item : (string * string) * list BezierPath) (p : BezierPath)
    (first : Segment) (rest : list Segment) :
  In item outlines_dict -> In p (snd item) -> segments p = first :: rest ->
  let last := List.last (first :: rest) first in
  Outline.is_line last = true -> Outline.is_line first = true ->
  (Qabs (angle env (tangent0 last) - angle env (tangent0 first))
   < Outline.COLINEAR_EPSILON)%Q ->
  let r := run (Outline.check_outline_colinear_vectors env f outlines_dict
                  config) in
  raised r = None
  /\ (map (fun e => (status_of e, code_of e)) (emitted r)
      = [(WARN, Some "found-colinear-vectors"%string)]
      \/ emitted r
         = [(PASS, Text
              ("So many colinear vectors were found"
               +:+ " that this was probably by design."))]).
Proof.
  intros Hitem Hp Hsegs last Hlast Hfirst Hangle r. subst r.
  unfold Outline.check_outline_colinear_vectors.
  destruct (cutoff_fold_cases
              (fun ws (item : (string * string) * list BezierPath) =>
                 Outline.glyph_colinear_vectors env (fst item) (snd item) ws)
              (Outline.colinear_vectors_turn env) _
              (fun ws x => colinear_vectors_turn_spec env ws x)
              outlines_dict [])
    as [-> | ->].
  - rewrite gen_bind_Return. split; [reflexivity | now right].
  - rewrite gen_bind_Next_nil.
    match goal with
    | |- context [match ?ws with [] => _ | _ :: _ => _ end] =>
        assert (Hlen : (0 < List.length ws)%nat)
    end.
    { apply (fold_left_grows_at _ outlines_dict [] item).
      - intros ws x. apply glyph_colinear_vectors_grows.
      - exact Hitem.
      - intros ws. apply glyph_colinear_vectors_grows.
        apply List.Exists_exists. exists p. split; [exact Hp |].
        rewrite Hsegs. cbv zeta. now repeat split. }
    match goal with
    | |- context [match ?ws with [] => _ | _ :: _ => _ end] =>
        destruct ws; [cbn in Hlen; lia |]
    end.
    split; [reflexivity | now left].
Qed.

Lemma first_segment_is_paired_with_the_last_witness :
  let path := {| nodes := []; path_length := 100; segments := [Sample.tiny_line];
                 path_bounds := None; direction := -1 |} in
  let item := (("a", "a (U+0061)"), [path])%string in
  map (fun e => (status_of e, code_of e))
    (emitted (run (Outline.check_outline_colinear_vectors Sample.env
                     Sample.regular [item] [])))
  = [(WARN, Some "found-colinear-vectors"%string)].
Proof.
  cbv zeta.
  destruct (first_segment_is_paired_with_the_last Sample.env Sample.regular
              [(("a", "a (U+0061)"),
                [{| nodes := []; path_length := 100;
                    segments := [Sample.tiny_line];
                    path_bounds := None; direction := -1 |}])]%string []
              _ _ Sample.tiny_line []
              (or_introl eq_refl) (or_introl eq_refl) eq_refl
              eq_refl eq_refl eq_refl) as [_ [H | H]].
  - exact H.
  - vm_compute in H. discriminate H.
Defined.

(** *** check_outline_direction *)

Lemma enumerate_In_from {A} (l : list A) (s i : nat) (x : A) :
  In (i, x) (combine (seq s (List.length l)) l)
  <-> (s <= i)%nat /\ nth_error l (i - s) = Some x.
Proof.
  revert s. induction l as [|a l IH]; intros s; cbn [List.length seq combine In].
  - split; [intros [] | intros [_ H]]. now destruct (i - s)%nat.
  - rewrite IH. split.
    + intros [H | [Hle H]].
      * inversion H; subst. split; [lia |]. now rewrite Nat.sub_diag.
      * split; [lia |]. replace (i - s)%nat with (S (i - S s)) by lia.
        exact H.
    + intros [Hle H]. destruct (Nat.eq_dec i s) as [-> | Hne].
      * left. rewrite Nat.sub_diag in H. cbn in H. now inversion H.
      * right. split; [lia |].
        replace (i - s)%nat with (S (i - S s)) in H by lia. exact H.
Qed.

Lemma enumerate_In {A} (l : list A) (i : nat) (x : A) :
  In (i, x) (enumerate l) <-> nth_error l i = Some x.
Proof.
  unfold enumerate. rewrite enumerate_In_from, Nat.sub_0_r.
  split; [now intros [_ H] | intros H; split; [lia | exact H]].
Qed.

Lemma fold_left_invariant_In {S X} (P : S -> Prop) (step : S -> X -> S)
    (l : list X) (s0 : S) :
  (forall s x, In x l -> P s -> P (step s x)) -> P s0 ->
  P (fold_left step l s0).
Proof.
  revert s0. induction l as [|x l IH]; intros s0 Hstep H0; cbn [fold_left];
    [exact H0 |].
  apply IH.
  - intros s y Hy. apply Hstep. now right.
  - apply Hstep; [now left | exact H0].
Qed.

Lemma fold_left_establish {S X} (P : S -> Prop) (step : S -> X -> S)
    (l : list X) (s0 : S) (x : X) :
  (forall s y, P s -> P (step s y)) -> In x l ->
  (forall s, P (step s x)) ->
  P (fold_left step l s0).
Proof.
  intros Hmono Hin Hx. revert s0.
  induction l as [|y l IH]; intros s0; cbn [fold_left]; [destruct Hin |].
  destruct Hin as [-> | Hin].
  - apply fold_left_invariant_In; [intros; now apply Hmono | apply Hx].
  - now apply IH.
Qed.

Lemma fold_left_appends {X} (e : X -> list string) (l : list X)
    (ws : list string) :
  fold_left (fun ws x => ws ++ e x) l ws = ws ++ flat_map e l.
Proof.
  revert ws. induction l as [|x l IH]; intros ws; cbn [fold_left flat_map].
  - now rewrite app_nil_r.
  - now rewrite IH, app_assoc.
Qed.

Lemma flat_map_nil {X Y} (e : X -> list Y) (l : list X) :
  flat_map e l = [] <-> forall x, In x l -> e x = [].
Proof.
  induction l as [|x l IH]; cbn [flat_map In].
  - split; [intros _ ? [] | reflexivity].
  - split.
    + intros H. apply app_eq_nil in H as [Hx Hl].
      intros y [<- | Hy]; [exact Hx | now apply IH].
    + intros H. rewrite (H x (or_introl eq_refl)). apply IH.
      intros y Hy. apply H. now right.
Qed.

Lemma nat_eqb_spec (a b : nat) : Nat.eqb a b = true <-> a = b.
Proof. apply Nat.eqb_eq. Qed.

Lemma within_append_nonempty (j i k : nat) (is_within : list (nat * list nat)) :
  nonempty (Outline.within_get k (Outline.within_append j i is_within))
  = nonempty (Outline.within_get k is_within) || Nat.eqb j k.
Proof.
  unfold Outline.within_append, Outline.within_get.
  destruct (Nat.eqb j k) eqn:E.
  - apply Nat.eqb_eq in E. subst k.
    rewrite (dict_get_set_same Nat.eqb nat_eqb_spec).
    rewrite orb_true_r.
    now destruct (match dict_get Nat.eqb j is_within with
                  | Some l => l | None => [] end).
  - apply Nat.eqb_neq in E.
    rewrite (dict_get_set_other Nat.eqb nat_eqb_spec) by congruence.
    now rewrite orb_false_r.
Qed.

Lemma fold_left_ext_eq {S X} (F G : S -> X -> S) (l : list X) (s : S) :
  (forall s x, F s x = G s x) -> fold_left F l s = fold_left G l s.
Proof.
  intros H. revert s. induction l as [|x l IH]; intros s; cbn [fold_left];
    [reflexivity |]. now rewrite H, IH.
Qed.

Lemma fold_left_pair_appends {S X} (F : list string * S -> X -> list string * S)
    (e : X -> list string) (G : S -> X -> S) (l : list X)
    (ws : list string) (s : S) :
  (forall ws s x, F (ws, s) x = (ws ++ e x, G s x)) ->
  fold_left F l (ws, s) = (ws ++ flat_map e l, fold_left G l s).
Proof.
  intros H. revert ws s.
  induction l as [|x l IH]; intros ws s; cbn [fold_left flat_map].
  - now rewrite app_nil_r.
  - now rewrite H, IH, app_assoc.
Qed.

Lemma glyph_direction_spec (glyph : string * string)
    (outlines : list BezierPath) (ws : list string) :
  Outline.glyph_direction glyph outlines ws
  = ws
    ++ flat_map (fun '(i, my_bounds) =>
                   match my_bounds : option Box with
                   | None => [snd glyph
                              +:+ " has a path with no bounds (probably a single point)"]
                   | Some _ => []
                   end) (enumerate (map path_bounds outlines))
    ++ flat_map (fun '(i, path) =>
                   if nonempty (Outline.within_get i (Obs.is_within_of outlines))
                   then []
                   else if direction path =? 1
                        then [snd glyph +:+ " has a counter-clockwise outer contour"]
                        else []) (enumerate outlines).
Proof.
  unfold Outline.glyph_direction. destruct glyph as [glyphname display_name].
  cbv zeta. cbn [snd].
  rewrite (fold_left_pair_appends _
             (fun '(i, my_bounds) =>
                match my_bounds : option Box with
                | None => [display_name
                           +:+ " has a path with no bounds (probably a single point)"]
                | Some _ => []
                end)
             (Obs.is_within_turn (map path_bounds outlines))).
  2: { intros ws0 s [i [mb |]]; [now rewrite app_nil_r | reflexivity]. }
  fold (Obs.is_within_of outlines).
  rewrite (fold_left_ext_eq _
              (fun ws x =>
                 ws ++ (fun '(i, path) =>
                          if nonempty (Outline.within_get i (Obs.is_within_of outlines))
                          then []
                          else if direction path =? 1
                               then [display_name
                                     +:+ " has a counter-clockwise outer contour"]
                               else []) x)).
  2: { intros ws0 [i path].
       destruct (nonempty _); [now rewrite app_nil_r |].
       destruct (direction path =? 1); [reflexivity | now rewrite app_nil_r]. }
  now rewrite fold_left_appends, app_assoc.
Qed.

Lemma enumerate_bounds_In (outlines : list BezierPath) (i : nat) (b : Box) :
  In (i, Some b) (enumerate (map path_bounds outlines))
  <-> exists p, nth_error outlines i = Some p /\ path_bounds p = Some b.
Proof.
  rewrite enumerate_In, nth_error_map.
  destruct (nth_error outlines i) as [p |]; cbn [option_map].
  - split.
    + intros H. exists p. split; [reflexivity | congruence].
    + intros (q & Hq & Hb). congruence.
  - split; [discriminate | intros (q & Hq & _); discriminate].
Qed.

(** A path has an entry in [is_within] exactly when it lies within another
    path. *)
Lemma is_within_hidden (outlines : list BezierPath) (k : nat) :
  nonempty (Outline.within_get k (Obs.is_within_of outlines)) = true
  <-> Obs.hidden outlines k.
Proof.
  unfold Obs.is_within_of. cbv zeta. split.
  - revert k.
    apply (fold_left_invariant_In
             (fun iw => forall k,
                nonempty (Outline.within_get k iw) = true ->
                Obs.hidden outlines k)).
    2: { intros k H. discriminate H. }
    intros iw [i [mb |]] Hi Hiw; [| exact Hiw].
    unfold Obs.is_within_turn.
    apply (fold_left_invariant_In
             (fun iw => forall k,
                nonempty (Outline.within_get k iw) = true ->
                Obs.hidden outlines k)); [| exact Hiw].
    intros iw' [j [tb |]] Hj Hiw'; destruct (Nat.eqb i j) eqn:Eij;
      try exact Hiw'.
    destruct (Outline.bounds_contains mb tb) eqn:Ec; [| exact Hiw'].
    intros k. rewrite within_append_nonempty.
    intros H. apply orb_prop in H as [H | H]; [now apply Hiw' |].
    apply Nat.eqb_eq in H. subst j. apply Nat.eqb_neq in Eij.
    apply enumerate_bounds_In in Hi as (p_i & Hpi & Hbi).
    apply enumerate_bounds_In in Hj as (p_k & Hpk & Hbk).
    now exists i, p_i, p_k, mb, tb.
  - intros (i & p_i & p_k & b_i & b_k & Hne & Hpi & Hpk & Hbi & Hbk & Hc).
    assert (Hmono : forall i0 mb0 iw (y : nat * option Box),
              nonempty (Outline.within_get k iw) = true ->
              nonempty (Outline.within_get k
                (let '(j, their_bounds) := y in
                 if Nat.eqb i0 j then iw
                 else match their_bounds with
                      | None => iw
                      | Some their_bounds =>
                          if Outline.bounds_contains mb0 their_bounds
                          then Outline.within_append j i0 iw
                          else iw
                      end)) = true).
    { intros i0 mb0 iw [j [tb |]] H; destruct (Nat.eqb i0 j); try exact H.
      destruct (Outline.bounds_contains mb0 tb); [| exact H].
      rewrite within_append_nonempty, H. reflexivity. }
    apply (fold_left_establish
             (fun iw => nonempty (Outline.within_get k iw) = true)
             _ _ _ (i, Some b_i)).
    + intros iw [i0 [mb0 |]] H; [| exact H]. unfold Obs.is_within_turn.
      apply (fold_left_invariant_In
               (fun iw => nonempty (Outline.within_get k iw) = true));
        [| exact H].
      intros s y _ Hs. now apply Hmono.
    + apply enumerate_bounds_In. now exists p_i.
    + intros iw. unfold Obs.is_within_turn.
      apply (fold_left_establish
               (fun iw => nonempty (Outline.within_get k iw) = true)
               _ _ _ (k, Some b_k)).
      * intros s y Hs. now apply Hmono.
      * apply enumerate_bounds_In. now exists p_k.
      * intros s. apply Nat.eqb_neq in Hne. rewrite Hne, Hc.
        rewrite within_append_nonempty, Nat.eqb_refl. apply orb_true_r.
Qed.

(** What one glyph adds to the warnings is empty exactly when each of its
    paths has bounds and each path of direction 1 lies within another. *)
Lemma glyph_direction_quiet (glyph : string * string)
    (outlines : list BezierPath) (ws : list string) :
  (exists extra, Outline.glyph_direction glyph outlines ws = ws ++ extra
     /\ (extra = [] <->
         forall k p, nth_error outlines k = Some p ->
           path_bounds p <> None
           /\ (direction p = 1 -> Obs.hidden outlines k))).
Proof.
  rewrite glyph_direction_spec. eexists. split; [reflexivity |].
  split.
  - intros H. apply app_eq_nil in H as [H1 H2].
    intros k p Hk. split.
    + intros Hnone.
      assert (Hin : In (k, @None Box) (enumerate (map path_bounds outlines))).
      { apply enumerate_In. rewrite nth_error_map, Hk. cbn. now rewrite Hnone. }
      apply (proj1 (flat_map_nil _ _) H1) in Hin. discriminate Hin.
    + intros Hdir.
      assert (Hin : In (k, p) (enumerate outlines)) by now apply enumerate_In.
      apply (proj1 (flat_map_nil _ _) H2) in Hin. cbv beta iota in Hin.
      destruct (nonempty _) eqn:E; [now apply is_within_hidden |].
      apply Z.eqb_eq in Hdir. rewrite Hdir in Hin. discriminate Hin.
  - intros Hclean.
    assert (H1 : flat_map (fun '(i, my_bounds) =>
                   match my_bounds : option Box with
                   | None => [snd glyph
                              +:+ " has a path with no bounds (probably a single point)"]
                   | Some _ => []
                   end) (enumerate (map path_bounds outlines)) = []).
    { apply flat_map_nil. intros [i [b |]] Hin; [reflexivity |].
      apply enumerate_In in Hin. rewrite nth_error_map in Hin.
      destruct (nth_error outlines i) as [p |] eqn:Ep; [| discriminate Hin].
      cbn in Hin. destruct (Hclean i p Ep) as [Hb _]. congruence. }
    rewrite H1. cbn [app]. apply flat_map_nil. intros [i p] Hin.
    apply enumerate_In in Hin. destruct (Hclean i p Hin) as [_ Hdir].
    destruct (nonempty _) eqn:E; [reflexivity |].
    destruct (direction p =? 1) eqn:Ed; [| reflexivity].
    apply Z.eqb_eq in Ed. apply Hdir, is_within_hidden in Ed. congruence.
Qed.

Lemma direction_warnings_quiet (outlines_dict : OutlinesDict)
    (ws : list string) :
  exists extra,
    fold_left (fun warnings '(glyph, outlines) =>
                 Outline.glyph_direction glyph outlines warnings)
              outlines_dict ws = ws ++ extra
    /\ (extra = [] <->
        forall item k p,
          In item outlines_dict ->
          nth_error (snd item) k = Some p ->
          path_bounds p <> None
          /\ (direction p = 1 -> Obs.hidden (snd item) k)).
Proof.
  revert ws.
  induction outlines_dict as [|[glyph outlines] od IH]; intros ws;
    cbn [fold_left].
  - exists []. split; [now rewrite app_nil_r |].
    split; [intros _ ? ? ? [] | reflexivity].
  - destruct (glyph_direction_quiet glyph outlines ws)
      as (extra1 & -> & Hq1).
    destruct (IH (ws ++ extra1)) as (extra2 & -> & Hq2).
    exists (extra1 ++ extra2). split; [now rewrite app_assoc |].
    split.
    + intros H. apply app_eq_nil in H as [H1 H2].
      intros item k p [<- | Hin] Hk.
      * now apply (proj1 Hq1 H1).
      * now apply (proj1 Hq2 H2 item).
    + intros Hclean.
      rewrite (proj2 Hq1), (proj2 Hq2); [reflexivity | |].
      * intros item k p Hin. apply Hclean. now right.
      * intros k p. apply (Hclean (glyph, outlines)). now left.
Qed.

(** X13 -- check_outline_direction never raises and yields nothing or the
    single WARN ccw-outer-contour.  It yields nothing exactly when, in
    every glyph, each path has bounds and each path of direction 1 lies
    within another path of the glyph (the bounds of a path at another index
    contain its bounds, so two paths with the same bounds hide each
    other). *)
Theorem direction_check_is_silent_iff (env : Env) (f : TTFont)
    (outlines_dict : OutlinesDict) (config : Config) :
  let r := run (Outline.check_outline_direction env f outlines_dict config) in
  raised r = None
  /\ (emitted r = []
      \/ map (fun e => (status_of e, code_of e)) (emitted r)
         = [(WARN, Some "ccw-outer-contour"%string)])
  /\ (emitted r = []
      <-> forall item k p,
            In item outlines_dict -> nth_error (snd item) k = Some p ->
            path_bounds p <> None
            /\ (direction p = 1 -> Obs.hidden (snd item) k)).
Proof.
  cbv zeta. unfold Outline.check_outline_direction. cbv zeta.
  destruct (direction_warnings_quiet outlines_dict []) as (extra & -> & Hq).
  cbn [app].
  destruct extra as [|w extra].
  - cbn [run emitted raised flow yielded pass]. split; [reflexivity |].
    split; [now left |]. split; [intros _; now apply Hq | reflexivity].
  - cbn [run emitted raised flow yielded yield map status_of code_of fst snd].
    split; [reflexivity |]. split; [now right |].
    split; [discriminate |]. intros Hclean. apply Hq in Hclean.
    discriminate Hclean.
Qed.

Lemma bounds_contains_refl (b : Box) : Outline.bounds_contains b b = true.
Proof.
  unfold Outline.bounds_contains.
  rewrite !(proj2 (Qle_bool_iff _ _) (Qle_refl _)). reflexivity.
Qed.

(** X14 -- two paths with the same bounds hide each other from
    check_outline_direction: on a glyph that consists of two such paths the
    body yields nothing, whatever the directions of the two paths are. *)
Theorem paths_with_equal_bounds_are_not_reported (env : Env) (f : TTFont)
    (config : Config) (glyph : string * string) (p1 p2 : BezierPath)
    (b : Box) :
  path_bounds p1 = Some b -> path_bounds p2 = Some b ->
  run (Outline.check_outline_direction env f [(glyph, [p1; p2])] config)
  = MkRun [] None.
Proof.
  intros H1 H2. unfold Outline.check_outline_direction. cbv zeta.
  destruct (direction_warnings_quiet [(glyph, [p1; p2])] [])
    as (extra & -> & Hq).
  cbn [app]. rewrite (proj2 Hq); [reflexivity |].
  intros item k p [<- | []] Hk. cbn [snd] in *.
  destruct k as [|[|k]]; cbn [nth_error] in Hk.
  - inversion Hk; subst p. split; [congruence |]. intros _.
    exists 1%nat, p2, p1, b, b. repeat split; auto.
    apply bounds_contains_refl.
  - inversion Hk; subst p. split; [congruence |]. intros _.
    exists 0%nat, p1, p2, b, b. repeat split; auto.
    apply bounds_contains_refl.
  - destruct k; discriminate Hk.
Qed.

Lemma paths_with_equal_bounds_are_not_reported_witness :
  let box := {| left := 0; right := 100; top := 100; bottom := 0 |} in
  let ccw := {| nodes := []; path_length := 400; segments := [];
                path_bounds := Some box; direction := 1 |} in
  run (Outline.check_outline_direction Sample.env Sample.regular
         [(("o", "o (U+006F)")%string, [ccw; ccw])] [])
  = MkRun [] None.
Proof.
  cbv zeta.
  match goal with
  | |- run (Outline.check_outline_direction _ _ [(_, [?p; ?q])] _) = _ =>
      exact (paths_with_equal_bounds_are_not_reported Sample.env
               Sample.regular [] ("o", "o (U+006F)")%string p q
               {| left := 0; right := 100; top := 100; bottom := 0 |}
               eq_refl eq_refl)
  end.
Defined.

(** *** check_overlapping_path_segments *)

Lemma fold_left_flat_map {S X Y} (g : S -> Y -> S) (h : X -> list Y)
    (l : list X) (s : S) :
  fold_left (fun s x => fold_left g (h x) s) l s
  = fold_left g (flat_map h l) s.
Proof.
  revert s. induction l as [|x l IH]; intros s; cbn [fold_left flat_map];
    [reflexivity |]. now rewrite fold_left_app, IH.
Qed.

Lemma fold_left_flat_map_pair {S T X Y} (g : S * T -> Y -> S * T)
    (h : X -> list Y) (l : list X) (s : S * T) :
  fold_left (fun '(a, b) x => fold_left g (h x) (a, b)) l s
  = fold_left g (flat_map h l) s.
Proof.
  rewrite <- fold_left_flat_map. apply fold_left_ext_eq. now intros [a b] x.
Qed.

Lemma fold_left_quiet {X} (collect : list string -> X -> list string)
    (Q : X -> Prop) :
  (forall ws x, exists extra,
     collect ws x = ws ++ extra /\ (extra = [] <-> Q x)) ->
  forall l ws, exists extra,
    fold_left collect l ws = ws ++ extra
    /\ (extra = [] <-> forall x, In x l -> Q x).
Proof.
  intros Hc. induction l as [|x l IH]; intros ws; cbn [fold_left].
  - exists []. split; [now rewrite app_nil_r |].
    split; [intros _ ? [] | reflexivity].
  - destruct (Hc ws x) as (e1 & -> & H1).
    destruct (IH (ws ++ e1)) as (e2 & -> & H2).
    exists (e1 ++ e2). split; [now rewrite app_assoc |]. split.
    + intros H. apply app_eq_nil in H as [He1 He2].
      intros y [<- | Hy]; [now apply H1 | now apply H2].
    + intros H. rewrite (proj2 H1), (proj2 H2); [reflexivity | |].
      * intros y Hy. apply H. now right.
      * apply H. now left.
Qed.

Lemma point_eqb_sym (a b : Point) : Outline.point_eqb a b = Outline.point_eqb b a.
Proof.
  unfold Outline.point_eqb. apply eq_true_iff_eq.
  rewrite !andb_true_iff, !Qeq_bool_iff. split; intros [H1 H2]; now split.
Qed.

Lemma point_eqb_trans (a b c : Point) :
  Outline.point_eqb a b = true -> Outline.point_eqb b c = true ->
  Outline.point_eqb a c = true.
Proof.
  unfold Outline.point_eqb. rewrite !andb_true_iff, !Qeq_bool_iff.
  intros [H1 H2] [H3 H4]. split; etransitivity; eassumption.
Qed.

Lemma ends_eqb_sym (a b : Point * Point) :
  Outline.ends_eqb a b = Outline.ends_eqb b a.
Proof.
  unfold Outline.ends_eqb.
  now rewrite (point_eqb_sym (fst a)), (point_eqb_sym (snd a)).
Qed.

Lemma ends_eqb_trans (a b c : Point * Point) :
  Outline.ends_eqb a b = true -> Outline.ends_eqb b c = true ->
  Outline.ends_eqb a c = true.
Proof.
  unfold Outline.ends_eqb. rewrite !andb_true_iff.
  intros [H1 H2] [H3 H4]. split; eapply point_eqb_trans; eassumption.
Qed.

Lemma existsb_app_last {A} (P : A -> bool) (l : list A) (x : A) :
  existsb P (l ++ [x]) = existsb P l || P x.
Proof. rewrite existsb_app. cbn. now rewrite orb_false_r. Qed.

(** The loop over the segments of a glyph: [seen] holds the end points of
    the segments [processed] so far. *)
Lemma overlapping_segments_loop (display_name : string) (segs : list Segment) :
  let step := fun '(failed, seen) seg =>
    let normal := (seg_start seg, seg_end seg) in
    let flipped := (seg_end seg, seg_start seg) in
    let failed :=
      if existsb (Outline.ends_eqb normal) seen
         || existsb (Outline.ends_eqb flipped) seen then
        failed ++ [display_name +:+ ": " +:+ seg_repr seg
                   +:+ " has the same coordinates as a previous segment."]
      else failed in
    (failed, if existsb (Outline.ends_eqb normal) seen then seen
             else seen ++ [normal]) in
  forall (processed : list Segment) (failed : list string)
         (seen : list (Point * Point)),
    (forall x, existsb (Outline.ends_eqb x) seen
               = existsb (fun s => Outline.ends_eqb x (seg_start s, seg_end s))
                   processed) ->
    exists extra,
      fst (fold_left step segs (failed, seen)) = failed ++ extra
      /\ (extra = [] <->
          (forall s, In s segs ->
             existsb (Obs.same_ends s) processed = false)
          /\ ForallOrdPairs (fun earlier later =>
                               Obs.same_ends later earlier = false) segs).
Proof.
  intros step. induction segs as [|seg segs IH]; intros processed failed seen Hinv;
    cbn [fold_left].
  - exists []. split; [cbn; now rewrite app_nil_r |].
    split; [| reflexivity]. intros _. split; [intros ? [] | constructor].
  - assert (Hrep : existsb (Outline.ends_eqb (seg_start seg, seg_end seg)) seen
                   || existsb (Outline.ends_eqb (seg_end seg, seg_start seg)) seen
                   = existsb (Obs.same_ends seg) processed).
    { rewrite !Hinv. unfold Obs.same_ends. clear.
      induction processed as [|s l IH]; [reflexivity |]. cbn [existsb].
      rewrite <- IH.
      destruct (Outline.ends_eqb (seg_start seg, seg_end seg) _),
               (Outline.ends_eqb (seg_end seg, seg_start seg) _),
               (existsb _ l), (existsb _ l); reflexivity. }
    set (seen' := if existsb (Outline.ends_eqb (seg_start seg, seg_end seg)) seen
                  then seen else seen ++ [(seg_start seg, seg_end seg)]).
    assert (Hinv' : forall x,
              existsb (Outline.ends_eqb x) seen'
              = existsb (fun s => Outline.ends_eqb x (seg_start s, seg_end s))
                  (processed ++ [seg])).
    { intros x. rewrite existsb_app_last, <- Hinv. subst seen'.
      destruct (existsb (Outline.ends_eqb (seg_start seg, seg_end seg)) seen)
        eqn:E.
      - destruct (Outline.ends_eqb x (seg_start seg, seg_end seg)) eqn:Ex;
          [| now rewrite orb_false_r].
        rewrite orb_true_r. apply existsb_exists in E as (y & Hy & Hxy).
        apply existsb_exists. exists y. split; [exact Hy |].
        eapply ends_eqb_trans; eassumption.
      - now rewrite existsb_app_last. }
    unfold step at 2. cbv beta iota zeta. fold seen'. rewrite Hrep.
    destruct (existsb (Obs.same_ends seg) processed) eqn:Erep.
    + destruct (IH (processed ++ [seg]) (failed ++ [display_name +:+ ": " +:+ seg_repr seg +:+ " has the same coordinates as a previous segment."]) seen' Hinv')
        as (extra & -> & _).
      eexists. split; [now rewrite <- app_assoc |]. split; [discriminate |].
      intros [H _]. rewrite (H seg (or_introl eq_refl)) in Erep.
      discriminate Erep.
    + destruct (IH (processed ++ [seg]) failed seen' Hinv')
        as (extra & -> & Hq).
      exists extra. split; [reflexivity |]. rewrite Hq. split.
      * intros [Hall Hfop]. split.
        -- intros s [<- | Hs]; [exact Erep |].
           specialize (Hall s Hs). rewrite existsb_app_last in Hall.
           now apply orb_false_iff in Hall as [H _].
        -- constructor; [| exact Hfop].
           apply List.Forall_forall. intros s Hs.
           specialize (Hall s Hs). rewrite existsb_app_last in Hall.
           now apply orb_false_iff in Hall as [_ H].
      * intros [Hall Hfop]. inversion Hfop as [|? ? Hhead Htail]; subst.
        split; [| exact Htail].
        intros s Hs. rewrite existsb_app_last.
        rewrite (Hall s (or_intror Hs)). cbn [orb].
        rewrite List.Forall_forall in Hhead. now apply Hhead.
Qed.

Lemma glyph_overlapping_quiet (glyph : string * string)
    (outlines : list BezierPath) (failed : list string) :
  exists extra,
    Outline.glyph_overlapping glyph outlines failed = failed ++ extra
    /\ (extra = [] <->
        ForallOrdPairs (fun earlier later => Obs.same_ends later earlier = false)
          (flat_map segments outlines)).
Proof.
  unfold Outline.glyph_overlapping. cbv zeta.
  rewrite (fold_left_flat_map_pair _ segments).
  destruct (overlapping_segments_loop (snd glyph) (flat_map segments outlines)
              [] failed [] (fun x => eq_refl)) as (extra & Hrun & Hq).
  exists extra. split; [exact Hrun |]. rewrite Hq. split.
  - now intros [_ H].
  - intros H. split; [intros s _; reflexivity | exact H].
Qed.

(** X15 -- check_overlapping_path_segments never raises and yields one
    outcome, the PASS or the WARN overlapping-path-segments.  It yields the
    PASS exactly when no glyph has two segments with the same end points,
    in the same or in the opposite order; segments of different glyphs are
    not compared. *)
Theorem overlapping_check_passes_iff_no_repeat (env : Env) (f : TTFont)
    (outlines_dict : OutlinesDict) (config : Config) :
  let r := run (Outline.check_overlapping_path_segments env f outlines_dict
                  config) in
  raised r = None
  /\ (map (fun e => (status_of e, code_of e)) (emitted r) = [(PASS, None)]
      \/ map (fun e => (status_of e, code_of e)) (emitted r)
         = [(WARN, Some "overlapping-path-segments"%string)])
  /\ (map status_of (emitted r) = [PASS]
      <-> forall item, In item outlines_dict ->
            ForallOrdPairs
              (fun earlier later => Obs.same_ends later earlier = false)
              (flat_map segments (snd item))).
Proof.
  cbv zeta. unfold Outline.check_overlapping_path_segments. cbv zeta.
  destruct (fold_left_quiet
              (fun failed '(glyph, outlines) =>
                 Outline.glyph_overlapping glyph outlines failed)
              (fun item =>
                 ForallOrdPairs
                   (fun earlier later => Obs.same_ends later earlier = false)
                   (flat_map segments (snd item)))
              (fun ws '(glyph, outlines) =>
                 glyph_overlapping_quiet glyph outlines ws)
              outlines_dict []) as (extra & -> & Hq).
  cbn [app]. destruct extra as [|w extra];
    cbn [run emitted raised flow yielded yield map status_of code_of fst snd].
  - split; [reflexivity |]. split; [now left |].
    split; [intros _; now apply Hq | reflexivity].
  - split; [reflexivity |]. split; [now right |].
    split; [discriminate |]. intros H. apply Hq in H. discriminate H.
Qed.

(** *** The condition outlines_dict *)

Lemma pair_eqb_spec (a b : string * string) :
  Outline.pair_eqb a b = true <-> a = b.
Proof.
  unfold Outline.pair_eqb. destruct a as [a1 a2], b as [b1 b2]. cbn [fst snd].
  rewrite andb_true_iff, !String.eqb_eq. split.
  - now intros [-> ->].
  - intros H. inversion H. now split.
Qed.

Lemma dict_of_fresh_keys {V} (key : string -> string * string) (value : string -> V)
    (l : list string) (acc : list ((string * string) * V)) :
  (forall g, fst (key g) = g) ->
  List.NoDup l ->
  (forall g, In g l -> ~ In g (map (fun e => fst (fst e)) acc)) ->
  fold_left (fun d g => dict_set Outline.pair_eqb (key g) (value g) d) l acc
  = acc ++ map (fun g => (key g, value g)) l.
Proof.
  intros Hkey. revert acc.
  induction l as [|g l IH]; intros acc Hnd Hfresh; cbn [fold_left map].
  - now rewrite app_nil_r.
  - inversion Hnd as [|? ? Hg Hnd']; subst.
    rewrite (dict_set_fresh Outline.pair_eqb pair_eqb_spec).
    + rewrite IH; [now rewrite <- app_assoc | exact Hnd' |].
      intros g' Hg'. rewrite map_app, in_app_iff. cbn [map In fst].
      rewrite Hkey. intros [H | [-> | []]].
      * now apply (Hfresh g' (or_intror Hg')).
      * contradiction.
    + intros Hin. apply (Hfresh g (or_introl eq_refl)).
      apply in_map_iff in Hin as (e & He & Hine).
      apply in_map_iff. exists e. split; [| exact Hine].
      rewrite He. apply Hkey.
Qed.

Lemma reversed_cmap_In (cmap : list (Z * string)) (g : string) (cp : Z) :
  dict_get String.eqb g
    (fold_left (fun d '(k, v) => dict_set String.eqb v k d) cmap []) = Some cp ->
  In (cp, g) cmap.
Proof.
  apply (fold_left_invariant_In
           (fun d => dict_get String.eqb g d = Some cp -> In (cp, g) cmap)).
  - intros d [k v] Hin Hd.
    destruct (String.eqb_spec g v) as [-> | Hne].
    + rewrite (dict_get_set_same String.eqb string_eqb_spec).
      intros H. inversion H; subst. exact Hin.
    + rewrite (dict_get_set_other String.eqb string_eqb_spec) by exact Hne.
      exact Hd.
  - discriminate.
Qed.

(** X16 -- the condition outlines_dict on a font whose glyph order names
    each glyph once: the dictionary has one entry per glyph, in glyph
    order, keyed by the glyph name and a display name, and holding the
    paths of that glyph.  The display name is the glyph name itself, or the
    glyph name followed by a code point that the font's best cmap maps to
    that glyph. *)
Theorem outlines_dict_has_one_entry_per_glyph (env : Env) (f : TTFont) :
  List.NoDup (glyphOrder f) ->
  let d := Outline.outlines_dict env f in
  map (fun e => fst (fst e)) d = glyphOrder f
  /\ map snd d = map (fromFonttoolsGlyph env f) (glyphOrder f)
  /\ Forall (fun e =>
               let '(glyphname, display_name) := fst e in
               display_name = glyphname
               \/ exists cp,
                    In (cp, glyphname) (bestCmap f)
                    /\ display_name
                       = glyphname +:+ " (U+" +:+ zfill 4 (hex true cp) +:+ ")")
            d.
Proof.
  intros Hnd d. subst d. unfold Outline.outlines_dict. cbv zeta.
  set (reversed_cmap :=
         fold_left (fun d '(k, v) => dict_set String.eqb v k d) (bestCmap f) []).
  rewrite (dict_of_fresh_keys
             (fun g => (g, match dict_get String.eqb g reversed_cmap with
                           | Some cp => g +:+ " (U+" +:+ zfill 4 (hex true cp) +:+ ")"
                           | None => g
                           end))
             (fromFonttoolsGlyph env f) (glyphOrder f) []
             (fun g => eq_refl) Hnd (fun g _ H => H)).
  cbn [app]. rewrite !map_map. cbn [fst snd].
  split; [apply map_id |]. split; [reflexivity |].
  apply List.Forall_forall. intros e He.
  apply in_map_iff in He as (g & <- & _). cbn [fst].
  destruct (dict_get String.eqb g reversed_cmap) as [cp |] eqn:E;
    [| now left].
  right. exists cp. split; [| reflexivity].
  now apply reversed_cmap_In.
Qed.

Lemma outlines_dict_has_one_entry_per_glyph_witness :
  List.NoDup (glyphOrder Sample.regular)
  /\ map (fun e => fst (fst e)) (Outline.outlines_dict Sample.env Sample.regular)
     = glyphOrder Sample.regular.
Proof.
  assert (H : List.NoDup (glyphOrder Sample.regular)).
  { repeat (constructor; [cbn; intuition discriminate |]). constructor. }
  split; [exact H |].
  apply (outlines_dict_has_one_entry_per_glyph Sample.env Sample.regular H).
Defined.

(** *** The family checks *)

Section FreshKeyFold.
Context {K V A : Type} (eqb : K -> K -> bool).
Hypothesis eqb_spec : forall a b, eqb a b = true <-> a = b.

Lemma fold_dict_set_fresh (key : A -> K) (value : A -> V) (l : list A)
    (acc : list (K * V)) :
  List.NoDup (map key l) ->
  (forall a, In a l -> ~ In (key a) (map fst acc)) ->
  fold_left (fun d a => dict_set eqb (key a) (value a) d) l acc
  = acc ++ map (fun a => (key a, value a)) l.
Proof.
  revert acc. induction l as [|a l IH]; intros acc Hnd Hfresh;
    cbn [fold_left map].
  - now rewrite app_nil_r.
  - cbn [map] in Hnd. inversion Hnd as [|? ? Ha Hnd']; subst.
    rewrite (dict_set_fresh eqb eqb_spec)
      by (apply Hfresh; now left).
    rewrite IH; [now rewrite <- app_assoc | exact Hnd' |].
    intros b Hb. rewrite map_app, in_app_iff. cbn [map In fst].
    intros [H | [H | []]].
    + now apply (Hfresh b (or_intror Hb)).
    + apply Ha. rewrite H. now apply in_map.
Qed.
End FreshKeyFold.

Lemma in_ints_In (x : Z) (l : list Z) : Family.in_ints x l = true <-> In x l.
Proof.
  unfold Family.in_ints. rewrite existsb_exists. split.
  - intros (y & Hy & E). apply Z.eqb_eq in E. now subst y.
  - intros H. exists x. split; [exact H | apply Z.eqb_refl].
Qed.

Lemma int_set_In (x : Z) (l : list Z) : In x (Family.int_set l) <-> In x l.
Proof. apply nodup_In. Qed.

(** The code points of a cmap set that are not common to the family. *)
Lemma residue_nil (common cmap : list Z) :
  List.filter (fun cp => negb (Family.in_ints cp common)) cmap = []
  <-> forall cp, In cp cmap -> In cp common.
Proof.
  split.
  - intros H cp Hcp. apply in_ints_In.
    destruct (Family.in_ints cp common) eqn:E; [reflexivity |].
    assert (Hin : In cp (List.filter
                           (fun cp => negb (Family.in_ints cp common)) cmap)).
    { apply filter_In. split; [exact Hcp | now rewrite E]. }
    rewrite H in Hin. destruct Hin.
  - intros H. apply filter_nil_In. intros cp Hcp.
    apply H, in_ints_In in Hcp. now rewrite Hcp.
Qed.

Lemma common_cps_In (first : list Z) (others : list (list Z)) (cp : Z) :
  In cp (List.filter (fun cp => forallb (Family.in_ints cp) others) first)
  <-> In cp first /\ forall o, In o others -> In cp o.
Proof.
  rewrite filter_In, forallb_forall. split.
  - intros [H1 H2]. split; [exact H1 |]. intros o Ho. now apply in_ints_In, H2.
  - intros [H1 H2]. split; [exact H1 |]. intros o Ho. now apply in_ints_In, H2.
Qed.

(** X17 -- the check family/equal_codepoint_coverage on fonts with
    different style names: on an empty family it raises IndexError and
    yields nothing; otherwise it yields one outcome and raises nothing, a
    PASS or a FAIL with the code glyphset-diverges, and the outcome is PASS
    exactly when any two fonts of the family encode the same code points. *)
Theorem codepoint_coverage_passes_iff_the_cmaps_agree (env : Env)
    (ttFonts : list TTFont) (config : Config) :
  List.NoDup (map (fun f => canonical_stylename env (file_name f)) ttFonts) ->
  let r := run (Family.com_google_fonts_check_family_equal_codepoint_coverage
                  env ttFonts config) in
  (ttFonts = [] -> raised r = Some IndexError /\ emitted r = [])
  /\ (ttFonts <> [] ->
      raised r = None
      /\ (map (fun e => (status_of e, code_of e)) (emitted r) = [(PASS, None)]
          \/ map (fun e => (status_of e, code_of e)) (emitted r)
             = [(FAIL, Some "glyphset-diverges"%string)])
      /\ (map status_of (emitted r) = [PASS]
          <-> forall f1 f2 cp,
                In f1 ttFonts -> In f2 ttFonts ->
                In cp (map fst (bestCmap f1)) -> In cp (map fst (bestCmap f2)))).
Proof.
  intros Hnd r. subst r.
  unfold Family.com_google_fonts_check_family_equal_codepoint_coverage.
  cbv zeta.
  rewrite (fold_dict_set_fresh String.eqb string_eqb_spec
             (fun f => canonical_stylename env (file_name f))
             (fun f => Family.int_set (map fst (bestCmap f)))
             ttFonts [] Hnd (fun a _ H => H)).
  cbn [app]. rewrite map_map. cbn [snd].
  split.
  - intros ->. cbn. split; reflexivity.
  - intros Hne. destruct ttFonts as [|f0 fs]; [contradiction |].
    cbn [map]. gen_cbn.
    set (common := List.filter _ (Family.int_set (map fst (bestCmap f0)))).
    set (cmaps := (canonical_stylename env (file_name f0),
                   Family.int_set (map fst (bestCmap f0)))
                  :: map _ fs).
    destruct (fold_left_quiet
                (fun problems '(style, cmap) =>
                   match List.filter
                           (fun cp => negb (Family.in_ints cp common)) cmap with
                   | [] => problems
                   | _ :: _ =>
                       problems ++
                       [("* " +:+ style +:+ " contains encoded codepoints not found "
                         +:+ "in other related fonts:"
                         +:+ bullet_list env config
                               (map (fun cp => "U+" +:+ zfill 4 (hex false cp))
                                    (int_set_iter env
                                       (List.filter
                                          (fun cp => negb (Family.in_ints cp common))
                                          cmap))) "-")%string]
                   end)
                (fun sc : string * list Z =>
                   forall cp, In cp (snd sc) -> In cp common))
      with (l := cmaps) (ws := @nil string) as (extra & Hfold & Hextra).
    { intros ws [style cmap]. cbn [snd].
      destruct (List.filter _ cmap) as [|c cs] eqn:E.
      - exists []. split; [now rewrite app_nil_r |].
        split; [intros _; now apply residue_nil | reflexivity].
      - eexists. split; [reflexivity |].
        split; [discriminate |].
        intros H. apply residue_nil in H. rewrite H in E. discriminate. }
    cbn [app] in Hfold.
    assert (Hagree :
              (forall x, In x cmaps -> forall cp, In cp (snd x) -> In cp common)
              <-> forall f1 f2 cp,
                    In f1 (f0 :: fs) -> In f2 (f0 :: fs) ->
                    In cp (map fst (bestCmap f1)) -> In cp (map fst (bestCmap f2))).
    { subst cmaps common. split.
      - intros H f1 f2 cp H1 H2 Hcp.
        assert (Hc : In cp (List.filter
                              (fun cp => forallb (Family.in_ints cp)
                                 (map (fun x => Family.int_set (map fst (bestCmap x))) fs))
                              (Family.int_set (map fst (bestCmap f0))))).
        { apply (H (canonical_stylename env (file_name f1),
                    Family.int_set (map fst (bestCmap f1)))).
          - destruct H1 as [<- | H1]; [now left | right].
            apply in_map_iff. now exists f1.
          - cbn [snd]. apply (proj2 (int_set_In _ _)). exact Hcp. }
        apply common_cps_In in Hc as [Hc0 Hcs].
        destruct H2 as [<- | H2];
          [apply (proj1 (int_set_In _ _)); exact Hc0 |].
        apply (proj1 (int_set_In _ _)). apply Hcs.
        apply in_map_iff. now exists f2.
      - intros H [style cmap] Hx cp Hcp. cbn [snd] in Hcp.
        assert (Hf : exists f1, In f1 (f0 :: fs)
                                /\ cmap = Family.int_set (map fst (bestCmap f1))).
        { destruct Hx as [Hx | Hx].
          - inversion Hx. exists f0. split; [now left | reflexivity].
          - apply in_map_iff in Hx as (f1 & Hx & Hin). inversion Hx.
            exists f1. split; [now right | reflexivity]. }
        destruct Hf as (f1 & Hin1 & ->).
        apply (proj1 (int_set_In _ _)) in Hcp.
        apply common_cps_In. split.
        + apply (proj2 (int_set_In _ _)).
          apply (H f1 f0 cp Hin1); [now left | exact Hcp].
        + intros o Ho. apply in_map_iff in Ho as (f2 & <- & Hin2).
          apply (proj2 (int_set_In _ _)).
          apply (H f1 f2 cp Hin1); [now right | exact Hcp]. }
    rewrite <- Hagree, <- Hextra.
    match goal with
    | |- context [fold_left ?F cmaps []] =>
        replace (fold_left F cmaps []) with extra
    end.
    destruct extra as [|p ps]; cbn.
    + split; [reflexivity |]. split; [now left |]. split; reflexivity.
    + split; [reflexivity |]. split; [now right |]. split; discriminate.
Qed.

Lemma codepoint_coverage_passes_iff_the_cmaps_agree_witness :
  List.NoDup (map (fun f => canonical_stylename Sample.env (file_name f))
                [Sample.regular; Sample.bold])
  /\ map status_of
       (emitted (run (Family.com_google_fonts_check_family_equal_codepoint_coverage
                        Sample.env [Sample.regular; Sample.bold] [])))
     = [PASS].
Proof.
  assert (Hnd : List.NoDup
                  (map (fun f => canonical_stylename Sample.env (file_name f))
                     [Sample.regular; Sample.bold])).
  { vm_compute. repeat (constructor; [cbn; intuition discriminate |]).
    constructor. }
  split; [exact Hnd |].
  apply (proj2 (codepoint_coverage_passes_iff_the_cmaps_agree
                  Sample.env [Sample.regular; Sample.bold] [] Hnd)).
  - discriminate.
  - intros f1 f2 cp [<- | [<- | []]] _ [].
Defined.

Lemma italics_loop (fonts italics missing_roman : list string) :
  for_fold italics missing_roman (fun missing_roman italic =>
    (if Obs.bad_filename italic
     then yield WARN (Message "bad-filename"
            ("Filename seems to be incorrect: '" +:+ italic +:+ "'"))
     else pass);;
    if negb (mem (Obs.roman_counterpart italic) fonts)
    then mret (missing_roman ++ [italic])
    else mret missing_roman)
  = MkGen (map (fun italic =>
                  (WARN, Message "bad-filename"
                           ("Filename seems to be incorrect: '" +:+ italic +:+ "'")))
               (List.filter Obs.bad_filename italics))
          (Next (missing_roman
                 ++ List.filter
                      (fun italic => negb (mem (Obs.roman_counterpart italic) fonts))
                      italics)).
Proof.
  revert missing_roman.
  induction italics as [|italic italics IH]; intros missing_roman;
    cbn [for_fold List.filter map].
  - now rewrite app_nil_r.
  - destruct (Obs.bad_filename italic);
      destruct (negb (mem (Obs.roman_counterpart italic) fonts));
      gen_cbn; rewrite IH; cbn [yielded flow map app];
      rewrite <- ?app_assoc; reflexivity.
Qed.

(** X18 -- the check family/italics_have_roman_counterparts never raises and
    looks only at the paths that contain Italic.  It yields one WARN with the
    code bad-filename for each of them whose file name fails the test, in
    order, and then one final outcome: PASS when the Roman sibling of every
    italic is among the fonts, FAIL with the code missing-roman otherwise. *)
Theorem italics_outcome_follows_the_filename_warnings (env : Env)
    (fonts : list string) (config : Config) :
  let r := run (Family.com_google_fonts_check_family_italics_have_roman_counterparts
                  env fonts config) in
  let italics := List.filter (contains "Italic") fonts in
  raised r = None
  /\ map (fun e => (status_of e, code_of e)) (emitted r)
     = map (fun _ => (WARN, Some "bad-filename"%string))
           (List.filter Obs.bad_filename italics)
       ++ [if forallb (fun italic => mem (Obs.roman_counterpart italic) fonts) italics
           then (PASS, None)
           else (FAIL, Some "missing-roman"%string)].
Proof.
  intros r italics. subst r.
  unfold Family.com_google_fonts_check_family_italics_have_roman_counterparts.
  cbv zeta. fold italics.
  change (for_fold italics [] _)
    with (for_fold italics [] (fun missing_roman italic =>
            (if Obs.bad_filename italic
             then yield WARN (Message "bad-filename"
                    ("Filename seems to be incorrect: '" +:+ italic +:+ "'"))
             else pass);;
            if negb (mem (Obs.roman_counterpart italic) fonts)
            then mret (missing_roman ++ [italic])
            else mret missing_roman)).
  rewrite italics_loop. cbn [app].
  assert (Hmissing :
            List.filter (fun italic => negb (mem (Obs.roman_counterpart italic) fonts))
              italics = []
            <-> forallb (fun italic => mem (Obs.roman_counterpart italic) fonts)
                  italics = true).
  { rewrite forallb_forall. split.
    - intros H x Hx.
      destruct (mem (Obs.roman_counterpart x) fonts) eqn:E; [reflexivity |].
      assert (Hin : In x (List.filter
                            (fun italic =>
                               negb (mem (Obs.roman_counterpart italic) fonts))
                            italics))
        by (apply filter_In; split; [exact Hx | now rewrite E]).
      rewrite H in Hin. destruct Hin.
    - intros H. apply filter_nil_In. intros x Hx. now rewrite (H x Hx). }
  destruct (List.filter (fun italic => negb (mem (Obs.roman_counterpart italic) fonts))
              italics) as [|m ms] eqn:E.
  - rewrite (proj1 Hmissing eq_refl). gen_cbn.
    rewrite ?app_nil_r. cbn [run emitted raised yielded flow].
    split; [reflexivity |].
    rewrite map_app, map_map. reflexivity.
  - destruct (forallb _ italics) eqn:Eall;
      [now (pose proof (proj2 Hmissing eq_refl) as Hnil; discriminate Hnil) |].
    gen_cbn. rewrite ?app_nil_r. cbn [run emitted raised yielded flow].
    split; [reflexivity |].
    rewrite map_app, map_map. reflexivity.
Qed.

(** *** check_outline_semi_vertical *)

Lemma close_but_not_on_false_iff (yExpected yTrue tolerance : Q) :
  Outline.close_but_not_on yExpected yTrue tolerance = false
  <-> (yExpected == yTrue \/ tolerance < Qabs (yExpected - yTrue))%Q.
Proof.
  split; [| apply close_but_not_on_false].
  destruct (Outline.close_but_not_on yExpected yTrue tolerance) eqn:E;
    [discriminate |]. intros _.
  unfold Outline.close_but_not_on in E.
  destruct (Qeq_bool yExpected yTrue) eqn:E1;
    [left; now apply Qeq_bool_iff |].
  destruct (Qle_bool (Qabs (yExpected - yTrue)) tolerance) eqn:E2;
    [discriminate |].
  right. apply Qnot_le_lt. intros H. apply Qle_bool_iff in H. congruence.
Qed.

Lemma glyph_semi_vertical_quiet (env : Env) (glyph : string * string)
    (outlines : list BezierPath) (warnings : list string) :
  exists extra,
    Outline.glyph_semi_vertical env glyph outlines warnings = warnings ++ extra
    /\ (extra = [] <->
        forall p, In p outlines -> forall s, In s (segments p) ->
          points s = 2%nat ->
          forall y, In y [-180; -90; 0; 90; 180] ->
            let a := math_degrees env
                       (angle env (Outline.minus (seg_end s) (seg_start s))) in
            (a == inject_Z y \/ 5 # 10 < Qabs (a - inject_Z y))%Q).
Proof.
  unfold Outline.glyph_semi_vertical. destruct glyph as [glyphname display_name].
  apply fold_left_quiet. intros ws p.
  apply fold_left_quiet. clear ws. intros ws s.
  unfold Outline.is_line.
  destruct (Nat.eqb_spec (points s) 2) as [E | E]; cbn [negb].
  - destruct (fold_left_quiet
                (fun warnings yExpected =>
                   if Outline.close_but_not_on
                        (math_degrees env
                           (angle env (Outline.minus (seg_end s) (seg_start s))))
                        (inject_Z yExpected) (5 # 10)
                   then warnings ++ [(display_name +:+ ": " +:+ seg_repr s)%string]
                   else warnings)
                (fun y =>
                   let a := math_degrees env
                              (angle env (Outline.minus (seg_end s) (seg_start s))) in
                   (a == inject_Z y \/ 5 # 10 < Qabs (a - inject_Z y))%Q))
      with (l := [-180; -90; 0; 90; 180]) (ws := ws) as (extra & Hrun & Hq).
    { intros ws' y. cbv zeta.
      destruct (Outline.close_but_not_on _ (inject_Z y) (5 # 10)) eqn:C.
      - eexists. split; [reflexivity |]. split; [discriminate |].
        intros H. apply close_but_not_on_false_iff in H. congruence.
      - exists []. split; [now rewrite app_nil_r |].
        split; [| reflexivity]. intros _. now apply close_but_not_on_false_iff. }
    exists extra. split; [exact Hrun |]. rewrite Hq. split.
    + intros H _. exact H.
    + intros H. exact (H E).
  - exists []. split; [now rewrite app_nil_r |].
    split; [| reflexivity]. intros _ Hp. contradiction.
Qed.

(** X19 -- check_outline_semi_vertical never raises and yields one outcome,
    the PASS or the WARN found-semi-vertical.  It yields the PASS exactly
    when the direction of every two-point segment, in degrees, is equal to
    each of -180, -90, 0, 90 and 180 or more than half a degree away from it;
    segments with more points are not looked at. *)
Theorem semi_vertical_check_passes_iff_lines_are_on_or_off_axis (env : Env)
    (f : TTFont) (outlines_dict : OutlinesDict) (config : Config) :
  let r := run (Outline.check_outline_semi_vertical env f outlines_dict config) in
  raised r = None
  /\ (map (fun e => (status_of e, code_of e)) (emitted r) = [(PASS, None)]
      \/ map (fun e => (status_of e, code_of e)) (emitted r)
         = [(WARN, Some "found-semi-vertical"%string)])
  /\ (map status_of (emitted r) = [PASS]
      <-> forall item p s y,
            In item outlines_dict -> In p (snd item) -> In s (segments p) ->
            points s = 2%nat -> In y [-180; -90; 0; 90; 180] ->
            let a := math_degrees env
                       (angle env (Outline.minus (seg_end s) (seg_start s))) in
            (a == inject_Z y \/ 5 # 10 < Qabs (a - inject_Z y))%Q).
Proof.
  cbv zeta. unfold Outline.check_outline_semi_vertical. cbv zeta.
  destruct (fold_left_quiet
              (fun warnings '(glyph, outlines) =>
                 Outline.glyph_semi_vertical env glyph outlines warnings)
              (fun item =>
                 forall p, In p (snd item) -> forall s, In s (segments p) ->
                   points s = 2%nat ->
                   forall y, In y [-180; -90; 0; 90; 180] ->
                     let a := math_degrees env
                                (angle env (Outline.minus (seg_end s) (seg_start s))) in
                     (a == inject_Z y \/ 5 # 10 < Qabs (a - inject_Z y))%Q)
              (fun ws '(glyph, outlines) =>
                 glyph_semi_vertical_quiet env glyph outlines ws)
              outlines_dict []) as (extra & -> & Hq).
  cbn [app]. destruct extra as [|w extra];
    cbn [run emitted raised flow yielded yield map status_of code_of fst snd].
  - split; [reflexivity |]. split; [now left |].
    split; [| reflexivity]. intros _ item p s y Hi Hp Hs Hl Hy.
    exact (proj1 Hq eq_refl item Hi p Hp s Hs Hl y Hy).
  - split; [reflexivity |]. split; [now right |].
    split; [discriminate |]. intros H.
    assert (Hnil : w :: extra = []); [| discriminate Hnil].
    apply Hq. intros item Hi p Hp s Hs Hl y Hy.
    exact (H item p s y Hi Hp Hs Hl Hy).
Qed.

(** *** check_caps_vertically_centered *)

(** X20 -- check_caps_vertically_centered on a font object of the store: it
    yields the SKIP with the code lacks-ascii, and nothing else, exactly when
    the glyph set lacks one of the twelve sample glyphs; it then raises
    nothing, whether or not the font has an hhea table. *)
Theorem caps_check_skips_iff_a_sample_glyph_is_missing (l : loc) (h : store)
    (f : TTFont) :
  h !! l = Some f ->
  let r := run (snd (Metrics.check_caps_vertically_centered l h)) in
  (map status_of (emitted r) = [SKIP]
   <-> exists glyphname,
         In glyphname Metrics.SOME_UPPERCASE_GLYPHS
         /\ in_glyphset glyphname (glyphSet f) = false)
  /\ (map status_of (emitted r) = [SKIP] ->
      raised r = None
      /\ map code_of (emitted r) = [Some "lacks-ascii"%string]).
Proof.
  intros Hl r. subst r. rewrite (check_caps_vertically_centered_run l h f Hl).
  destruct (forallb (fun n => in_glyphset n (glyphSet f))
              Metrics.SOME_UPPERCASE_GLYPHS) eqn:Hall; cbn [snd].
  - assert (Hnot : ~ exists glyphname,
                       In glyphname Metrics.SOME_UPPERCASE_GLYPHS
                       /\ in_glyphset glyphname (glyphSet f) = false).
    { intros (n & Hn & Hmiss).
      rewrite forallb_forall in Hall. rewrite (Hall n Hn) in Hmiss.
      discriminate. }
    match goal with
    | |- context [Metrics.caps_verdict ?a ?b ?hs ?ls] =>
        pose proof (caps_verdict_run a b hs ls
                      (length_map _ Metrics.SOME_UPPERCASE_GLYPHS)
                      (length_map _ Metrics.SOME_UPPERCASE_GLYPHS)) as Hv
    end.
    destruct (hhea f) as [hh |]; [destruct Hv as [-> | ->] | rewrite Hv];
      cbn; (split; [split; [discriminate | intros H; now destruct Hnot] |]);
      discriminate.
  - cbn. split; [| intros _; split; reflexivity].
    split; [| reflexivity]. intros _.
    assert (Hex : existsb (fun n => negb (in_glyphset n (glyphSet f)))
                    Metrics.SOME_UPPERCASE_GLYPHS = true).
    { clear -Hall. induction Metrics.SOME_UPPERCASE_GLYPHS as [|n ns IH];
        cbn in *; [discriminate |].
      destruct (in_glyphset n (glyphSet f)); cbn in *; [now apply IH | reflexivity]. }
    apply existsb_exists in Hex as (n & Hn & Hmiss).
    exists n. split; [exact Hn |]. now destruct (in_glyphset n (glyphSet f)).
Qed.

Lemma caps_check_skips_iff_a_sample_glyph_is_missing_witness :
  Sample.store_of (Sample.mk_font "Family-Regular" None None []) !! 1%positive
  = Some (Sample.mk_font "Family-Regular" None None [])
  /\ map status_of
       (emitted (run (snd (Metrics.check_caps_vertically_centered 1%positive
                             (Sample.store_of
                                (Sample.mk_font "Family-Regular" None None []))))))
     = [SKIP].
Proof.
  assert (Hl : Sample.store_of (Sample.mk_font "Family-Regular" None None [])
                 !! 1%positive
               = Some (Sample.mk_font "Family-Regular" None None []))
    by reflexivity.
  split; [exact Hl |].
  apply (proj1 (caps_check_skips_iff_a_sample_glyph_is_missing
                  1%positive _ _ Hl)).
  exists "A"%string. split; [now left | reflexivity].
Defined.

(** ** The checks without a branch for the clean case *)

Lemma string_app_assoc (a b c : string) : (a +:+ b) +:+ c = a +:+ (b +:+ c).
Proof.
  induction a as [|x a IH]; [reflexivity |].
  change (String x ((a +:+ b) +:+ c) = String x (a +:+ (b +:+ c))).
  now rewrite IH.
Qed.

Lemma string_app_nil_r (a : string) : a +:+ "" = a.
Proof.
  induction a as [|x a IH]; [reflexivity |].
  change (String x (a +:+ "") = String x a). now rewrite IH.
Qed.

(** The loop of check_cff_ascii_strings over the listed strings: it ends
    with a line for each string when they all decode, and raises at the
    first one that does not. *)
Lemma ascii_strings_loop (not_ascii : list (string * string)) :
  forall detailed_info : string,
    let loop :=
      for_fold not_ascii detailed_info (fun detailed_info '(key, string) =>
        decoded ← lift (Cff.latin1_as_utf8 string);
        mret (detailed_info +:+ newline +:+ newline +:+ tab +:+ " - "
              +:+ key +:+ ": " +:+ decoded)) in
    (forall decoded,
       Forall2 (fun item d => Cff.latin1_as_utf8 (snd item) = Ok d)
         not_ascii decoded ->
       loop = MkGen [] (Next (detailed_info
                              +:+ Claimed.listed_strings
                                    (combine (map fst not_ascii) decoded))))
    /\ (forall before item after e,
          not_ascii = before ++ item :: after ->
          Forall (fun item => exists d, Cff.latin1_as_utf8 (snd item) = Ok d)
            before ->
          Cff.latin1_as_utf8 (snd item) = Raised e ->
          loop = MkGen [] (Throw e)).
Proof.
  induction not_ascii as [|[key string] rest IH]; intros detailed_info;
    cbn zeta; cbn [for_fold].
  - split.
    + intros decoded H. inversion H; subst. cbn.
      now rewrite string_app_nil_r.
    + intros [|? ?] item after e H; discriminate H.
  - split.
    + intros decoded H. inversion H as [|? d ? ds Hd Hrest]; subst.
      cbn [snd] in Hd. rewrite Hd. cbn [lift]. rewrite gen_bind_Next.
      cbn [mret Gen_ret yielded flow app]. rewrite gen_bind_Next.
      rewrite (proj1 (IH _) ds Hrest).
      cbn [yielded flow app map fst combine Claimed.listed_strings].
      f_equal. f_equal. now rewrite !string_app_assoc.
    + intros before item after e Hsplit Hbefore Hfail.
      destruct before as [|b before]; cbn [app] in Hsplit.
      * inversion Hsplit; subst. cbn [snd] in Hfail. rewrite Hfail.
        cbn [lift]. now rewrite gen_bind_Throw.
      * inversion Hsplit; subst. inversion Hbefore as [|? ? [d Hd] Hb]; subst.
        cbn [snd] in Hd. rewrite Hd. cbn [lift]. rewrite gen_bind_Next.
        cbn [mret Gen_ret yielded flow app]. rewrite gen_bind_Next.
        rewrite (proj2 (IH _) before item after e eq_refl Hb Hfail).
        reflexivity.
Qed.

(** C1, as the claim states it, fails: the three checks that it names run to
    their end and yield nothing when there is nothing to report, here on an
    analysis without findings and on a font without outlines. *)
Lemma cff_checks_yield_nothing_without_findings :
  snd (Registry.run_check Sample.env Registry.cff_call_depth Sample.args
         (Sample.store_of Sample.regular))
  = MkRun [] None
  /\ snd (Registry.run_check Sample.env Registry.cff_deprecated_operators
            Sample.args (Sample.store_of Sample.regular))
     = MkRun [] None
  /\ snd (Registry.run_check Sample.env Registry.outline_direction
            Sample.args (Sample.store_of Sample.regular))
     = MkRun [] None.
Proof. repeat split. Qed.

(** C1, amended.  Five checks have no branch for the clean case: the four
    checks of cff.py and check_outline_direction.  Every other check body
    that runs to its end without raising yields at least one outcome.  Of
    the five:
    - check_cff_call_depth and check_cff2_call_depth yield one FAIL for each
      glyph of [glyphs_exceed_max] and of [glyphs_recursion_errors], and
      raise what the condition raised;
    - check_cff_deprecated_operators yields one WARN for each glyph of
      [glyphs_dotsection] and one FAIL for each glyph of
      [glyphs_endchar_seac];
    - check_cff_ascii_strings yields the single FAIL cff-unable-to-decode
      when [string_not_ascii] is [None], nothing when it is empty, and
      otherwise one FAIL cff-string-not-in-ascii-range that lists every
      string, however many there are; it raises instead, having yielded
      nothing, when one of the strings does not decode;
    - check_outline_direction does not raise; it yields the single WARN
      ccw-outer-contour or nothing, and nothing exactly when every path has
      bounds and every path of direction 1 lies within another path of its
      glyph.
    So each of the five yields nothing exactly when it has nothing to
    report. *)
Theorem completed_checks_yield_an_outcome (env : Env) (id : Registry.CheckId)
    (args : Registry.Resolved) (h : store) :
  let r := snd (Registry.run_check env id args h) in
  (~ In id Claimed.silent_when_clean -> raised r = None -> emitted r <> [])
  /\ (forall analysis e,
        run (Cff.check_cff_call_depth (Ok analysis))
        = MkRun
            (map (fun gn =>
                    (FAIL, Message "max-depth"
                       ("Subroutine call depth exceeded maximum of 10 for glyph "
                        +:+ dquote +:+ gn +:+ dquote +:+ ".")))
                 (Cff.glyphs_exceed_max analysis)
             ++ map (fun gn =>
                       (FAIL, Message "recursion-error"
                          ("Recursion error while decompiling glyph "
                           +:+ dquote +:+ gn +:+ dquote +:+ ".")))
                  (Cff.glyphs_recursion_errors analysis))
            None
        /\ run (Cff.check_cff2_call_depth (Ok analysis))
           = run (Cff.check_cff_call_depth (Ok analysis))
        /\ run (Cff.check_cff_call_depth (Raised e)) = MkRun [] (Some e)
        /\ run (Cff.check_cff2_call_depth (Raised e)) = MkRun [] (Some e))
  /\ (forall analysis,
        run (Cff.check_cff_deprecated_operators analysis)
        = MkRun
            (map (fun gn =>
                    (WARN, Message "deprecated-operator-dotsection"
                       ("Glyph " +:+ dquote +:+ gn +:+ dquote
                        +:+ " uses deprecated " +:+ dquote +:+ "dotsection"
                        +:+ dquote +:+ " operator.")))
                 (Cff.glyphs_dotsection analysis)
             ++ map (fun gn =>
                       (FAIL, Message "deprecated-operation-endchar-seac"
                          ("Glyph " +:+ dquote +:+ gn +:+ dquote
                           +:+ " has deprecated use of " +:+ dquote
                           +:+ "endchar" +:+ dquote
                           +:+ " operator to build accented characters (seac).")))
                  (Cff.glyphs_endchar_seac analysis))
            None)
  /\ (forall analysis,
        match Cff.string_not_ascii analysis with
        | None =>
            map (fun e => (status_of e, code_of e))
              (emitted (run (Cff.check_cff_ascii_strings analysis)))
            = [(FAIL, Some "cff-unable-to-decode"%string)]
            /\ raised (run (Cff.check_cff_ascii_strings analysis)) = None
        | Some [] => run (Cff.check_cff_ascii_strings analysis) = MkRun [] None
        | Some not_ascii =>
            (forall decoded,
               Forall2 (fun item d => Cff.latin1_as_utf8 (snd item) = Ok d)
                 not_ascii decoded ->
               run (Cff.check_cff_ascii_strings analysis)
               = MkRun
                   [(FAIL,
                     Message "cff-string-not-in-ascii-range"
                       ("The following CFF TopDict strings are not in the ASCII range: "
                        +:+ Claimed.listed_strings
                              (combine (map fst not_ascii) decoded)))]
                   None)
            /\ (forall before item after e,
                  not_ascii = before ++ item :: after ->
                  Forall (fun item =>
                            exists d, Cff.latin1_as_utf8 (snd item) = Ok d)
                    before ->
                  Cff.latin1_as_utf8 (snd item) = Raised e ->
                  run (Cff.check_cff_ascii_strings analysis)
                  = MkRun [] (Some e))
        end)
  /\ (forall ttFont outlines_dict config,
        let d := run (Outline.check_outline_direction env ttFont outlines_dict
                        config) in
        raised d = None
        /\ (emitted d = []
            \/ map (fun e => (status_of e, code_of e)) (emitted d)
               = [(WARN, Some "ccw-outer-contour"%string)])
        /\ (emitted d = []
            <-> forall item k p,
                  In item outlines_dict -> nth_error (snd item) k = Some p ->
                  path_bounds p <> None
                  /\ (direction p = 1 -> Obs.hidden (snd item) k))).
Proof.
  cbn zeta. split; [| split; [| split; [| split]]].
  - intros Hid. unfold Registry.run_check.
    destruct (Registry.body env id args h) as [h' g] eqn:Hbody. cbn [snd].
    apply run_of_emits.
    replace g with (snd (Registry.body env id args h)) by now rewrite Hbody.
    clear Hbody h' g.
    destruct id;
      try (exfalso; apply Hid; unfold Claimed.silent_when_clean; cbn; tauto);
      cbn [Registry.body];
      first [ apply lifted_check_emits; intros f
            | apply lifted_family_check_emits; intros fs
            | idtac ].
    + apply check_family_win_ascent_and_descent_emits.
    + apply check_os2_metrics_match_hhea_emits.
    + apply check_family_vertical_metrics_emits.
    + apply check_linegaps_emits.
    + apply check_typoascender_emits.
    + apply check_caps_emits.
    + apply check_outline_alignment_miss_emits.
    + apply check_outline_short_segments_emits.
    + apply check_outline_colinear_vectors_emits.
    + apply check_outline_jaggy_segments_emits.
    + apply check_outline_semi_vertical_emits.
    + apply check_overlapping_path_segments_emits.
    + apply check_family_equal_codepoint_coverage_emits.
    + apply check_family_italics_emits.
    + apply check_family_tnum_emits.
  - intros analysis e. split; [| split; [reflexivity | split; reflexivity]].
    unfold Cff.check_cff_call_depth. cbn [lift]. rewrite gen_bind_Next.
    destruct (Cff.glyphs_exceed_max analysis) as [|g1 l1] eqn:E1;
      destruct (Cff.glyphs_recursion_errors analysis) as [|g2 l2] eqn:E2;
      cbn [nonempty orb]; try reflexivity;
      rewrite !for_yield_each, gen_bind_Next; reflexivity.
  - intros analysis. unfold Cff.check_cff_deprecated_operators.
    destruct (Cff.glyphs_dotsection analysis) as [|g1 l1] eqn:E1;
      destruct (Cff.glyphs_endchar_seac analysis) as [|g2 l2] eqn:E2;
      cbn [nonempty orb]; try reflexivity;
      rewrite !for_yield_each, gen_bind_Next; reflexivity.
  - intros analysis. unfold Cff.check_cff_ascii_strings.
    destruct (Cff.string_not_ascii analysis) as [[|item rest] |];
      [reflexivity | | split; reflexivity].
    cbv zeta. split.
    + intros decoded Hdec.
      rewrite (proj1 (ascii_strings_loop (item :: rest) "") decoded Hdec).
      rewrite gen_bind_Next. reflexivity.
    + intros before it after e Hsplit Hbefore Hfail.
      rewrite (proj2 (ascii_strings_loop (item :: rest) "")
                 before it after e Hsplit Hbefore Hfail).
      rewrite gen_bind_Throw. reflexivity.
  - intros ttFont outlines_dict config.
    unfold Outline.check_outline_direction. cbv zeta.
    destruct (direction_warnings_quiet outlines_dict []) as (extra & -> & Hq).
    cbn [app]. destruct extra as [|w extra].
    + cbn [run emitted raised flow yielded pass]. split; [reflexivity |].
      split; [now left |]. split; [intros _; now apply Hq | reflexivity].
    + cbn [run emitted raised flow yielded yield map status_of code_of fst snd].
      split; [reflexivity |]. split; [now right |].
      split; [discriminate |]. intros Hclean. apply Hq in Hclean.
      discriminate Hclean.
Qed.

Lemma completed_checks_yield_an_outcome_witness :
  ~ In Registry.linegaps Claimed.silent_when_clean
  /\ raised (snd (Registry.run_check Sample.env Registry.linegaps Sample.args
                    (Sample.store_of Sample.regular))) = None
  /\ emitted (snd (Registry.run_check Sample.env Registry.linegaps Sample.args
                     (Sample.store_of Sample.regular))) <> [].
Proof.
  assert (Hid : ~ In Registry.linegaps Claimed.silent_when_clean).
  { unfold Claimed.silent_when_clean. cbn. intuition discriminate. }
  split; [exact Hid |]. split; [reflexivity |].
  destruct (completed_checks_yield_an_outcome Sample.env Registry.linegaps
              Sample.args (Sample.store_of Sample.regular)) as [Hemits _].
  apply Hemits; [exact Hid | reflexivity].
Defined.

(** check_cff_ascii_strings on two listed strings: one FAIL that lists both;
    and on a string that is not UTF-8 when read as Latin-1 bytes: the
    exception of [decode]. *)
Example ascii_strings_check_lists_every_string :
  run (Cff.check_cff_ascii_strings
         {| Cff.glyphs_dotsection := []; Cff.glyphs_endchar_seac := [];
            Cff.glyphs_exceed_max := []; Cff.glyphs_recursion_errors := [];
            Cff.string_not_ascii :=
              Some [("Notice", String (ascii_of_nat 195)
                                 (String (ascii_of_nat 169) "t" ));
                    ("FontName", String (ascii_of_nat 194)
                                   (String (ascii_of_nat 169) "" ))]%string |})
  = MkRun
      [(FAIL,
        Message "cff-string-not-in-ascii-range"
          ("The following CFF TopDict strings are not in the ASCII range: "
           +:+ newline +:+ newline +:+ tab +:+ " - Notice: "
           +:+ String (ascii_of_nat 195) (String (ascii_of_nat 169) "t")
           +:+ newline +:+ newline +:+ tab +:+ " - FontName: "
           +:+ String (ascii_of_nat 194) (String (ascii_of_nat 169) "")))]
      None
  /\ run (Cff.check_cff_ascii_strings
            {| Cff.glyphs_dotsection := []; Cff.glyphs_endchar_seac := [];
               Cff.glyphs_exceed_max := []; Cff.glyphs_recursion_errors := [];
               Cff.string_not_ascii :=
                 Some [("Notice", String (ascii_of_nat 233) "t")]%string |})
     = MkRun [] (Some UnicodeDecodeError).
Proof. split; vm_compute; reflexivity. Qed.
